(** * Spend Propensity Explorer: the segmentation engine of [frontend/src/App.tsx]

    A shallow embedding of the pure functions of [App.tsx]:
    [rankCategories], [recommendForMember], the shape check of [loadCsv],
    [silhouetteApprox], [kmeans] (with its inner [rngMulberry32], [dist2] and
    [runOnce]), [suggestElbow] and the K-selection block of [autoCluster].

    JavaScript numbers are kept behind an interface ([Arith]); its instance
    [F64] is IEEE binary64, which is what the browser computes.
    A JavaScript exception is a value of [result]. *)

From Stdlib Require Import String.
From Stdlib Require Import ZArith NArith List Bool Lia Floats Permutation FinFun Sorted.
Import ListNotations.

(** ** Exceptions *)

Inductive exn : Type :=
| TypeError                 (* reading a property of [undefined] *)
| Error (msg : string).     (* [throw new Error(msg)] *)

Inductive result (T : Type) : Type :=
| Ok (t : T)
| Throw (e : exn).

Arguments Ok {T} t.
Arguments Throw {T} e.

Definition bind {T U : Type} (m : result T) (k : T -> result U) : result U :=
  match m with
  | Ok t => k t
  | Throw e => Throw e
  end.

Notation "x <- m ;; k" := (bind m (fun x => k))
  (at level 61, m at next level, right associativity).
Notation "' p <- m ;; k" := (bind m (fun p => k))
  (at level 61, p pattern, m at next level, right associativity).

(** A [for] loop whose body may throw. *)
Fixpoint foldM {T S : Type} (f : S -> T -> result S) (l : list T) (s : S) : result S :=
  match l with
  | [] => Ok s
  | x :: l' => s' <- f s x ;; foldM f l' s'
  end.

(** ** JavaScript numbers *)

Class Arith : Type := {
  num : Type;
  zero : num;
  one : num;
  NaN : num;
  Infinity : num;
  NegInfinity : num;
  add : num -> num -> num;
  sub : num -> num -> num;
  mul : num -> num -> num;
  div : num -> num -> num;
  Math_sqrt : num -> num;
  Math_abs : num -> num;
  Math_max : num -> num -> num;
  lt : num -> num -> bool;        (* [x < y] *)
  le : num -> num -> bool;        (* [x <= y] *)
  truthy : num -> bool;           (* ToBoolean: false on 0, -0 and NaN *)
  ofZ : Z -> num                  (* an integer-valued number *)
}.

Declare Scope num_scope.
Delimit Scope num_scope with num.
Notation "x + y" := (add x y) : num_scope.
Notation "x - y" := (sub x y) : num_scope.
Notation "x * y" := (mul x y) : num_scope.
Notation "x / y" := (div x y) : num_scope.
Notation "x <? y" := (lt x y) : num_scope.
Notation "x >? y" := (lt y x) : num_scope.
Notation "x >=? y" := (le y x) : num_scope.
(** [x || y] on numbers. *)
Notation "x '|||' y" := (if truthy x then x else y) (at level 50, left associativity) : num_scope.

(** *** IEEE binary64, the numbers of the browser *)

Module Float64.

Definition ofZ (z : Z) : float :=
  if (z <? 0)%Z then PrimFloat.opp (PrimFloat.of_uint63 (Uint63.of_Z (- z)))
  else PrimFloat.of_uint63 (Uint63.of_Z z).

(** [Math.max]: NaN if either argument is NaN, and [+0] above [-0]. *)
Definition max (x y : float) : float :=
  if PrimFloat.is_nan x || PrimFloat.is_nan y then PrimFloat.nan
  else if PrimFloat.ltb x y then y
  else if PrimFloat.ltb y x then x
  else if PrimFloat.get_sign x then y else x.

Definition truthy (x : float) : bool :=
  negb (PrimFloat.is_zero x || PrimFloat.is_nan x).

End Float64.

#[export] Instance F64 : Arith := {|
  num := float;
  zero := PrimFloat.zero;
  one := PrimFloat.one;
  NaN := PrimFloat.nan;
  Infinity := PrimFloat.infinity;
  NegInfinity := PrimFloat.neg_infinity;
  add := PrimFloat.add;
  sub := PrimFloat.sub;
  mul := PrimFloat.mul;
  div := PrimFloat.div;
  Math_sqrt := PrimFloat.sqrt;
  Math_abs := PrimFloat.abs;
  Math_max := Float64.max;
  lt := PrimFloat.ltb;
  le := PrimFloat.leb;
  truthy := Float64.truthy;
  ofZ := Float64.ofZ
|}.

(** ** The program *)

(** [CATEGORY_NAMES] *)
Definition CATEGORY_NAMES : list string :=
  [ "Transportation"; "Health"; "LuxuryGoods"; "Service"; "Telecommunications";
    "Groceries"; "Clothing"; "Food&Beverage"; "PublicUtilities"; "Others" ]%string.

(** [KMEANS_SEED] *)
Definition KMEANS_SEED : Z := 12345.

(** *** 32-bit integer operations used by [rngMulberry32] *)

Definition ToUint32 (z : Z) : Z := (z mod 2 ^ 32)%Z.

Definition ToInt32 (z : Z) : Z :=
  (let u := z mod 2 ^ 32 in if 2 ^ 31 <=? u then u - 2 ^ 32 else u)%Z.

(** [Math.imul(a, b)] *)
Definition Math_imul (a b : Z) : Z := ToInt32 (ToInt32 a * ToInt32 b)%Z.
(** [a ^ b] *)
Definition bxor (a b : Z) : Z := ToInt32 (Z.lxor (ToInt32 a) (ToInt32 b)).
(** [a | b] *)
Definition bor (a b : Z) : Z := ToInt32 (Z.lor (ToInt32 a) (ToInt32 b)).
(** [a >>> n] for [0 <= n < 32] *)
Definition ushr (a n : Z) : Z := Z.shiftr (ToUint32 a) n.

(** One call of the closure returned by [rngMulberry32(s)]: the new value of
    the captured [s] and the numerator [u] of the returned number
    [u / 4294967296] (a 32-bit unsigned integer, so the quotient is exact).
    The captured [s] is an integer-valued number; it is kept as an integer,
    which is what [s += 0x6d2b79f5] computes below 2^53. *)
Definition rngMulberry32 (s : Z) : Z * Z :=
  let s := (s + 1831565813)%Z in                                (* 0x6d2b79f5 *)
  let t := s in
  let t := Math_imul (bxor t (ushr t 15)) (bor t 1) in
  let t := bxor t (t + Math_imul (bxor t (ushr t 7)) (bor t 61))%Z in
  (s, ushr (bxor t (ushr t 14)) 0).

(** [const t = idx[i]; idx[i] = idx[j]; idx[j] = t] with [i], [j] inside [idx]. *)
Definition swap (idx : list nat) (i j : nat) : list nat :=
  let xi := nth i idx O in
  let xj := nth j idx O in
  map (fun k => if Nat.eqb k i then xj else if Nat.eqb k j then xi else nth k idx O)
      (seq 0 (length idx)).

(** The Fisher-Yates loop of [runOnce]: [Math.floor(rnd() * (i + 1))] is
    [u * (i + 1) / 2^32] rounded down, the product being exact for the
    row counts a browser can hold (i + 1 < 2^21). *)
Definition shuffle (N : nat) (initSeed : Z) : list nat :=
  snd (fold_left
         (fun (st : Z * list nat) (i : nat) =>
            let (s, idx) := st in
            let (s', u) := rngMulberry32 s in
            let j := Z.to_nat (u * (Z.of_nat i + 1) / 2 ^ 32)%Z in
            (s', swap idx i j))
         (rev (seq 1 (N - 1)))
         (initSeed, seq 0 N)).

Section Program.

Context {A : Arith}.
Local Open Scope num_scope.

Definition Row : Type := list num.
Definition Matrix : Type := list Row.

(** [a[d]] read as a number: a missing element is [undefined], which
    arithmetic turns into NaN. *)
Definition get (a : Row) (d : nat) : num := nth d a NaN.

(** The loop shared by [dist] and [dist2]:
    [let s = 0; for (d < D) { const dd = a[d] - b[d]; s += dd * dd }]. *)
Definition sumsq (D : nat) (a b : Row) : num :=
  fold_left (fun s d => let dd := get a d - get b d in s + dd * dd) (seq 0 D) zero.

(** [dist2(a, b)] of [kmeans]; [b] is the result of an array read and is
    [None] when that read gave [undefined], in which case [b[0]] throws
    as soon as the loop body runs. *)
Definition dist2 (D : nat) (a : Row) (b : option Row) : result num :=
  match D, b with
  | O, _ => Ok zero
  | S _, None => Throw TypeError
  | S _, Some b => Ok (sumsq D a b)
  end.

(** [dist(a, b)] of [silhouetteApprox]. *)
Definition dist (D : nat) (a : Row) (b : option Row) : result num :=
  s <- dist2 D a b ;; Ok (Math_sqrt s).

(** *** [kmeans] *)

Record RunResult : Type := mkRun {
  labels : list nat;
  centers : list Row;
  inertia : num
}.

(** The body of the inner loop of the assign step, on the pair [(best, bestd)]:
    [const d = dist2(mat[i], centers[c]); if (d < bestd) { bestd = d; best = c }]. *)
Definition nearestStep (D : nat) (cs : list Row) (row : Row) (acc : nat * num) (c : nat)
  : result (nat * num) :=
  d <- dist2 D row (nth_error cs c) ;; Ok (if d <? snd acc then (c, d) else acc).

(** [let best = 0, bestd = Infinity; for (c < K) { ... }] *)
Definition nearest (D K : nat) (cs : list Row) (row : Row) : result (nat * num) :=
  foldM (nearestStep D cs row) (seq 0 K) (O, Infinity).

(** The assign step: the new labels and whether any label changed. *)
Fixpoint assign (D K : nat) (cs : list Row) (rows : Matrix) (ls : list nat)
  : result (list nat * bool) :=
  match rows with
  | [] => Ok ([], false)
  | row :: rows' =>
      b <- nearest D K cs row ;;
      r <- assign D K cs rows' (tl ls) ;;
      Ok (fst b :: fst r, negb (Nat.eqb (hd O ls) (fst b)) || snd r)
  end.

(** [for (d < D) sums[l][d] += row[d]] on the row [sums[l]]. *)
Definition addRow (D : nat) (acc row : Row) : Row :=
  map (fun d => get acc d + get row d) (seq 0 D).

(** [xs[i] = v] for [i] inside [xs]. Outside, JavaScript would extend the
    array; the list is then left as it is. The writes of the update step do
    not depend on it: [sums[l]] is read before it is written (and throws
    outside), [counts[l]] outside [counts] is never read again, and
    [centers[c]] is written only for a label [c < K], which the assign step
    has found inside [centers] ([assign_labels_inside] below). *)
Fixpoint set_nth {T : Type} (i : nat) (v : T) (xs : list T) : list T :=
  match xs, i with
  | [], _ => []
  | _ :: xs', O => v :: xs'
  | x :: xs', S i' => x :: set_nth i' v xs'
  end.

(** The body of the first loop of the update step, on the pair
    [(sums, counts)]: [counts[l]++; for (d < D) sums[l][d] += row[d]].
    With [l] outside [sums], [sums[l][d]] throws if the loop over [d] runs. *)
Definition accumulateStep (D : nat) (acc : list Row * list nat) (p : nat * Row)
  : result (list Row * list nat) :=
  let (l, row) := p in
  let counts := set_nth l (S (nth l (snd acc) O)) (snd acc) in
  match D, nth_error (fst acc) l with
  | O, _ => Ok (fst acc, counts)
  | S _, None => Throw TypeError
  | S _, Some sl => Ok (set_nth l (addRow D sl row) (fst acc), counts)
  end.

(** First loop of the update step: the per-cluster sums and counts
    ([labels] holds one label per row). *)
Definition accumulate (D K : nat) (rows : Matrix) (ls : list nat)
  : result (list Row * list nat) :=
  foldM (accumulateStep D) (combine ls rows) (repeat (repeat zero D) K, repeat O K).

(** The body of the second loop of the update step:
    [if (counts[c] === 0) continue; sums[c][d] /= counts[c]; centers[c] = sums[c]]. *)
Definition recenterStep (sums : list Row) (counts : list nat) (cs : list Row) (c : nat)
  : list Row :=
  match nth c counts O with
  | O => cs
  | S _ as n => set_nth c (map (fun x => x / ofZ (Z.of_nat n)) (nth c sums [])) cs
  end.

Definition recenter (K : nat) (sums : list Row) (counts : list nat) (cs : list Row)
  : list Row :=
  fold_left (recenterStep sums counts) (seq 0 K) cs.

Definition update (D K : nat) (rows : Matrix) (ls : list nat) (cs : list Row)
  : result (list Row) :=
  '(sums, counts) <- accumulate D K rows ls ;;
  Ok (recenter K sums counts cs).

(** The local variables of [runOnce] when its [while] loop exits. *)
Record LoopState : Type := mkLoop {
  st_labels : list nat;
  st_centers : list Row;
  st_changed : bool;
  st_it : nat
}.

(** [while (changed && it < maxIter) { ... }], with [fuel = maxIter - it]. *)
Fixpoint loop (fuel : nat) (D K : nat) (rows : Matrix) (st : LoopState)
  : result LoopState :=
  match fuel with
  | O => Ok st
  | S fuel' =>
      if st_changed st then
        '(ls, changed) <- assign D K (st_centers st) rows (st_labels st) ;;
        cs <- update D K rows ls (st_centers st) ;;
        loop fuel' D K rows (mkLoop ls cs changed (S (st_it st)))
      else Ok st
  end.

(** [for (i < N) inertia += dist2(mat[i], centers[labels[i]])] *)
Definition sumInertia (D : nat) (rows : Matrix) (ls : list nat) (cs : list Row)
  : result num :=
  foldM (fun s (p : nat * Row) =>
           d <- dist2 D (snd p) (nth_error cs (fst p)) ;; Ok (s + d))
        (combine ls rows) zero.

(** The state in which [runOnce(initSeed)] enters its loop. *)
Definition initState (K : nat) (mat : Matrix) (initSeed : Z) : LoopState :=
  let N := length mat in
  let idx := shuffle N initSeed in
  mkLoop (repeat O N) (map (fun i => nth i mat []) (firstn K idx)) true O.

Definition runLoop (D K maxIter : nat) (mat : Matrix) (initSeed : Z)
  : result LoopState :=
  loop maxIter D K mat (initState K mat initSeed).

Definition runOnce (D K maxIter : nat) (mat : Matrix) (initSeed : Z)
  : result RunResult :=
  st <- runLoop D K maxIter mat initSeed ;;
  i <- sumInertia D mat (st_labels st) (st_centers st) ;;
  Ok (mkRun (st_labels st) (st_centers st) i).

(** The multi-start loop: [if (trial.inertia < best.inertia) best = trial].
    The seed is an integer, and [seed + t * 101] is computed on integers:
    this is the number of the code as long as it stays below 2^53 in absolute
    value, where the addition of binary64 is exact. *)
Definition multiStart (run : Z -> result RunResult) (seed : Z) (nInit : nat)
  : result RunResult :=
  best <- run seed ;;
  foldM (fun best t =>
           trial <- run (seed + Z.of_nat t * 101)%Z ;;
           Ok (if inertia trial <? inertia best then trial else best))
        (seq 1 (nInit - 1)) best.

Record KMeans : Type := mkKMeans {
  km_labels : list nat;
  centroids : list Row;
  km_inertia : num
}.

(** [kmeans(mat, K, maxIter, seed, nInit)]; [mat[0].length] throws on an
    empty matrix. *)
Definition kmeans (mat : Matrix) (K maxIter : nat) (seed : Z) (nInit : nat)
  : result KMeans :=
  match mat with
  | [] => Throw TypeError
  | row0 :: _ =>
      let D := length row0 in
      best <- multiStart (runOnce D K maxIter mat) seed nInit ;;
      Ok (mkKMeans (labels best) (centers best) (inertia best))
  end.

(** *** [silhouetteApprox] *)

(** The body of the loop over the centroids for one row:
    [if (c === own) continue; const d = dist(row, centroids[c]); if (d < b) b = d].
    [own] is [labels[i]], [None] when that read gave [undefined]. *)
Definition nearestOtherStep (D : nat) (cs : list Row) (row : Row) (own : option nat)
           (b : num) (c : nat) : result num :=
  if match own with Some o => Nat.eqb c o | None => false end then Ok b
  else d <- dist D row (nth_error cs c) ;; Ok (if d <? b then d else b).

(** [let b = Infinity; for (c < centroids.length) { ... }] *)
Definition nearestOther (D : nat) (cs : list Row) (row : Row) (own : option nat)
  : result num :=
  foldM (nearestOtherStep D cs row own) (seq 0 (length cs)) Infinity.

(** The body of the loop over the rows: the value [s] added to [sum]. *)
Definition rowScore (D : nat) (cs : list Row) (row : Row) (own : option nat)
  : result num :=
  a <- dist D row (match own with Some o => nth_error cs o | None => None end) ;;
  b <- nearestOther D cs row own ;;
  Ok ((b - a) / Math_max a (b ||| one)).

Definition silhouetteApprox (mat : Matrix) (ls : list nat) (cs : list Row)
  : result num :=
  match mat with
  | [] => Ok zero
  | row0 :: _ =>
      let N := length mat in
      let D := length row0 in
      sum <- foldM (fun sum i =>
                      s <- rowScore D cs (nth i mat []) (nth_error ls i) ;;
                      Ok (sum + s))
                   (seq 0 N) zero ;;
      Ok (sum / ofZ (Z.of_nat N))
  end.

(** *** [suggestElbow] *)

(** The value [d] computed in the loop of [suggestElbow] at index [i],
    from the endpoints [(x1, y1)] and [(x2, y2)]. *)
Definition perpDistance (x1 y1 x2 y2 x0 y0 : num) : num :=
  let dx := x2 - x1 in
  let dy := y2 - y1 in
  let n := Math_abs (dy * x0 - dx * y0 + x2 * y1 - y2 * x1) in
  let den := Math_sqrt (dx * dx + dy * dy) ||| one in
  n / den.

Definition elbowDistance (ks : list Z) (inertia : list num) (i : nat) : num :=
  perpDistance (ofZ (nth 0 ks 0%Z)) (get inertia 0)
               (ofZ (nth (length ks - 1) ks 0%Z)) (get inertia (length inertia - 1))
               (ofZ (nth i ks 0%Z)) (get inertia i).

(** The loop of [suggestElbow]: the pair [(bestK, bestD)], [bestK] being the
    index into [ks] of the candidate held. *)
Definition elbowScan (ks : list Z) (inertia : list num) : nat * num :=
  fold_left (fun (acc : nat * num) i =>
               let d := elbowDistance ks inertia i in
               if d >? snd acc then (i, d) else acc)
            (seq 1 (length ks - 2)) (O, NegInfinity).

(** [suggestElbow(ks, inertia)]; the result is an element of [ks], [None]
    standing for the [undefined] read from an empty [ks]. *)
Definition suggestElbow (ks : list Z) (inertia : list num) : option Z :=
  if negb (Nat.eqb (length ks) (length inertia)) || Nat.ltb (length ks) 3
  then nth_error ks (Nat.div (length ks) 2)
  else nth_error ks (fst (elbowScan ks inertia)).

(** *** K selection in [autoCluster] *)

Inductive SelectionMethod : Type := silhouette | elbow | compromise.

(** [silhouette.reduce((bi, v, i, arr) => (v > arr[bi] ? i : bi), 0)] *)
Definition argmaxSilhouette (sil : list num) : nat :=
  fold_left (fun bi i => if get sil i >? get sil bi then i else bi)
            (seq 0 (length sil)) O.

(** [ks.indexOf(k)] *)
Fixpoint indexOf (ks : list Z) (k : Z) : option nat :=
  match ks with
  | [] => None
  | x :: ks' => if Z.eqb x k then Some O
                else match indexOf ks' k with Some i => Some (S i) | None => None end
  end.

(** [silhouette[ks.indexOf(k)]], read as a number. *)
Definition silhouetteAt (ks : list Z) (sil : list num) (k : Z) : num :=
  match indexOf ks k with
  | Some i => get sil i
  | None => NaN
  end.

(** The branch for the compromise method, on defined K values. *)
Definition compromiseK (ks : list Z) (sil : list num) (silMinGap : num)
           (suggestedK bestBySil : Z) : Z :=
  let silEl := silhouetteAt ks sil suggestedK in
  let silBest := silhouetteAt ks sil bestBySil in
  if (Z.abs (suggestedK - bestBySil) <=? 1)%Z then Z.min suggestedK bestBySil
  else if silBest - silEl >=? silMinGap then bestBySil else suggestedK.

Record Selection : Type := mkSelection {
  suggestedK : option Z;
  bestBySil : option Z;
  finalK : option Z
}.

(** Lines 287-303 of [autoCluster]: from the sweep arrays to
    [suggestedK], [bestBySil] and [finalK]. A K value is [None] when the
    read from [ks] gave [undefined] (with the nine-element [ks] that
    [autoCluster] builds this never happens); arithmetic on [undefined]
    gives NaN, which fails both comparisons of the compromise branch. *)
Definition selectK (selectionMethod : SelectionMethod) (silMinGap : num)
           (ks : list Z) (inertias sil : list num) : Selection :=
  let sK := suggestElbow ks inertias in
  let bK := nth_error ks (argmaxSilhouette sil) in
  let fK :=
    match selectionMethod with
    | silhouette => bK
    | elbow => sK
    | compromise =>
        match sK, bK with
        | Some s, Some b => Some (compromiseK ks sil silMinGap s b)
        | _, _ => sK
        end
    end in
  mkSelection sK bK fK.

(** The sweep loop of [autoCluster] (K from 2 to 10, [maxIter = 30], the
    default [nInit = 10]): the arrays [ks], [inertia] and [silhouette]. *)
Definition sweep (input : Matrix) (seed : Z) : result (list Z * list num * list num) :=
  foldM (fun (acc : list Z * list num * list num) (kk : Z) =>
           let '(ks, inertias, sil) := acc in
           res <- kmeans input (Z.to_nat kk) 30 seed 10 ;;
           v <- silhouetteApprox input (km_labels res) (centroids res) ;;
           Ok (ks ++ [kk], inertias ++ [km_inertia res], sil ++ [v]))
        [2; 3; 4; 5; 6; 7; 8; 9; 10]%Z ([], [], []).

(** *** [rankCategories] and [recommendForMember] *)

Record Ranked : Type := mkRanked {
  cat : option string;     (* [CATEGORY_NAMES[i]], [undefined] past the tenth *)
  s : num
}.

(** [Array.prototype.sort] with the comparator [(a, b) => b.s - a.s]:
    a stable sort; [x] stays before [y] unless the comparator is positive.
    On scores without NaN the comparator is consistent and every stable sort
    returns this array; when the comparator returns NaN the language leaves
    the order to the engine, which may order the array differently. *)
Definition comparator (a b : Ranked) : num := s b - s a.

Fixpoint insert (x : Ranked) (l : list Ranked) : list Ranked :=
  match l with
  | [] => [x]
  | y :: l' => if comparator x y >? zero then y :: insert x l' else x :: l
  end.

Definition sort (l : list Ranked) : list Ranked := fold_right insert [] l.

Definition rankCategories (scores : Row) : list Ranked :=
  sort (map (fun i => mkRanked (nth_error CATEGORY_NAMES i) (get scores i))
            (seq 0 (length scores))).

(** [xs.slice(0, k)] *)
Definition slice0 {T : Type} (k : Z) (xs : list T) : list T :=
  if (k <? 0)%Z then firstn (length xs - Z.to_nat (- k)) xs
  else firstn (Z.to_nat k) xs.

Definition recommendForMember (mat : Matrix) (memberIndex topK : Z) (minThreshold : num)
  : result (list (option string * num)) :=
  match mat with
  | [] => Throw (Error "Matrix is empty")
  | row0 :: _ =>
      if negb (Nat.eqb (length row0) 10) then Throw (Error "Expected 10 columns")
      else if (memberIndex <? 0)%Z || (memberIndex >=? Z.of_nat (length mat))%Z
      then Throw (Error "memberIndex out of range")
      else
        let scores := nth (Z.to_nat memberIndex) mat [] in
        let ranked := rankCategories scores in
        let filtered := filter (fun r => s r >=? minThreshold) ranked in
        let chosen := slice0 topK (match filtered with [] => ranked | _ => filtered end) in
        Ok (map (fun r => (cat r, s r)) chosen)
  end.

(** The shape check of [loadCsv] on the parsed matrix. *)
Definition loadCsvCheck (matrix : Matrix) : result unit :=
  match matrix with
  | [] => Throw (Error "CSV must be N×10 (no header).")
  | row0 :: _ =>
      if negb (Nat.eqb (length row0) 10) then Throw (Error "CSV must be N×10 (no header).")
      else Ok tt
  end.

End Program.


(** The order facts about [<] and [<=] that the scans of the program rely
    on. They hold of binary64 with its NaN ([F64_order] below). *)
Class OrderLaws (A : Arith) : Prop := {
  lt_irrefl : forall x : num, lt x x = false;
  lt_trans : forall x y z : num, lt x y = true -> lt y z = true -> lt x z = true;
  le_lt_trans : forall x y z : num, le x y = true -> lt y z = true -> lt x z = true;
  lt_le_trans : forall x y z : num, lt x y = true -> le y z = true -> lt x z = true;
  lt_not_le : forall x y : num, lt x y = true -> le y x = false;
  lt_Infinity : forall x y : num, lt y x = true -> lt y Infinity = true
}.

(** * Specification

    The definitions in which the properties of the program are stated. *)

(** ** Keeping the best of a sequence

    The shape of every selection loop of the program: hold a value, and
    replace it by the next candidate [f i] when the candidate is strictly
    better ([R]); [Q] is the matching non-strict relation. *)

Definition pick {T I : Type} (R : T -> T -> bool) (f : I -> T) (best : T) (i : I) : T :=
  if R (f i) best then f i else best.

(** What such a loop holds at its end: the initial value, no candidate being
    better than it, or the first of the best candidates. *)
Inductive Picked {T I : Type} (R Q : T -> T -> bool) (f : I -> T)
          (l : list I) (init r : T) : Prop :=
| Kept :
    r = init ->
    (forall j, In j l -> R (f j) init = false) ->
    Picked R Q f l init r
| Taken (l1 : list I) (i : I) (l2 : list I) :
    l = l1 ++ i :: l2 ->
    r = f i ->
    R (f i) init = true ->
    Q init (f i) = false ->
    (forall j, In j l1 -> Q (f j) (f i) = false) ->
    (forall j, In j l -> R (f j) (f i) = false) ->
    Picked R Q f l init r.

Section Specification.

Context {A : Arith}.

(** *** Runs compared by inertia *)

Definition lowerInertia (r1 r2 : RunResult) : bool := lt (inertia r1) (inertia r2).
Definition notHigherInertia (r1 r2 : RunResult) : bool := le (inertia r1) (inertia r2).

(** *** The loop of a run *)

(** How a loop state with [it >= 1] was produced: by an assignment pass on
    the previous centres followed by an update from the new labels; from the
    second iteration on the previous centres came out of an update from the
    previous labels. *)
Definition Produced (D K : nat) (rows : Matrix) (st : LoopState) : Prop :=
  exists lsP csP,
    length lsP = length rows /\
    assign D K csP rows lsP = Ok (st_labels st, st_changed st) /\
    update D K rows (st_labels st) csP = Ok (st_centers st) /\
    (2 <= st_it st -> exists cs0, update D K rows lsP cs0 = Ok csP).

(** Candidates of [nearest], as pairs (centre, squared distance), compared
    by distance. *)
Definition closerThan (p q : nat * num) : bool := lt (snd p) (snd q).
Definition notFartherThan (p q : nat * num) : bool := le (snd p) (snd q).

(** *** Silhouette *)

(** The Euclidean distance between a row and a centroid over the first
    [D] columns. *)
Definition euclid (D : nat) (a b : Row) : num := Math_sqrt (sumsq D a b).

(** The least distance from [row] to a centroid other than [own], as a
    running minimum from [Infinity]. *)
Definition otherDistance (D : nat) (cs : list Row) (row : Row) (own : nat) : num :=
  fold_left (pick lt (fun c => euclid D row (nth c cs [])))
            (filter (fun c => negb (Nat.eqb c own)) (seq 0 (length cs))) Infinity.

(** The score of one row, from its two distances: the floor [one] replaces
    [b] only when [b] is 0 (or NaN). *)
Definition score (a b : num) : num :=
  div (sub b a) (Math_max a (if truthy b then b else one)).

(** The per-row score computed for row [i]. *)
Definition scoreOfRow (mat : Matrix) (ls : list nat) (cs : list Row) (i : nat) : num :=
  let D := length (hd [] mat) in
  let row := nth i mat [] in
  let own := nth i ls O in
  score (euclid D row (nth own cs [])) (otherDistance D cs row own).

(** [b] is the least distance from [row] to a centroid other than [own]:
    no other centroid is strictly nearer, and [b] is the distance to one of
    them, or [Infinity] when no candidate was below it. *)
Definition leastOtherDistance (D : nat) (cs : list Row) (row : Row) (own : nat) (b : num)
  : Prop :=
  (forall c, c < length cs -> c <> own -> lt (euclid D row (nth c cs [])) b = false)
  /\ (b = Infinity \/ exists c, c < length cs /\ c <> own /\ b = euclid D row (nth c cs [])).

(** The formula of the claim C1: the per-row score [(b - a) / max(a, b, eps)]
    with [eps = 1], averaged over the rows. *)
Definition claimedScore (a b : num) : num :=
  div (sub b a) (Math_max (Math_max a b) one).

Definition claimedSilhouette (mat : Matrix) (ls : list nat) (cs : list Row) : num :=
  let D := length (hd [] mat) in
  div (fold_left add
         (map (fun i =>
                 let row := nth i mat [] in
                 let own := nth i ls O in
                 claimedScore (euclid D row (nth own cs [])) (otherDistance D cs row own))
              (seq 0 (length mat)))
         zero)
      (ofZ (Z.of_nat (length mat))).

(** *** Elbow *)

(** Candidates of [suggestElbow], as pairs (index, distance), compared by
    distance. *)
Definition fartherThan (p q : nat * num) : bool := lt (snd q) (snd p).
Definition notNearerThan (p q : nat * num) : bool := le (snd q) (snd p).

(** *** Ranking *)

(** The entries that [rankCategories] sorts: category [i] with score [i]. *)
Definition categoryScores (scores : Row) : list Ranked :=
  map (fun i => mkRanked (nth_error CATEGORY_NAMES i) (get scores i))
      (seq 0 (length scores)).

End Specification.

(** *** The order of binary64 *)

Module Float64Key.

(** A key whose lexicographic order is the order of the non-NaN values. *)
Definition key (f : spec_float) : option (Z * Z * Z) :=
  match f with
  | S754_nan => None
  | S754_zero _ => Some (0, 0, 0)%Z
  | S754_infinity s => Some (if s then (-2) else 2, 0, 0)%Z
  | S754_finite s m e => Some (if s then (-1, - e, Z.neg m) else (1, e, Z.pos m))%Z
  end.

Definition lexcmp (a b : Z * Z * Z) : comparison :=
  let '(c1, e1, m1) := a in
  let '(c2, e2, m2) := b in
  match (c1 ?= c2)%Z with
  | Eq => match (e1 ?= e2)%Z with Eq => (m1 ?= m2)%Z | r => r end
  | r => r
  end.

Definition lexlt (a b : Z * Z * Z) : Prop :=
  let '(c1, e1, m1) := a in
  let '(c2, e2, m2) := b in
  (c1 < c2 \/ (c1 = c2 /\ (e1 < e2 \/ (e1 = e2 /\ m1 < m2))))%Z.

Definition lexle (a b : Z * Z * Z) : Prop :=
  let '(c1, e1, m1) := a in
  let '(c2, e2, m2) := b in
  (c1 < c2 \/ (c1 = c2 /\ (e1 < e2 \/ (e1 = e2 /\ m1 <= m2))))%Z.

End Float64Key.

(** ** Concrete inputs (binary64) *)

Module Examples.

Local Open Scope float_scope.

(** One row at 0, its own centroid at 0.5, the other centroid at 0.25. *)
Definition oneRow : Matrix (A:=F64) := [[0]].
Definition twoCentroids : list (Row (A:=F64)) := [[0.5]; [0.25]].

(** Two rows at 0 and one at 6. *)
Definition m3 : Matrix (A:=F64) := [[0]; [0]; [6]].

(** Eight rows at 0 and one at 9. *)
Definition m9 : Matrix (A:=F64) := [[0]; [0]; [9]; [0]; [0]; [0]; [0]; [0]; [0]].

(** A 10-column first row followed by a 1-column row. *)
Definition ragged : Matrix (A:=F64) := [[1; 2; 3; 4; 5; 6; 7; 8; 9; 10]; [1]].

(** What [parseCSV] makes of a file that starts with a header line of ten
    names ([Number("Health")] is NaN), followed by nine numeric rows. *)
Definition withHeader : Matrix (A:=F64) :=
  repeat nan 10
  :: map (fun i => map (fun j => if Nat.eqb i j then 1 else 0) (seq 0 10)) (seq 0 9).

Definition ks9 : list Z := [2; 3; 4; 5; 6; 7; 8; 9; 10]%Z.
Definition inertia9 : list float := [100; 50; 20; 15; 12; 10; 9; 8; 7].
Definition silhouette9 : list float := [0.125; 0.25; 0.375; 0.5; 0.25; 0.25; 0.25; 0.25; 0.25].

(** One member with ten category scores. *)
Definition member : Matrix (A:=F64) :=
  [[0.5; 0.25; 0.75; 0.125; 0.375; 0.625; 0.875; 0.0625; 0.1875; 0.3125]].

End Examples.

(** * Further functions of [App.tsx]

    [parseCSV], [hashMatrixForSeed], [nameSegments], [summaryStats] and the
    whole of [autoCluster], on the same interface of numbers. *)

(** ** [parseCSV] *)

(** A JavaScript string, as the sequence of its UTF-16 code units. *)
Definition jsstring : Type := list N.

(** The code units that [String.prototype.trim] removes: WhiteSpace and
    LineTerminator. *)
Definition isWhiteSpace (c : N) : bool :=
  (  (9 <=? c) && (c <=? 13)            (* TAB, LF, VT, FF, CR *)
  || (c =? 32) || (c =? 160)            (* SP, NBSP *)
  || (c =? 5760)                        (* U+1680 *)
  || (8192 <=? c) && (c <=? 8202)       (* U+2000 .. U+200A *)
  || (c =? 8232) || (c =? 8233)         (* LS, PS *)
  || (c =? 8239) || (c =? 8287)         (* U+202F, U+205F *)
  || (c =? 12288) || (c =? 65279))%N.   (* U+3000, U+FEFF *)

Fixpoint trimStart (s : jsstring) : jsstring :=
  match s with
  | c :: s' => if isWhiteSpace c then trimStart s' else s
  | [] => []
  end.

Definition trimEnd (s : jsstring) : jsstring := rev (trimStart (rev s)).

(** [s.trim()] *)
Definition trim (s : jsstring) : jsstring := trimEnd (trimStart s).

Definition LF : N := 10.
Definition CR : N := 13.
Definition COMMA : N := 44.

(** [s.split(/\r?\n/)]: the pieces between the matches, a match being a
    line feed together with the carriage return just before it, if any.
    There is always at least one piece. *)
Fixpoint splitLines (s : jsstring) : list jsstring :=
  match s with
  | [] => [[]]
  | c :: s' =>
      let r := splitLines s' in
      if (c =? LF)%N then [] :: r
      else if (c =? CR)%N && match s' with c' :: _ => (c' =? LF)%N | [] => false end then r
      else match r with
           | piece :: r' => (c :: piece) :: r'
           | [] => [[c]]
           end
  end.

(** [s.split(',')] *)
Fixpoint splitCommas (s : jsstring) : list jsstring :=
  match s with
  | [] => [[]]
  | c :: s' =>
      let r := splitCommas s' in
      if (c =? COMMA)%N then [] :: r
      else match r with
           | piece :: r' => (c :: piece) :: r'
           | [] => [[c]]
           end
  end.

Section ParseCSV.

Context {A : Arith}.

(** The conversion [Number(v)] of a string to a number is a built-in of the
    language; [parseCSV] is embedded for any such conversion. *)
Variable Number : jsstring -> num.

Definition parseCSV (text : jsstring) : Matrix :=
  map (fun line => map Number (splitCommas line)) (splitLines (trim text)).

End ParseCSV.

(** ** More built-ins of numbers *)

Class MathOps (A : Arith) : Type := {
  Math_floor : num -> num;
  Math_round : num -> num;
  (** The integer that the 32-bit conversions ToInt32 and ToUint32 start
      from: the number truncated towards zero, 0 for NaN and the infinities. *)
  truncate : num -> Z;
  (** [x ** 2] *)
  square : num -> num;
  (** A number used as an array index [xs[x]]: [Some i] when it is the
      non-negative integer [i], [None] (the read gives [undefined]) otherwise. *)
  toIndex : num -> option nat
}.

Module Float64Math.

(** The finite, non-zero [x] is [v * 2^e] with [v] a signed integer. *)
Definition scaled (s : bool) (m : positive) : Z := if s then Z.neg m else Z.pos m.

(** [Math.floor] *)
Definition floor (x : float) : float :=
  match Prim2SF x with
  | S754_finite s m e =>
      if (0 <=? e)%Z then x
      else let n := (scaled s m / 2 ^ (- e))%Z in
           if (n =? 0)%Z then PrimFloat.zero else Float64.ofZ n
  | _ => x
  end.

(** [Math.round]: the nearest integer, a tie going to the one towards
    [+Infinity]; a result 0 has the sign of [x]. *)
Definition round (x : float) : float :=
  match Prim2SF x with
  | S754_finite s m e =>
      if (0 <=? e)%Z then x
      else let n := ((2 * scaled s m + 2 ^ (- e)) / 2 ^ (- e + 1))%Z in
           if (n =? 0)%Z then (if s then PrimFloat.neg_zero else PrimFloat.zero)
           else Float64.ofZ n
  | _ => x
  end.

Definition truncate (x : float) : Z :=
  match Prim2SF x with
  | S754_finite s m e =>
      let a := if (0 <=? e)%Z then (Z.pos m * 2 ^ e)%Z else (Z.pos m / 2 ^ (- e))%Z in
      if s then (- a)%Z else a
  | _ => 0%Z
  end.

Definition toIndex (x : float) : option nat :=
  match Prim2SF x with
  | S754_zero _ => Some O
  | S754_finite false m e =>
      if (0 <=? e)%Z then Some (Z.to_nat (Z.pos m * 2 ^ e))
      else if (Z.pos m mod 2 ^ (- e) =? 0)%Z then Some (Z.to_nat (Z.pos m / 2 ^ (- e)))
      else None
  | _ => None
  end.

End Float64Math.

#[export] Instance F64_math : MathOps F64 :=
  Build_MathOps F64 Float64Math.floor Float64Math.round Float64Math.truncate
                (fun x => PrimFloat.mul x x) Float64Math.toIndex.

(** ** [hashMatrixForSeed] *)

(** [a & b] *)
Definition band (a b : Z) : Z := ToInt32 (Z.land (ToInt32 a) (ToInt32 b)).

Section Hash.

Context {A : Arith} {M : MathOps A}.
Local Open Scope num_scope.

(** The body of the inner loop of [hashMatrixForSeed] for the cell [x]:
    three rounds of xor and multiply over the low three bytes of
    [v = Math.round(x * 1000)]. *)
Definition hashCell (h : Z) (x : num) : Z :=
  let v := truncate (Math_round (x * ofZ 1000)) in
  let h := bxor h (band v 255) in
  let h := Math_imul h 16777619 in
  let h := bxor h (band (ushr v 8) 255) in
  let h := Math_imul h 16777619 in
  let h := bxor h (band (ushr v 16) 255) in
  Math_imul h 16777619.

(** [Math.max(1, Math.floor(N / 128))] *)
Definition sampleStep (N : nat) : nat := Nat.max 1 (N / 128)%nat.

(** The values taken by [i] in [for (let i = 0; i < N; i += step)]. *)
Definition sampledRows (N step : nat) : list nat :=
  map (fun k => (k * step)%nat) (seq 0 ((N + step - 1) / step)%nat).

Definition hashMatrixForSeed (mat : Matrix) : Z :=
  let N := length mat in
  let step := sampleStep N in
  let h := fold_left (fun h i => fold_left hashCell (nth i mat []) h)
                     (sampledRows N step) (ushr 2166136261 0) in
  band (ushr h 0) 2147483647.

End Hash.

(** ** [Array.prototype.sort] *)

Section Sorting.

Context {A : Arith}.
Local Open Scope num_scope.

(** [Array.prototype.sort(cmp)] on defined elements: a stable sort; [x]
    stays before [y] unless [cmp(x, y)] is positive. For a comparator that
    never returns NaN every stable sort returns this array; when it returns
    NaN the language leaves the order to the engine, which may order the
    array differently. *)
Fixpoint insertBy {T : Type} (cmp : T -> T -> num) (x : T) (l : list T) : list T :=
  match l with
  | [] => [x]
  | y :: l' => if cmp x y >? zero then y :: insertBy cmp x l' else x :: l
  end.

Definition sortBy {T : Type} (cmp : T -> T -> num) (l : list T) : list T :=
  fold_right (insertBy cmp) [] l.

End Sorting.

(** ** [nameSegments] *)

(** [SEGMENT_NAME_DICT] *)
Definition SEGMENT_NAME_DICT : list (string * string) :=
  [ ("Transportation", "Commuters");
    ("Health", "Wellness Focus");
    ("LuxuryGoods", "Luxury‑leaning");
    ("Service", "Service Seekers");
    ("Telecommunications", "Connected Core");
    ("Groceries", "Essentialists");
    ("Clothing", "Style Savvy");
    ("Food&Beverage", "Foodies");
    ("PublicUtilities", "Utility Focus");
    ("Others", "Misc Explorers") ]%string.

(** [dict[key]] on the own properties of [dict]. *)
Fixpoint lookup (key : string) (dict : list (string * string)) : option string :=
  match dict with
  | [] => None
  | (k, v) :: dict' => if String.eqb k key then Some v else lookup key dict'
  end.

(** A value that may be [undefined], as a property key or inside a template
    literal. *)
Definition toString (v : option string) : string :=
  match v with
  | Some s => s
  | None => "undefined"
  end.

(** [SEGMENT_NAME_DICT[top1] || `${top1} & ${top2}`]; an empty string is
    falsy. *)
Definition segmentName (top1 top2 : option string) : string :=
  match lookup (toString top1) SEGMENT_NAME_DICT with
  | Some name => if String.eqb name "" then toString top1 ++ " & " ++ toString top2 else name
  | None => toString top1 ++ " & " ++ toString top2
  end.

Section NameSegments.

Context {A : Arith}.
Local Open Scope num_scope.

(** [c.map((v, j) => ({ j, v })).sort((a, b) => b.v - a.v)] *)
Definition byValue (c : Row) : list (nat * num) :=
  sortBy (fun a b => snd b - snd a) (map (fun j => (j, get c j)) (seq 0 (length c))).

(** The callback of [nameSegments] for one centroid; [idx[0].j] throws on
    an empty centroid, and [idx[1]?.j ?? idx[0].j] falls back to the first
    index when there is no second. *)
Definition nameSegment (c : Row) : result string :=
  match byValue c with
  | [] => Throw TypeError
  | e0 :: rest =>
      let top1 := nth_error CATEGORY_NAMES (fst e0) in
      let top2 := nth_error CATEGORY_NAMES
                            (match rest with e1 :: _ => fst e1 | [] => fst e0 end) in
      Ok (segmentName top1 top2)
  end.

Definition nameSegments (centroids : list Row) : result (list string) :=
  foldM (fun names c => name <- nameSegment c ;; Ok (names ++ [name])) centroids [].

End NameSegments.

(** ** [autoCluster] *)

Module App.

Section State.

Context {A : Arith}.

(** The value of the state variable [elbow]. *)
Record Elbow : Type := mkElbow {
  ks : list Z;
  inertia : list num;
  silhouette : list num;
  suggestedK : option Z;
  bestBySil : option Z;
  finalK : option Z
}.

(** The state variables of the component [App] that [autoCluster] reads
    and sets; [None] is [null]. *)
Record State : Type := mkState {
  computing : bool;
  elbow : option Elbow;
  clusterLabels : option (list nat);
  centroids : option (list Row);
  segmentNames : option (list string);
  selectedCluster : nat
}.

Definition setComputing (b : bool) (st : State) : State :=
  mkState b (elbow st) (clusterLabels st) (centroids st) (segmentNames st)
          (selectedCluster st).

Definition setElbow (e : Elbow) (st : State) : State :=
  mkState (computing st) (Some e) (clusterLabels st) (centroids st) (segmentNames st)
          (selectedCluster st).

Definition setClusterLabels (ls : list nat) (st : State) : State :=
  mkState (computing st) (elbow st) (Some ls) (centroids st) (segmentNames st)
          (selectedCluster st).

Definition setCentroids (cs : list Row) (st : State) : State :=
  mkState (computing st) (elbow st) (clusterLabels st) (Some cs) (segmentNames st)
          (selectedCluster st).

Definition setSegmentNames (names : list string) (st : State) : State :=
  mkState (computing st) (elbow st) (clusterLabels st) (centroids st) (Some names)
          (selectedCluster st).

Definition setSelectedCluster (c : nat) (st : State) : State :=
  mkState (computing st) (elbow st) (clusterLabels st) (centroids st) (segmentNames st) c.

(** [autoCluster(input, seed)] in a component whose state is [st], with the
    state variables [selectionMethod] and [silMinGap]: the state after the
    call and the exception, if any, with which the returned promise is
    rejected. The setters take effect in the order of the calls; the
    [finally] block runs whether or not the [try] block throws.

    [finalK] is an element of the nine-element [ks] of the sweep
    and is never [undefined] here; the branch for [undefined] stands for
    [kmeans(input, undefined, 30, seed)]. *)
Definition autoCluster (selectionMethod : SelectionMethod) (silMinGap : num)
           (st : State) (input : Matrix) (seed : Z) : State * option exn :=
  if computing st then (st, None)
  else
    let st := setComputing true st in
    match sweep input seed with
    | Throw e => (st, Some e)
    | Ok (ks, inertias, sil) =>
        let '(mkSelection sK bK fK) := selectK selectionMethod silMinGap ks inertias sil in
        let st := setElbow (mkElbow ks inertias sil sK bK fK) st in
        match match fK with
              | Some k => kmeans input (Z.to_nat k) 30 seed 10
              | None => Throw TypeError
              end with
        | Throw e => (setComputing false st, Some e)
        | Ok (mkKMeans ls cs _) =>
            let st := setCentroids cs (setClusterLabels ls st) in
            match nameSegments cs with
            | Throw e => (setComputing false st, Some e)
            | Ok names =>
                (setComputing false (setSelectedCluster 0 (setSegmentNames names st)), None)
            end
        end
    end.

End State.

End App.

(** ** [summaryStats] *)

Module Stats.

Section SummaryStats.

Context {A : Arith} {M : MathOps A}.
Local Open Scope num_scope.

(** An array element that may be [undefined] ([None]), and its value in
    arithmetic. *)
Definition toNumber (v : option num) : num :=
  match v with
  | Some x => x
  | None => NaN
  end.

Definition defined (l : list (option num)) : list num :=
  flat_map (fun v => match v with Some x => [x] | None => [] end) l.

Definition undefineds (l : list (option num)) : list (option num) :=
  filter (fun v => match v with Some _ => false | None => true end) l.

(** [cols[j]]: [mat.map((r) => r[j]).sort((a, b) => a - b)]. [sort] moves
    the [undefined] elements (read from rows shorter than [j + 1]) to the
    end without comparing them. *)
Definition column (mat : Matrix) (j : nat) : list (option num) :=
  let values := map (fun r => nth_error r j) mat in
  map Some (sortBy (fun a b => a - b) (defined values)) ++ undefineds values.

(** [c.reduce((a, b) => a + b, 0) / n] *)
Definition meanOf (n : nat) (c : list (option num)) : num :=
  fold_left (fun a b => a + toNumber b) c zero / ofZ (Z.of_nat n).

(** [Math.sqrt(c.reduce((a, b) => a + (b - mean[i]) ** 2, 0) / n)] *)
Definition stdOf (n : nat) (mu : num) (c : list (option num)) : num :=
  Math_sqrt (fold_left (fun a b => a + square (toNumber b - mu)) c zero / ofZ (Z.of_nat n)).

(** [xs[i]] where the elements of [xs] may themselves be [undefined] *)
Definition element (xs : list (option num)) (i : nat) : option num :=
  match nth_error xs i with
  | Some v => v
  | None => None
  end.

(** [c[x]] for a number [x] *)
Definition at_ (c : list (option num)) (x : num) : option num :=
  match toIndex x with
  | Some i => element c i
  | None => None
  end.

(** The local function [p(c, q)] *)
Definition p (c : list (option num)) (q : num) : option num :=
  let len := ofZ (Z.of_nat (length c)) in
  let k := (len - one) * q in
  let f := Math_floor k in
  let d := k - f in
  if f + one <? len
  then Some (toNumber (at_ c f) * (one - d) + toNumber (at_ c (f + one)) * d)
  else at_ c f.

(** An element of [summary]; [None] is [undefined]. *)
Record SummaryRow : Type := mkSummaryRow {
  category : option string;
  mean : option num;
  std : option num;
  p50 : option num;
  p90 : option num
}.

(** The three sums of the innermost loop, for the columns [a] and [b] with
    means [ma] and [mb]. *)
Definition corrSums (n : nat) (a b : list (option num)) (ma mb : num) : num * num * num :=
  fold_left (fun (acc : num * num * num) k =>
               let '(num_, da, db) := acc in
               let xa := toNumber (nth k a None) - ma in
               let xb := toNumber (nth k b None) - mb in
               (num_ + xa * xb, da + xa * xa, db + xb * xb))
            (seq 0 n) (zero, zero, zero).

(** [num / Math.sqrt(da * db || 1)] *)
Definition corr (n : nat) (a b : list (option num)) (ma mb : num) : num :=
  let '(num_, da, db) := corrSums n a b ma mb in
  num_ / Math_sqrt ((da * db) ||| one).

(** [xs[i][j] = v] inside the matrix [xs] *)
Definition set2 (i j : nat) (v : num) (xs : list (list num)) : list (list num) :=
  set_nth i (set_nth j v (nth i xs [])) xs.

(** The pairs [(i, j)] with [i < j < m], in the order of the two nested
    loops. *)
Definition pairs (m : nat) : list (nat * nat) :=
  flat_map (fun i => map (fun j => (i, j)) (seq (S i) (m - S i))) (seq 0 m).

Record SummaryStats : Type := mkSummaryStats {
  summary : list SummaryRow;
  topCorr : list (option string * option string * num);
  corrMatrix : list (list num);
  means : list num;
  stds : list num
}.

(** [summaryStats(mat)]; [mat[0].length] throws on an empty matrix. The
    literals [0.5] and [0.9] are the quotients 5/10 and 9/10 (correctly
    rounded, in binary64). *)
Definition summaryStats (mat : Matrix) : result SummaryStats :=
  match mat with
  | [] => Throw TypeError
  | row0 :: _ =>
      let n := length mat in
      let m := length row0 in
      let cols := map (column mat) (seq 0 m) in
      let mean := map (meanOf n) cols in
      let std := map (fun ic : nat * list (option num) => stdOf n (get mean (fst ic)) (snd ic))
                     (combine (seq 0 m) cols) in
      let p50 := map (fun c => p c (ofZ 5 / ofZ 10)) cols in
      let p90 := map (fun c => p c (ofZ 9 / ofZ 10)) cols in
      let order := map fst (byValue mean) in
      let summary :=
        map (fun i => mkSummaryRow (nth_error CATEGORY_NAMES i) (nth_error mean i)
                                   (nth_error std i) (element p50 i) (element p90 i))
            order in
      let '(corrMatrix, topCorr) :=
        fold_left
          (fun (acc : list (list num) * list (option string * option string * num))
               (ij : nat * nat) =>
             let '(cm, tc) := acc in
             let '(i, j) := ij in
             let r := corr n (nth i cols []) (nth j cols []) (get mean i) (get mean j) in
             (set2 j i r (set2 i j r cm),
              tc ++ [(nth_error CATEGORY_NAMES i, nth_error CATEGORY_NAMES j, r)]))
          (pairs m) (repeat (repeat zero m) m, []) in
      let topCorr := sortBy (fun x y => snd y - snd x) topCorr in
      let corrMatrix := fold_left (fun cm d => set2 d d one cm) (seq 0 m) corrMatrix in
      Ok (mkSummaryStats summary (firstn 5 topCorr) corrMatrix mean std)
  end.

End SummaryStats.

End Stats.

(** ** Specification of the further functions *)

(** What the comparators of the program need of the numbers they compare
    for [sort] to order them: the sign of a difference is the order of its
    operands, and a number (as opposed to NaN, the only value that is not
    [<=] itself) lies on one side of any strictly ordered pair. *)
Class SortLaws (A : Arith) : Prop := {
  sub_pos : forall x y : num, lt zero (sub y x) = lt x y;
  lt_cotrans : forall x y z : num,
      le y y = true -> lt x z = true -> lt x y = true \/ lt y z = true
}.

(** [a] may stand before [b] in a sorted array: it need not go after [b],
    and if neither need go after the other then [a] came earlier in the
    input. *)
Definition inOrder (T : Type) (after : T -> T -> bool) (earlier : T -> T -> Prop)
           (a b : T) : Prop :=
  after a b = false /\ (after b a = false -> earlier a b).

Section MoreSpecification.

Context {A : Arith}.

(** *** The update step of [kmeans] *)

(** A centre is a copy of a row of the matrix (from the initialisation) or
    has [D] columns (from an update). *)
Definition rowOrWidth (D : nat) (mat : Matrix) (c : Row) : Prop :=
  In c mat \/ length c = D.

(** The rows that carry the label [c], in row order. *)
Definition members (c : nat) (rows : Matrix) (ls : list nat) : Matrix :=
  map snd (filter (fun p => Nat.eqb (fst p) c) (combine ls rows)).

(** The sum of column [d] over [rs], accumulated in order from [s0]. *)
Definition columnSum (d : nat) (rs : Matrix) (s0 : num) : num :=
  fold_left (fun s r => add s (get r d)) rs s0.

(** The component-wise mean of [rs] over the first [D] columns. *)
Definition meanRow (D : nat) (rs : Matrix) : Row :=
  map (fun d => div (columnSum d rs zero) (ofZ (Z.of_nat (length rs)))) (seq 0 D).

(** *** The sweep of [autoCluster] *)

(** The body of the sweep loop of [autoCluster]. *)
Definition sweepStep (input : Matrix) (seed : Z) (acc : list Z * list num * list num) (kk : Z)
  : result (list Z * list num * list num) :=
  let '(ks, inertias, sil) := acc in
  res <- kmeans input (Z.to_nat kk) 30 seed 10 ;;
  v <- silhouetteApprox input (km_labels res) (centroids res) ;;
  Ok (ks ++ [kk], inertias ++ [km_inertia res], sil ++ [v]).

(** Indices into the silhouette array, compared by the value they hold. *)
Definition higherSilhouette (sil : list num) (i j : nat) : bool := lt (get sil j) (get sil i).
Definition notLowerSilhouette (sil : list num) (i j : nat) : bool := le (get sil j) (get sil i).

(** *** Sorted rows *)

(** Indices of a row in descending order of the value they hold, equal
    values in ascending order of index. *)
Definition descending (c : Row) (i j : nat) : Prop :=
  lt (get c i) (get c j) = false /\ (lt (get c j) (get c i) = false -> i < j).

(** *** The correlation matrix of [summaryStats] *)

(** [xs[i][j]], read as a number. *)
Definition get2 (xs : list (list num)) (i j : nat) : num := get (nth i xs []) j.

(** An [m] by [m] array. *)
Definition squareShape (m : nat) (xs : list (list num)) : Prop :=
  length xs = m /\ Forall (fun row => length row = m) xs.

(** The body of the two nested loops of [summaryStats], on the pair of
    [corrMatrix] and [topCorr]; [r i j] is the correlation computed for the
    pair. *)
Definition corrStep (r : nat -> nat -> num)
           (acc : list (list num) * list (option string * option string * num))
           (ij : nat * nat) : list (list num) * list (option string * option string * num) :=
  let '(cm, tc) := acc in
  let '(i, j) := ij in
  (Stats.set2 j i (r i j) (Stats.set2 i j (r i j) cm),
   tc ++ [(nth_error CATEGORY_NAMES i, nth_error CATEGORY_NAMES j, r i j)]).

(** The correlation that [summaryStats] computes for the columns [i]
    and [j] of [mat]. *)
Definition corrOf {M : MathOps A} (mat : Matrix) (i j : nat) : num :=
  let n := length mat in
  Stats.corr n (Stats.column mat i) (Stats.column mat j)
             (Stats.meanOf n (Stats.column mat i)) (Stats.meanOf n (Stats.column mat j)).

End MoreSpecification.

(** *** Seeds *)

(** A seed from which [kmeans], on [N] rows and with [nInit] restarts,
    derives only integers below 2^53 in absolute value: the restart seeds
    [seed + t * 101] and, in each run, one state [s += 0x6d2b79f5] of the
    generator per row. There the additions of binary64 are exact, and the
    integers of [multiStart] and [rngMulberry32] are the numbers of the
    code. *)
Definition safeSeed (N nInit : nat) (seed : Z) : Prop :=
  (Z.abs seed + 101 * Z.of_nat nInit + 1831565813 * Z.of_nat N < 2 ^ 53)%Z.

(** Whether the pair [(a, b)] is in [l]. *)
Definition listed (l : list (nat * nat)) (a b : nat) : bool :=
  existsb (fun ij => Nat.eqb (fst ij) a && Nat.eqb (snd ij) b) l.

(** *** CSV texts *)

(** The text before the first line feed. *)
Fixpoint upToLF (s : jsstring) : jsstring :=
  match s with
  | [] => []
  | c :: s' => if (c =? LF)%N then [] else c :: upToLF s'
  end.

(** The number of code units of [s] equal to [c]. *)
Definition occurrences (c : N) (s : jsstring) : nat := count_occ N.eq_dec s c.

(** The pieces joined with [sep] between them. *)
Fixpoint join (sep : jsstring) (pieces : list jsstring) : jsstring :=
  match pieces with
  | [] => []
  | p :: ps => match ps with [] => p | _ :: _ => p ++ sep ++ join sep ps end
  end.

(** A CSV text: the cells of a row joined by commas, the rows joined by the
    end-of-line sequence. *)
Definition render (eol : jsstring) (cells : list (list jsstring)) : jsstring :=
  join eol (map (join [COMMA]) cells).

(** A cell as a program writes a number: not empty, without white space and
    without comma. *)
Definition token (cell : jsstring) : Prop :=
  cell <> [] /\ Forall (fun c => isWhiteSpace c = false /\ c <> COMMA) cell.

(** A line without line feed and carriage return. *)
Definition plain (line : jsstring) : Prop :=
  Forall (fun c => c <> LF /\ c <> CR) line.

(** The code units of an ASCII text. *)
Definition codes (s : string) : jsstring :=
  map Ascii.N_of_ascii (list_ascii_of_string s).

(** *** The value of a finite binary64 *)

(** The finite [(s, m, e)], that is [(-1)^s * m * 2^e], as an integer
    multiple of [2^ez]. *)
Definition scaledTo (ez : Z) (s : bool) (m : positive) (e : Z) : Z :=
  cond_Zopp s (Z.pos m * 2 ^ (e - ez)).

(** *** Bounds on the magnitude of a binary64 *)

(** [|x| <= M * 2^e]: [x] is a zero, or a finite number whose magnitude is
    at most [M * 2^e]. *)
Definition magLe (x : spec_float) (M e : Z) : Prop :=
  match x with
  | S754_zero _ => True
  | S754_finite _ m ex =>
      (Z.pos m * 2 ^ (ex - Z.min ex e) <= M * 2 ^ (e - Z.min ex e))%Z
  | _ => False
  end.

(** A bound [M * 2^e] that binary64 can hold: positive, with at most 53
    bits above the exponent [e], and not above the largest exponent. *)
Definition repBound (M e : Z) : Prop :=
  (0 < M /\ Z.max (Zdigits2 M + e - 53) (-1074) <= e /\ e <= 971)%Z.

(** 1 when rounding has dropped something, 0 when the record is exact. *)
Definition inexact (mrs : shr_record) : Z := Z.b2z (shr_r mrs || shr_s mrs).

(** The same for the location of a quotient or a root. *)
Definition inexactLoc (l : location) : Z :=
  match l with loc_Exact => 0%Z | loc_Inexact _ => 1%Z end.

(** A zero or a positive finite number. *)
Definition finiteNonneg (x : spec_float) : Prop :=
  match x with
  | S754_zero _ => True
  | S754_finite false _ _ => True
  | _ => False
  end.

(** ** Further concrete inputs *)

(** Two one-column rows. *)
Definition twoRows : Matrix (A:=F64) := [[1%float]; [3%float]].

(** 256 one-column rows at 0, and the same with row 1 changed; the sampling
    step for 256 rows is 2. *)
Definition rows256 : Matrix (A:=F64) := repeat [0%float] 256.
Definition rows256' : Matrix (A:=F64) := [0%float] :: [1%float] :: repeat [0%float] 254.

(** The cells of a CSV text of two rows and two columns. *)
Definition cells22 : list (list jsstring) :=
  [[codes "0.5"; codes "1"]; [codes "0.25"; codes "2"]].

(** A stand-in for [Number] that tells cells apart by their length. *)
Definition cellLength (v : jsstring) : float := Float64.ofZ (Z.of_nat (length v)).

(** Nine rows at 0 and one at 9. *)
Definition m10 : Matrix (A:=F64) :=
  [[0%float]; [0%float]; [0%float]; [0%float]; [0%float];
   [0%float]; [0%float]; [0%float]; [0%float]; [9%float]].

(** The state of [App] before any clustering. *)
Definition st0 : App.State (A:=F64) := App.mkState false None None None None 0.

(** A centroid whose largest value is held by two columns. *)
Definition tiedCentroid : list (Row (A:=F64)) := [[0.25%float; 0.75%float; 0.75%float]].

(** Two members with two category scores each. *)
Definition floatPair : Matrix (A:=F64) := [[1%float; 3%float]; [2%float; 1%float]].

(** * Proofs *)

(** ** Order laws of binary64 *)

Module Float64Order.

Import Float64Key.

Lemma SFcompare_key (x y : spec_float) :
  SFcompare x y =
  match key x, key y with
  | Some a, Some b => Some (lexcmp a b)
  | _, _ => None
  end.
Proof.
  destruct x as [sx|sx| |sx mx ex], y as [sy|sy| |sy my ey]; simpl; try reflexivity;
    repeat match goal with s : bool |- _ => destruct s end; simpl; try reflexivity.
  rewrite Z.compare_opp, (Z.compare_antisym ex ey).
  destruct (ex ?= ey)%Z; reflexivity.
Qed.

Lemma lexcmp_lt (a b : Z * Z * Z) : lexcmp a b = Lt <-> lexlt a b.
Proof.
  destruct a as [[c1 e1] m1], b as [[c2 e2] m2]; unfold lexcmp, lexlt.
  destruct (Z.compare_spec c1 c2), (Z.compare_spec e1 e2), (Z.compare_spec m1 m2);
    split; intros; try discriminate; try reflexivity; lia.
Qed.

Lemma lexcmp_le (a b : Z * Z * Z) : (lexcmp a b = Lt \/ lexcmp a b = Eq) <-> lexle a b.
Proof.
  destruct a as [[c1 e1] m1], b as [[c2 e2] m2]; unfold lexcmp, lexle.
  destruct (Z.compare_spec c1 c2), (Z.compare_spec e1 e2), (Z.compare_spec m1 m2);
    split; intros; try (left; reflexivity); try (right; reflexivity);
    try lia; try (destruct H2; discriminate).
Qed.

Lemma ltb_key (x y : float) :
  PrimFloat.ltb x y = true <->
  exists a b, key (Prim2SF x) = Some a /\ key (Prim2SF y) = Some b /\ lexlt a b.
Proof.
  rewrite ltb_spec. unfold SFltb. rewrite SFcompare_key.
  destruct (key (Prim2SF x)) as [a|], (key (Prim2SF y)) as [b|].
  - split.
    + intros H. exists a, b. repeat split. apply lexcmp_lt.
      destruct (lexcmp a b); congruence.
    + intros (a' & b' & Ha & Hb & H). injection Ha as <-. injection Hb as <-.
      apply lexcmp_lt in H. rewrite H. reflexivity.
  - split; [discriminate | intros (a' & b' & _ & Hb & _); discriminate].
  - split; [discriminate | intros (a' & b' & Ha & _); discriminate].
  - split; [discriminate | intros (a' & b' & Ha & _); discriminate].
Qed.

Lemma leb_key (x y : float) :
  PrimFloat.leb x y = true <->
  exists a b, key (Prim2SF x) = Some a /\ key (Prim2SF y) = Some b /\ lexle a b.
Proof.
  rewrite leb_spec. unfold SFleb. rewrite SFcompare_key.
  destruct (key (Prim2SF x)) as [a|], (key (Prim2SF y)) as [b|].
  - split.
    + intros H. exists a, b. repeat split. apply lexcmp_le.
      destruct (lexcmp a b); auto; discriminate.
    + intros (a' & b' & Ha & Hb & H). injection Ha as <-. injection Hb as <-.
      apply lexcmp_le in H. destruct H as [H|H]; rewrite H; reflexivity.
  - split; [discriminate | intros (a' & b' & _ & Hb & _); discriminate].
  - split; [discriminate | intros (a' & b' & Ha & _); discriminate].
  - split; [discriminate | intros (a' & b' & Ha & _); discriminate].
Qed.

Ltac keys :=
  repeat match goal with
    | H : PrimFloat.ltb _ _ = true |- _ =>
        apply ltb_key in H; destruct H as (? & ? & ? & ? & H)
    | H : PrimFloat.leb _ _ = true |- _ =>
        apply leb_key in H; destruct H as (? & ? & ? & ? & H)
    end;
  repeat match goal with
    | H1 : key ?f = Some ?a, H2 : key ?f = Some ?b |- _ =>
        rewrite H1 in H2; injection H2 as <-
    end.

Ltac lex :=
  repeat match goal with a : (Z * Z * Z)%type |- _ => destruct a as [[? ?] ?] end;
  unfold lexlt, lexle in *; lia.

Lemma ltb_irrefl (x : float) : PrimFloat.ltb x x = false.
Proof.
  destruct (PrimFloat.ltb x x) eqn:H; [exfalso | reflexivity]. keys. lex.
Qed.

Lemma ltb_trans (x y z : float) :
  PrimFloat.ltb x y = true -> PrimFloat.ltb y z = true -> PrimFloat.ltb x z = true.
Proof.
  intros H1 H2. keys. apply ltb_key. do 2 eexists. repeat split; eauto. lex.
Qed.

Lemma leb_ltb_trans (x y z : float) :
  PrimFloat.leb x y = true -> PrimFloat.ltb y z = true -> PrimFloat.ltb x z = true.
Proof.
  intros H1 H2. keys. apply ltb_key. do 2 eexists. repeat split; eauto. lex.
Qed.

Lemma ltb_leb_trans (x y z : float) :
  PrimFloat.ltb x y = true -> PrimFloat.leb y z = true -> PrimFloat.ltb x z = true.
Proof.
  intros H1 H2. keys. apply ltb_key. do 2 eexists. repeat split; eauto. lex.
Qed.

Lemma ltb_not_leb (x y : float) :
  PrimFloat.ltb x y = true -> PrimFloat.leb y x = false.
Proof.
  intros H1. destruct (PrimFloat.leb y x) eqn:H2; [exfalso | reflexivity]. keys. lex.
Qed.

Lemma key_le_infinity (f : spec_float) (a : Z * Z * Z) :
  key f = Some a -> lexle a (2, 0, 0)%Z.
Proof.
  destruct f as [s|s| |s m e]; simpl; intros H; try discriminate;
    injection H as <-; destruct s; simpl; lia.
Qed.

Lemma ltb_infinity (x y : float) :
  PrimFloat.ltb y x = true -> PrimFloat.ltb y PrimFloat.infinity = true.
Proof.
  intros H1. keys. apply ltb_key.
  match goal with
  | Hx : key (Prim2SF x) = Some ?a, Hy : key (Prim2SF y) = Some ?b |- _ =>
      exists b, (2, 0, 0)%Z; split; [exact Hy | split; [reflexivity|]];
      apply key_le_infinity in Hx
  end.
  lex.
Qed.

End Float64Order.

#[export] Instance F64_order : OrderLaws F64.
Proof.
  constructor; simpl.
  - exact Float64Order.ltb_irrefl.
  - exact Float64Order.ltb_trans.
  - exact Float64Order.leb_ltb_trans.
  - exact Float64Order.ltb_leb_trans.
  - exact Float64Order.ltb_not_leb.
  - exact Float64Order.ltb_infinity.
Qed.

(** ** Loops that do not throw *)

Lemma foldM_pure {T S U : Type} (g : T -> result U) (f : T -> U) (h : S -> T -> U -> S)
      (l : list T) (s : S) :
  (forall x, In x l -> g x = Ok (f x)) ->
  foldM (fun acc x => d <- g x ;; Ok (h acc x d)) l s
  = Ok (fold_left (fun acc x => h acc x (f x)) l s).
Proof.
  revert s. induction l as [|x l IH]; intros s Hg; simpl.
  - reflexivity.
  - rewrite (Hg x (or_introl eq_refl)). simpl. apply IH.
    intros y Hy. apply Hg. right. exact Hy.
Qed.

Lemma foldM_app {T S : Type} (f : S -> T -> result S) (l1 l2 : list T) (s : S) :
  foldM f (l1 ++ l2) s = bind (foldM f l1 s) (fun s' => foldM f l2 s').
Proof.
  revert s. induction l1 as [|x l1 IH]; intros s; simpl.
  - reflexivity.
  - destruct (f s x) as [s'|e]; simpl; [apply IH | reflexivity].
Qed.

(** Either the first [n] runs all return, or there is a first one that throws. *)
Lemma first_throw {T : Type} (run : nat -> result T) (n : nat) :
  (forall t, t < n -> exists r, run t = Ok r)
  \/ (exists t e, t < n /\ run t = Throw e /\ forall t', t' < t -> exists r, run t' = Ok r).
Proof.
  induction n as [|n IH].
  - left. intros t Ht. lia.
  - destruct IH as [Hall | (t & e & Ht & He & Hbefore)].
    + destruct (run n) as [r|e] eqn:E.
      * left. intros t Ht. destruct (Nat.eq_dec t n) as [->|Hne]; [eauto | apply Hall; lia].
      * right. exists n, e. repeat split; [lia | exact E | exact Hall].
    + right. exists t, e. repeat split; [lia | exact He | exact Hbefore].
Qed.

Lemma seq_split (a n : nat) (l1 l2 : list nat) (i : nat) :
  seq a n = l1 ++ i :: l2 ->
  i = a + length l1 /\ forall j, a <= j < i -> In j l1.
Proof.
  revert a n. induction l1 as [|x l1 IH]; intros a n H.
  - destruct n as [|n]; simpl in H; [discriminate|].
    injection H as <- _. simpl. split; [lia | intros j Hj; lia].
  - destruct n as [|n]; simpl in H; [discriminate|].
    injection H as <- H. destruct (IH _ _ H) as [-> Hin].
    simpl. split; [lia|]. intros j Hj.
    destruct (Nat.eq_dec j a) as [->|Hne]; [left; reflexivity|].
    right. apply Hin. lia.
Qed.

(** ** Keeping the best of a sequence *)

Section Scan.

Variables (T I : Type) (R Q : T -> T -> bool) (f : I -> T).
Hypothesis R_irrefl : forall x, R x x = false.
Hypothesis R_trans : forall x y z, R x y = true -> R y z = true -> R x z = true.
Hypothesis QR_trans : forall x y z, Q x y = true -> R y z = true -> R x z = true.
Hypothesis R_not_Q : forall x y, R x y = true -> Q y x = false.

Lemma R_asym (x y : T) : R x y = true -> R y x = false.
Proof.
  intros H. destruct (R y x) eqn:E; [|reflexivity].
  rewrite <- (R_irrefl x). symmetry. apply R_trans with y; assumption.
Qed.

Lemma pick_spec (l : list I) (init : T) : Picked R Q f l init (fold_left (pick R f) l init).
Proof.
  revert init. induction l as [|i l IH]; intros init; simpl.
  - apply Kept; [reflexivity | intros j []].
  - unfold pick at 2. destruct (R (f i) init) eqn:Ei.
    + destruct (IH (f i)) as [Hr Hall | l1 k l2 Hl Hr Hk Hq Hbefore Hall].
      * apply Taken with (l1 := nil) (i := i) (l2 := l).
        -- reflexivity.
        -- exact Hr.
        -- exact Ei.
        -- apply R_not_Q, Ei.
        -- intros j [].
        -- intros j [<-|Hj]; [apply R_irrefl | apply Hall, Hj].
      * apply Taken with (l1 := i :: l1) (i := k) (l2 := l2).
        -- rewrite Hl. reflexivity.
        -- exact Hr.
        -- apply R_trans with (f i); assumption.
        -- destruct (Q init (f k)) eqn:E; [|reflexivity].
           rewrite <- (R_irrefl init). symmetry.
           apply R_trans with (f i); [|assumption].
           apply QR_trans with (f k); assumption.
        -- intros j [<-|Hj]; [assumption | apply Hbefore, Hj].
        -- intros j [<-|Hj]; [apply R_asym, Hk | apply Hall, Hj].
    + destruct (IH init) as [Hr Hall | l1 k l2 Hl Hr Hk Hq Hbefore Hall].
      * apply Kept; [assumption|].
        intros j [<-|Hj]; [assumption | apply Hall, Hj].
      * apply Taken with (l1 := i :: l1) (i := k) (l2 := l2).
        -- rewrite Hl. reflexivity.
        -- exact Hr.
        -- exact Hk.
        -- exact Hq.
        -- intros j [<-|Hj]; [|apply Hbefore, Hj].
           destruct (Q (f i) (f k)) eqn:E; [|reflexivity].
           rewrite <- Ei. symmetry. apply QR_trans with (f k); assumption.
        -- intros j [<-|Hj]; [|apply Hall, Hj].
           destruct (R (f i) (f k)) eqn:E; [|reflexivity].
           rewrite <- Ei. symmetry. apply R_trans with (f k); assumption.
Qed.

End Scan.

Arguments pick_spec {T I} R Q f _ _ _ _ l init.
Arguments R_asym {T} R _ _ x y _.

(** ** The multi-start loop of [kmeans] *)

Section MultiStart.

Context {A : Arith} {L : OrderLaws A}.

Lemma multiStart_pick (run : Z -> result RunResult) (f : nat -> RunResult)
      (seed : Z) (nInit : nat) :
  (forall t, t < Nat.max 1 nInit -> run (seed + Z.of_nat t * 101)%Z = Ok (f t)) ->
  multiStart run seed nInit
  = Ok (fold_left (pick lowerInertia f) (seq 1 (nInit - 1)) (f 0)).
Proof.
  intros Hrun. unfold multiStart.
  replace seed with (seed + Z.of_nat 0 * 101)%Z at 1 by (simpl; lia).
  rewrite (Hrun 0) by lia. simpl bind.
  rewrite (foldM_pure (fun t => run (seed + Z.of_nat t * 101)%Z) f
             (fun best _ trial => if lt (inertia trial) (inertia best) then trial else best)).
  - reflexivity.
  - intros t Ht. apply in_seq in Ht. apply Hrun. lia.
Qed.

Lemma multiStart_best (run : Z -> result RunResult) (f : nat -> RunResult)
      (seed : Z) (nInit : nat) :
  (forall t, t < Nat.max 1 nInit -> run (seed + Z.of_nat t * 101)%Z = Ok (f t)) ->
  exists t, t < Nat.max 1 nInit /\
    multiStart run seed nInit = Ok (f t) /\
    (forall t', t' < Nat.max 1 nInit -> lt (inertia (f t')) (inertia (f t)) = false) /\
    (forall t', t' < t -> le (inertia (f t')) (inertia (f t)) = false).
Proof.
  intros Hrun. rewrite (multiStart_pick run f seed nInit Hrun).
  destruct (pick_spec lowerInertia notHigherInertia f)
    with (l := seq 1 (nInit - 1)) (init := f 0)
    as [Hr Hall | l1 i l2 Hl Hr Hi Hq Hbefore Hall].
  - intros x. apply lt_irrefl.
  - intros x y z. apply lt_trans.
  - intros x y z. apply le_lt_trans.
  - intros x y. apply lt_not_le.
  - exists 0. rewrite Hr. repeat split.
    + lia.
    + intros t' Ht'. destruct t' as [|t']; [apply lt_irrefl|].
      apply (Hall (S t')). apply in_seq. lia.
    + intros t' Ht'. lia.
  - destruct (seq_split _ _ _ _ _ Hl) as [Hi' Hin].
    assert (Hrange : In i (seq 1 (nInit - 1))) by (rewrite Hl; apply in_elt).
    apply in_seq in Hrange.
    exists i. rewrite Hr. repeat split.
    + lia.
    + intros t' Ht'. destruct t' as [|t'].
      * apply (R_asym lowerInertia) in Hi; [exact Hi | |].
        -- intros x. apply lt_irrefl.
        -- intros x y z. apply lt_trans.
      * apply (Hall (S t')). apply in_seq. lia.
    + intros t' Ht'. destruct t' as [|t'].
      * exact Hq.
      * apply (Hbefore (S t')). apply Hin. lia.
Qed.

Lemma multiStart_throws (run : Z -> result RunResult) (seed : Z) (nInit t : nat) (e : exn) :
  t < Nat.max 1 nInit ->
  run (seed + Z.of_nat t * 101)%Z = Throw e ->
  (forall t', t' < t -> exists r, run (seed + Z.of_nat t' * 101)%Z = Ok r) ->
  multiStart run seed nInit = Throw e.
Proof.
  intros Ht He Hbefore. unfold multiStart.
  replace seed with (seed + Z.of_nat 0 * 101)%Z at 1 by (simpl; lia).
  destruct t as [|t].
  - rewrite He. reflexivity.
  - destruct (Hbefore 0) as [r0 ->]; [lia|]. simpl bind.
    replace (seq 1 (nInit - 1)) with (seq 1 t ++ S t :: seq (S (S t)) (nInit - 1 - S t)).
    + rewrite foldM_app.
      set (f := fun t => match run (seed + Z.of_nat t * 101)%Z with
                         | Ok r => r
                         | Throw _ => mkRun [] [] zero
                         end).
      rewrite (foldM_pure (fun t => run (seed + Z.of_nat t * 101)%Z) f
                 (fun best _ trial => if lt (inertia trial) (inertia best) then trial else best)).
      * cbn [bind foldM]. rewrite He. reflexivity.
      * intros x Hx. apply in_seq in Hx. unfold f.
        destruct (Hbefore x) as [r ->]; [lia | reflexivity].
    + replace (nInit - 1) with (t + S (nInit - 1 - S t)) at 2 by lia.
      rewrite seq_app. simpl. reflexivity.
Qed.

End MultiStart.

Section KMeansMultiStart.

Context {A : Arith} {L : OrderLaws A}.

(** C4. With [nInit >= 1], [kmeans] on a non-empty matrix runs [runOnce]
    on the seeds [seed + 101 * t] for [t = 0 .. nInit - 1]. If these runs
    return, it returns one of them, run [t]: no run has an inertia strictly
    below that of run [t] (the comparison being the program's [<]), and no
    earlier run has an inertia that is [<=] it, so that among runs of lowest
    inertia the earliest is returned. If a run throws, [kmeans] throws what
    the first such run throws. The result is a function of
    [(mat, K, maxIter, seed, nInit)]. *)
Theorem kmeans_returns_first_lowest_inertia
        (row0 : Row) (rows : Matrix) (K maxIter : nat) (seed : Z) (nInit : nat) :
  let mat := row0 :: rows in
  let run := fun t : nat =>
    runOnce (length row0) K maxIter mat (seed + Z.of_nat t * 101)%Z in
  1 <= nInit ->
  (exists t r,
      t < nInit /\
      run t = Ok r /\
      kmeans mat K maxIter seed nInit = Ok (mkKMeans (labels r) (centers r) (inertia r)) /\
      forall t', t' < nInit ->
        exists r', run t' = Ok r' /\
                   lt (inertia r') (inertia r) = false /\
                   (t' < t -> le (inertia r') (inertia r) = false))
  \/ (exists t e,
        t < nInit /\
        run t = Throw e /\
        kmeans mat K maxIter seed nInit = Throw e /\
        forall t', t' < t -> exists r', run t' = Ok r').
Proof.
  intros mat run Hn. subst mat.
  destruct (first_throw run nInit) as [Hruns | (t & e & Ht & He & Hbefore)].
  - left.
    set (f := fun t => match run t with Ok r => r | Throw _ => mkRun [] [] zero end).
    assert (Hf : forall t, t < Nat.max 1 nInit ->
                   runOnce (length row0) K maxIter (row0 :: rows) (seed + Z.of_nat t * 101)%Z
                   = Ok (f t)).
    { intros t Ht. unfold f. destruct (Hruns t) as [r Hr]; [lia|].
      fold (run t). rewrite Hr. reflexivity. }
    destruct (multiStart_best _ f seed nInit Hf) as (t & Ht & Hms & Hmin & Hfirst).
    exists t, (f t). repeat split.
    + lia.
    + apply Hf. exact Ht.
    + unfold kmeans. rewrite Hms. reflexivity.
    + intros t' Ht'. exists (f t'). repeat split.
      * apply Hf. lia.
      * apply Hmin. lia.
      * apply Hfirst.
  - right. exists t, e. repeat split; auto.
    unfold kmeans.
    rewrite (multiStart_throws _ seed nInit t e); [reflexivity | lia | exact He | exact Hbefore].
Qed.

End KMeansMultiStart.

(** ** The update step *)

Section Update.

Context {A : Arith}.

Lemma set_nth_length {T : Type} (i : nat) (v : T) (xs : list T) :
  length (set_nth i v xs) = length xs.
Proof.
  revert i. induction xs as [|x xs IH]; intros [|i]; simpl; auto.
Qed.

Lemma nth_error_set_nth_other {T : Type} (i j : nat) (v : T) (xs : list T) :
  i <> j -> nth_error (set_nth i v xs) j = nth_error xs j.
Proof.
  revert i j. induction xs as [|x xs IH]; intros [|i] [|j] H; simpl; auto.
  - contradiction.
Qed.

Lemma nth_set_nth_other {T : Type} (i j : nat) (v d : T) (xs : list T) :
  i <> j -> nth j (set_nth i v xs) d = nth j xs d.
Proof.
  revert i j. induction xs as [|x xs IH]; intros [|i] [|j] H; simpl; auto.
  - contradiction.
Qed.

Lemma accumulateStep_counts (D : nat) (acc acc' : list Row * list nat) (p : nat * Row) :
  accumulateStep D acc p = Ok acc' ->
  snd acc' = set_nth (fst p) (S (nth (fst p) (snd acc) O)) (snd acc)
  /\ length (fst acc') = length (fst acc).
Proof.
  destruct p as [l row]. unfold accumulateStep.
  destruct D as [|D].
  - intros H. injection H as <-. simpl. auto.
  - destruct (nth_error (fst acc) l) as [sl|]; [|discriminate].
    intros H. injection H as <-. simpl. rewrite set_nth_length. auto.
Qed.

Lemma foldM_accumulate_counts (D : nat) (ps : list (nat * Row))
      (acc acc' : list Row * list nat) (c : nat) :
  foldM (accumulateStep D) ps acc = Ok acc' ->
  ~ In c (map fst ps) ->
  nth c (snd acc') O = nth c (snd acc) O.
Proof.
  revert acc. induction ps as [|p ps IH]; intros acc H Hc; simpl in H.
  - injection H as <-. reflexivity.
  - destruct (accumulateStep D acc p) as [acc1|e] eqn:E; [|discriminate].
    simpl in H. rewrite (IH acc1 H).
    + destruct (accumulateStep_counts _ _ _ _ E) as [-> _].
      apply nth_set_nth_other. intros Heq. apply Hc. left. exact Heq.
    + intros Hin. apply Hc. right. exact Hin.
Qed.

Lemma nth_repeat_O (K c : nat) : nth c (repeat O K) O = O.
Proof.
  revert c. induction K as [|K IH]; intros [|c]; simpl; auto.
Qed.

Lemma accumulate_count_zero (D K : nat) (rows : Matrix) (ls : list nat)
      (sums : list Row) (counts : list nat) (c : nat) :
  accumulate D K rows ls = Ok (sums, counts) ->
  ~ In c ls ->
  nth c counts O = O.
Proof.
  unfold accumulate. intros H Hc.
  change counts with (snd (sums, counts)).
  rewrite (foldM_accumulate_counts _ _ _ _ c H).
  - apply nth_repeat_O.
  - intros Hin. apply Hc. apply in_map_iff in Hin.
    destruct Hin as ([l row] & <- & Hin). simpl.
    apply in_combine_l in Hin. exact Hin.
Qed.

Lemma recenter_untouched (sums : list Row) (counts : list nat) (c : nat)
      (l : list nat) (cs : list Row) :
  nth c counts O = O ->
  nth_error (fold_left (recenterStep sums counts) l cs) c = nth_error cs c.
Proof.
  intros Hc. revert cs. induction l as [|k l IH]; intros cs; simpl.
  - reflexivity.
  - rewrite IH. unfold recenterStep. destruct (nth k counts O) eqn:Ek; [reflexivity|].
    apply nth_error_set_nth_other. intros ->. congruence.
Qed.

Lemma recenter_length (K : nat) (sums : list Row) (counts : list nat) (cs : list Row) :
  length (recenter K sums counts cs) = length cs.
Proof.
  unfold recenter. generalize (seq 0 K). intros l. revert cs.
  induction l as [|k l IH]; intros cs; simpl.
  - reflexivity.
  - rewrite IH. unfold recenterStep. destruct (nth k counts O); [reflexivity|].
    apply set_nth_length.
Qed.

Lemma update_untouched (D K : nat) (rows : Matrix) (ls : list nat) (cs cs' : list Row)
      (c : nat) :
  update D K rows ls cs = Ok cs' -> ~ In c ls -> nth_error cs' c = nth_error cs c.
Proof.
  intros H Hc. unfold update in H.
  destruct (accumulate D K rows ls) as [[sums counts]|e] eqn:E; [|discriminate].
  simpl in H. injection H as <-. unfold recenter.
  apply recenter_untouched. apply (accumulate_count_zero _ _ _ _ _ _ _ E Hc).
Qed.

Lemma foldM_accumulate_ok (D : nat) (ps : list (nat * Row)) (acc : list Row * list nat) :
  Forall (fun p => fst p < length (fst acc)) ps ->
  exists acc', foldM (accumulateStep D) ps acc = Ok acc'.
Proof.
  revert acc. induction ps as [|p ps IH]; intros acc Hps; simpl.
  - eexists. reflexivity.
  - inversion Hps as [|? ? Hp Hps']; subst.
    destruct (accumulateStep D acc p) as [acc1|e] eqn:E.
    + simpl. apply IH.
      destruct (accumulateStep_counts _ _ _ _ E) as [_ Hlen]. rewrite Hlen. exact Hps'.
    + exfalso. destruct p as [l row]. unfold accumulateStep in E.
      destruct D as [|D]; [discriminate|].
      destruct (nth_error (fst acc) l) eqn:En; [discriminate|].
      apply nth_error_None in En. simpl in Hp. lia.
Qed.

Lemma update_ok (D K : nat) (rows : Matrix) (ls : list nat) (cs : list Row) :
  Forall (fun l => l < K) ls ->
  exists cs', update D K rows ls cs = Ok cs' /\ length cs' = length cs.
Proof.
  intros Hls. unfold update, accumulate.
  destruct (foldM_accumulate_ok D (combine ls rows) (repeat (repeat zero D) K, repeat O K))
    as [[sums counts] ->].
  - simpl. rewrite repeat_length.
    apply Forall_forall. intros [l row] Hin. simpl.
    apply in_combine_l in Hin. rewrite Forall_forall in Hls. apply Hls, Hin.
  - simpl. eexists. split; [reflexivity | apply recenter_length].
Qed.

(** C5. In an update step, a centroid [c] to which no row is assigned
    ([c] occurs nowhere in the labels) is exactly what it was before the
    step: it is not recomputed, so the step cannot turn it into NaN. The
    step returns whenever every label is below [K]. *)
Theorem update_keeps_empty_cluster_centroid
        (D K : nat) (rows : Matrix) (ls : list nat) (cs : list Row) :
  (forall cs' c, update D K rows ls cs = Ok cs' -> ~ In c ls ->
                 nth_error cs' c = nth_error cs c)
  /\ (Forall (fun l => l < K) ls -> exists cs', update D K rows ls cs = Ok cs').
Proof.
  split.
  - intros cs' c. apply update_untouched.
  - intros Hls. destruct (update_ok D K rows ls cs Hls) as (cs' & H & _).
    exists cs'. exact H.
Qed.

End Update.

(** ** When a run returns and when it throws *)

Lemma swap_length (idx : list nat) (i j : nat) : length (swap idx i j) = length idx.
Proof. unfold swap. rewrite length_map, length_seq. reflexivity. Qed.

Lemma shuffle_length (N : nat) (initSeed : Z) : length (shuffle N initSeed) = N.
Proof.
  unfold shuffle.
  assert (H : forall l (st : Z * list nat),
             length (snd (fold_left
               (fun (st : Z * list nat) (i : nat) =>
                  let (s, idx) := st in
                  let (s', u) := rngMulberry32 s in
                  let j := Z.to_nat (u * (Z.of_nat i + 1) / 2 ^ 32)%Z in
                  (s', swap idx i j)) l st)) = length (snd st)).
  { induction l as [|i l IH]; intros [s idx]; cbn [fold_left]; [reflexivity|].
    destruct (rngMulberry32 s) as [s' u]. rewrite IH. cbn [snd]. apply swap_length. }
  rewrite H. cbn [snd]. apply length_seq.
Qed.

Section Runs.

Context {A : Arith}.

Lemma dist2_some (D : nat) (a b : Row) : dist2 D a (Some b) = Ok (sumsq D a b).
Proof. destruct D; reflexivity. Qed.

Lemma dist2_throw (D : nat) (a : Row) (b : option Row) (e : exn) :
  dist2 D a b = Throw e -> e = TypeError /\ b = None /\ D <> 0.
Proof.
  destruct D as [|D], b as [b|]; simpl; intros H; try discriminate.
  injection H as <-. auto.
Qed.

Lemma foldM_nearest_throws (D : nat) (cs : list Row) (row : Row) (l : list nat)
      (acc : nat * num) (c : nat) :
  D <> 0 -> In c l -> length cs <= c ->
  foldM (nearestStep D cs row) l acc = Throw TypeError.
Proof.
  intros HD Hc Hlen. revert acc. induction l as [|x l IH]; intros acc; [destruct Hc|].
  simpl. unfold nearestStep at 1.
  destruct (dist2 D row (nth_error cs x)) as [d|e] eqn:E; simpl.
  - destruct Hc as [->|Hc].
    + apply nth_error_None in Hlen. rewrite Hlen in E.
      destruct D; [contradiction | discriminate].
    + apply IH, Hc.
  - apply dist2_throw in E. destruct E as [-> _]. reflexivity.
Qed.

Lemma nearest_throws (D K : nat) (cs : list Row) (row : Row) :
  D <> 0 -> length cs < K -> nearest D K cs row = Throw TypeError.
Proof.
  intros HD HK. unfold nearest.
  apply foldM_nearest_throws with (c := length cs); auto.
  apply in_seq. lia.
Qed.

Lemma foldM_nearest_ok (D K : nat) (cs : list Row) (row : Row) (l : list nat)
      (acc : nat * num) :
  (forall c, In c l -> c < K /\ c < length cs) -> fst acc < K ->
  exists b, foldM (nearestStep D cs row) l acc = Ok b /\ fst b < K.
Proof.
  revert acc. induction l as [|x l IH]; intros acc Hl Hacc; simpl.
  - exists acc. auto.
  - destruct (Hl x (or_introl eq_refl)) as [HxK Hxlen].
    unfold nearestStep at 1.
    destruct (nth_error cs x) as [cx|] eqn:E;
      [|apply nth_error_None in E; lia].
    rewrite dist2_some. simpl. apply IH.
    + intros c Hc. apply Hl. right. exact Hc.
    + destruct (lt (sumsq D row cx) (snd acc)); simpl; assumption.
Qed.

Lemma nearest_ok (D K : nat) (cs : list Row) (row : Row) :
  1 <= K <= length cs ->
  exists b, nearest D K cs row = Ok b /\ fst b < K.
Proof.
  intros HK. unfold nearest. apply foldM_nearest_ok.
  - intros c Hc. apply in_seq in Hc. lia.
  - simpl. lia.
Qed.

Lemma assign_ok (D K : nat) (cs : list Row) (rows : Matrix) (ls : list nat) :
  1 <= K <= length cs ->
  exists r, assign D K cs rows ls = Ok r
            /\ length (fst r) = length rows /\ Forall (fun l => l < K) (fst r).
Proof.
  intros HK. revert ls. induction rows as [|row rows IH]; intros ls; simpl.
  - eexists. split; [reflexivity|]. simpl. auto.
  - destruct (nearest_ok D K cs row HK) as (b & -> & Hb). simpl.
    destruct (IH (tl ls)) as (r & -> & Hlen & Hall). simpl.
    eexists. split; [reflexivity|]. simpl. split; [lia|]. constructor; assumption.
Qed.

Lemma loop_ok (fuel D K : nat) (rows : Matrix) (st : LoopState) :
  1 <= K <= length (st_centers st) ->
  length (st_labels st) = length rows ->
  Forall (fun l => l < K) (st_labels st) ->
  exists st', loop fuel D K rows st = Ok st'
              /\ length (st_centers st') = length (st_centers st)
              /\ length (st_labels st') = length rows
              /\ Forall (fun l => l < K) (st_labels st').
Proof.
  revert st. induction fuel as [|fuel IH]; intros st HK Hlen Hall; simpl.
  - exists st. auto.
  - destruct (st_changed st); [|exists st; auto].
    destruct (assign_ok D K (st_centers st) rows (st_labels st) HK)
      as ([ls ch] & -> & Hlen' & Hall'). simpl in *.
    destruct (update_ok D K rows ls (st_centers st) Hall') as (cs & -> & Hcs). simpl.
    destruct (IH (mkLoop ls cs ch (S (st_it st)))) as (st' & Hst' & H1 & H2 & H3); simpl; auto.
    + lia.
    + exists st'. repeat split; auto. simpl in H1. lia.
Qed.

Lemma sumInertia_ok (D : nat) (rows : Matrix) (ls : list nat) (cs : list Row) :
  Forall (fun l => l < length cs) ls ->
  exists i, sumInertia D rows ls cs = Ok i.
Proof.
  intros Hls. unfold sumInertia.
  assert (H : forall ps s, Forall (fun p : nat * Row => fst p < length cs) ps ->
             exists i, foldM (fun s (p : nat * Row) =>
                                d <- dist2 D (snd p) (nth_error cs (fst p)) ;; Ok (add s d))
                             ps s = Ok i).
  { induction ps as [|p ps IH]; intros s Hps; simpl.
    - eexists. reflexivity.
    - inversion Hps as [|? ? Hp Hps']; subst.
      destruct (nth_error cs (fst p)) as [c|] eqn:E;
        [|apply nth_error_None in E; lia].
      rewrite dist2_some. simpl. apply IH, Hps'. }
  apply H. apply Forall_forall. intros [l row] Hin. simpl.
  apply in_combine_l in Hin. rewrite Forall_forall in Hls. apply Hls, Hin.
Qed.

Lemma initState_centers (K : nat) (mat : Matrix) (initSeed : Z) :
  length (st_centers (initState K mat initSeed)) = Nat.min K (length mat).
Proof.
  unfold initState. simpl. rewrite length_map, length_firstn, shuffle_length. reflexivity.
Qed.

(** With between 1 and N clusters every run returns, with one label below
    [K] per row and [K] centres. *)
Lemma runOnce_ok (D K maxIter : nat) (mat : Matrix) (initSeed : Z) :
  1 <= K <= length mat ->
  exists r, runOnce D K maxIter mat initSeed = Ok r
            /\ length (labels r) = length mat
            /\ Forall (fun l => l < K) (labels r)
            /\ length (centers r) = K.
Proof.
  intros HK. unfold runOnce, runLoop.
  destruct (loop_ok maxIter D K mat (initState K mat initSeed))
    as (st & -> & Hcs & Hlen & Hall).
  - rewrite initState_centers. lia.
  - simpl. apply repeat_length.
  - simpl. apply Forall_forall. intros l Hl. apply repeat_spec in Hl. lia.
  - rewrite initState_centers in Hcs. simpl.
    destruct (sumInertia_ok D mat (st_labels st) (st_centers st)) as [i ->].
    + eapply Forall_impl; [|exact Hall]. simpl. intros l Hl. lia.
    + simpl. eexists. split; [reflexivity|]. simpl. repeat split; auto. lia.
Qed.

(** With more clusters than rows the first assignment pass reads a centre
    that [idx.slice(0, K)] never created. *)
Lemma runOnce_throws (D K maxIter : nat) (row0 : Row) (rows : Matrix) (initSeed : Z) :
  D <> 0 -> maxIter <> 0 -> length (row0 :: rows) < K ->
  runOnce D K maxIter (row0 :: rows) initSeed = Throw TypeError.
Proof.
  intros HD Hm HK. unfold runOnce, runLoop.
  destruct maxIter as [|fuel]; [contradiction|].
  cbn [loop]. change (st_changed (initState K (row0 :: rows) initSeed)) with true.
  cbn iota. cbn [assign].
  rewrite nearest_throws; [reflexivity | exact HD |].
  rewrite initState_centers. lia.
Qed.

End Runs.

Section Inside.

Context {A : Arith} {L : OrderLaws A}.

Lemma foldM_nearest_settled (cs : list Row) (row : Row) (l : list nat) (acc : nat * num) :
  lt zero (snd acc) = false ->
  foldM (nearestStep 0 cs row) l acc = Ok acc.
Proof.
  intros Hacc. induction l as [|c l IH]; simpl.
  - reflexivity.
  - unfold nearestStep at 1. simpl. rewrite Hacc. exact IH.
Qed.

(** The centre that [nearest] picks exists: the write [centers[c] = sums[c]]
    of the update step, made for labels below [K] only, lands inside
    [centers]. *)
Lemma nearest_inside (D K : nat) (cs : list Row) (row : Row) (b : nat) (d : num) :
  nearest D K cs row = Ok (b, d) -> cs <> [] -> b < K -> b < length cs.
Proof.
  intros H Hcs Hb. destruct D as [|D].
  - assert (Hb0 : b = 0).
    { unfold nearest in H. destruct K as [|K]; [lia|].
      change (foldM (nearestStep 0 cs row) (seq 0 (S K)) (0, Infinity))
        with (foldM (nearestStep 0 cs row) (seq 1 K)
                    (if lt zero Infinity then (0, zero) else (0, Infinity))) in H.
      rewrite foldM_nearest_settled in H.
      - destruct (lt zero Infinity); injection H as <- _; reflexivity.
      - destruct (lt zero Infinity) eqn:E; simpl; [apply lt_irrefl | exact E]. }
    subst b. destruct cs; [contradiction | simpl; lia].
  - destruct (Nat.lt_ge_cases (length cs) K) as [Hlt|Hge]; [|lia].
    rewrite nearest_throws in H; [discriminate | discriminate | exact Hlt].
Qed.

Lemma assign_labels_inside (D K : nat) (cs : list Row) (rows : Matrix) (ls : list nat)
      (r : list nat * bool) :
  assign D K cs rows ls = Ok r -> cs <> [] ->
  Forall (fun l => l < K -> l < length cs) (fst r).
Proof.
  revert ls r. induction rows as [|row rows IH]; intros ls r H Hcs; simpl in H.
  - injection H as <-. constructor.
  - destruct (nearest D K cs row) as [[b d]|e] eqn:En; [|discriminate]. simpl in H.
    destruct (assign D K cs rows (tl ls)) as [r'|e] eqn:E; [|discriminate]. simpl in H.
    injection H as <-. simpl. constructor.
    + apply (nearest_inside _ _ _ _ _ _ En Hcs).
    + apply (IH _ _ E Hcs).
Qed.

End Inside.

(** ** Runs that converge after the first pass *)

Section Converged.

Context {A : Arith}.

Lemma set_nth_idem {T : Type} (i : nat) (v : T) (xs : list T) :
  set_nth i v (set_nth i v xs) = set_nth i v xs.
Proof.
  revert i. induction xs as [|x xs IH]; intros [|i]; simpl; auto.
  rewrite IH. reflexivity.
Qed.

Lemma set_nth_comm {T : Type} (i j : nat) (v w : T) (xs : list T) :
  i <> j -> set_nth i v (set_nth j w xs) = set_nth j w (set_nth i v xs).
Proof.
  revert i j. induction xs as [|x xs IH]; intros [|i] [|j] H; simpl; auto.
  - contradiction.
  - rewrite IH by lia. reflexivity.
Qed.

Lemma recenterStep_idem (sums : list Row) (counts : list nat) (cs : list Row) (k : nat) :
  recenterStep sums counts (recenterStep sums counts cs k) k = recenterStep sums counts cs k.
Proof.
  unfold recenterStep. destruct (nth k counts O); [reflexivity | apply set_nth_idem].
Qed.

Lemma recenterStep_comm (sums : list Row) (counts : list nat) (cs : list Row) (k k' : nat) :
  recenterStep sums counts (recenterStep sums counts cs k) k'
  = recenterStep sums counts (recenterStep sums counts cs k') k.
Proof.
  destruct (Nat.eq_dec k k') as [->|Hne]; [reflexivity|].
  unfold recenterStep. destruct (nth k counts O), (nth k' counts O); try reflexivity.
  apply set_nth_comm. auto.
Qed.

Lemma recenter_fold_comm (sums : list Row) (counts : list nat) (l : list nat)
      (cs : list Row) (k : nat) :
  fold_left (recenterStep sums counts) l (recenterStep sums counts cs k)
  = recenterStep sums counts (fold_left (recenterStep sums counts) l cs) k.
Proof.
  revert cs. induction l as [|x l IH]; intros cs; simpl.
  - reflexivity.
  - rewrite recenterStep_comm. apply IH.
Qed.

Lemma recenter_fold_idem (sums : list Row) (counts : list nat) (l : list nat) (cs : list Row) :
  fold_left (recenterStep sums counts) l (fold_left (recenterStep sums counts) l cs)
  = fold_left (recenterStep sums counts) l cs.
Proof.
  revert cs. induction l as [|k l IH]; intros cs; simpl.
  - reflexivity.
  - rewrite !recenter_fold_comm. rewrite IH. rewrite recenterStep_idem. reflexivity.
Qed.

(** Updating twice from the same labels changes nothing the second time. *)
Lemma update_idem (D K : nat) (rows : Matrix) (ls : list nat) (cs0 cs1 cs2 : list Row) :
  update D K rows ls cs0 = Ok cs1 -> update D K rows ls cs1 = Ok cs2 -> cs2 = cs1.
Proof.
  unfold update. destruct (accumulate D K rows ls) as [[sums counts]|e]; [|discriminate].
  simpl. intros H1 H2. injection H1 as <-. injection H2 as <-.
  unfold recenter. apply recenter_fold_idem.
Qed.

Lemma assign_unchanged (D K : nat) (cs : list Row) (rows : Matrix) (ls ls' : list nat) :
  length ls = length rows ->
  assign D K cs rows ls = Ok (ls', false) -> ls' = ls.
Proof.
  revert ls ls'. induction rows as [|row rows IH]; intros ls ls' Hlen H; simpl in H.
  - injection H as <-. destruct ls; [reflexivity | discriminate].
  - destruct (nearest D K cs row) as [b|e]; [|discriminate]. simpl in H.
    destruct (assign D K cs rows (tl ls)) as [r|e] eqn:E; [|discriminate]. simpl in H.
    injection H as <- Hch. apply orb_false_iff in Hch. destruct Hch as [Hhd Hr].
    destruct ls as [|l ls]; [discriminate|]. simpl in *.
    apply negb_false_iff, Nat.eqb_eq in Hhd. subst l. f_equal.
    apply IH; [lia|]. rewrite E. destruct r as [r1 r2]. simpl in *. subst r2. reflexivity.
Qed.

Lemma assign_length (D K : nat) (cs : list Row) (rows : Matrix) (ls : list nat)
      (r : list nat * bool) :
  assign D K cs rows ls = Ok r -> length (fst r) = length rows.
Proof.
  revert ls r. induction rows as [|row rows IH]; intros ls r H; simpl in H.
  - injection H as <-. reflexivity.
  - destruct (nearest D K cs row) as [b|e]; [|discriminate]. simpl in H.
    destruct (assign D K cs rows (tl ls)) as [r'|e] eqn:E; [|discriminate]. simpl in H.
    injection H as <-. simpl. f_equal. apply (IH _ _ E).
Qed.

Lemma assign_nearest (D K : nat) (cs : list Row) (rows : Matrix) (ls : list nat)
      (r : list nat * bool) (i : nat) :
  assign D K cs rows ls = Ok r -> i < length rows ->
  exists d, nearest D K cs (nth i rows []) = Ok (nth i (fst r) O, d).
Proof.
  revert ls r i. induction rows as [|row rows IH]; intros ls r i H Hi; simpl in *; [lia|].
  destruct (nearest D K cs row) as [[b d]|e] eqn:En; [|discriminate]. simpl in H.
  destruct (assign D K cs rows (tl ls)) as [r'|e] eqn:E; [|discriminate]. simpl in H.
  injection H as <-. simpl. destruct i as [|i].
  - exists d. exact En.
  - apply (IH _ _ _ E). lia.
Qed.

Lemma loop_produced (fuel D K : nat) (rows : Matrix) (st st' : LoopState) :
  loop fuel D K rows st = Ok st' ->
  length (st_labels st) = length rows ->
  (1 <= st_it st -> Produced D K rows st) ->
  st_it st <= st_it st' /\ (1 <= st_it st' -> Produced D K rows st').
Proof.
  revert st. induction fuel as [|fuel IH]; intros st H Hlen Hp; simpl in H.
  - injection H as <-. auto.
  - destruct (st_changed st) eqn:Ech; [|injection H as <-; auto].
    destruct (assign D K (st_centers st) rows (st_labels st)) as [[ls ch]|e] eqn:Ea;
      [|discriminate].
    simpl in H.
    destruct (update D K rows ls (st_centers st)) as [cs|e] eqn:Eu; [|discriminate].
    simpl in H. apply IH in H; simpl.
    + simpl in H. destruct H as [Hit Hp']. split; [lia | exact Hp'].
    + apply (assign_length _ _ _ _ _ _ Ea).
    + intros _. exists (st_labels st), (st_centers st). simpl. repeat split; auto.
      intros H2. destruct Hp as (lsP & csP & _ & _ & Hup & _); [lia|].
      exists csP. exact Hup.
Qed.

Lemma nearest_pick (D K : nat) (cs : list Row) (row : Row) :
  K <= length cs ->
  nearest D K cs row
  = Ok (fold_left (pick closerThan (fun c => (c, sumsq D row (nth c cs []))))
                  (seq 0 K) (O, Infinity)).
Proof.
  intros HK. unfold nearest, nearestStep.
  rewrite (foldM_pure (fun c => dist2 D row (nth_error cs c))
             (fun c => sumsq D row (nth c cs []))
             (fun (acc : nat * num) c d => if lt d (snd acc) then (c, d) else acc)).
  - reflexivity.
  - intros c Hc. apply in_seq in Hc.
    destruct (nth_error cs c) as [x|] eqn:E.
    + rewrite (nth_error_nth _ _ _ E). apply dist2_some.
    + apply nth_error_None in E. lia.
Qed.

(** The centre that [nearest] returns has no centre strictly nearer. *)
Lemma nearest_optimal {L : OrderLaws A} (D K : nat) (cs : list Row) (row : Row)
      (b : nat) (d : num) (c : nat) :
  K <= length cs ->
  nearest D K cs row = Ok (b, d) ->
  c < K ->
  lt (sumsq D row (nth c cs [])) (sumsq D row (nth b cs [])) = false.
Proof.
  intros HK H Hc. rewrite (nearest_pick D K cs row HK) in H. injection H as H.
  assert (Hin : In c (seq 0 K)) by (apply in_seq; lia).
  destruct (pick_spec closerThan notFartherThan
              (fun c => (c, sumsq D row (nth c cs []))))
    with (l := seq 0 K) (init := (O, Infinity))
    as [Hr Hall | l1 i l2 Hsplit Hr Hi Hq Hbefore Hall];
    unfold closerThan, notFartherThan in *; simpl in *.
  - intros x. apply lt_irrefl.
  - intros x y z. apply lt_trans.
  - intros x y z. apply le_lt_trans.
  - intros x y. apply lt_not_le.
  - rewrite Hr in H. injection H as <- _.
    destruct (lt (sumsq D row (nth c cs [])) (sumsq D row (nth 0 cs []))) eqn:E;
      [|reflexivity].
    apply lt_Infinity in E. rewrite (Hall c Hin) in E. discriminate E.
  - rewrite Hr in H. injection H as <- _. apply Hall, Hin.
Qed.

(** After convergence in a pass later than the first, every label is a
    nearest centre. When a run with between 1 and N clusters leaves its loop
    with [changed = false] after at least two iterations, no centre is
    strictly nearer to a row (in squared distance) than the returned centre
    of the row's label. *)
Theorem converged_after_first_pass_nearest {L : OrderLaws A}
        (D K maxIter : nat) (mat : Matrix) (initSeed : Z) (st : LoopState) :
  1 <= K <= length mat ->
  runLoop D K maxIter mat initSeed = Ok st ->
  st_changed st = false ->
  2 <= st_it st ->
  forall i c, i < length mat -> c < K ->
    lt (sumsq D (nth i mat []) (nth c (st_centers st) []))
       (sumsq D (nth i mat []) (nth (nth i (st_labels st) O) (st_centers st) []))
    = false.
Proof.
  intros HK Hrun Hch Hit i c Hi Hc. unfold runLoop in Hrun.
  destruct (loop_ok maxIter D K mat (initState K mat initSeed))
    as (st' & Hst' & Hcs & _).
  { rewrite initState_centers. lia. }
  { simpl. apply repeat_length. }
  { simpl. apply Forall_forall. intros l Hl. apply repeat_spec in Hl. lia. }
  rewrite Hrun in Hst'. injection Hst' as <-. rewrite initState_centers in Hcs.
  destruct (loop_produced _ _ _ _ _ _ Hrun) as [_ Hp].
  { simpl. apply repeat_length. }
  { simpl. lia. }
  destruct Hp as (lsP & csP & HlenP & Hassign & Hupdate & Hprev); [lia|].
  rewrite Hch in Hassign.
  pose proof (assign_unchanged _ _ _ _ _ _ HlenP Hassign) as Hls.
  destruct (Hprev Hit) as [cs0 Hup0]. rewrite <- Hls in Hup0.
  pose proof (update_idem _ _ _ _ _ _ _ Hup0 Hupdate) as Hcs'. rewrite <- Hcs' in Hassign.
  destruct (assign_nearest _ _ _ _ _ _ i Hassign Hi) as [d Hn]. simpl in Hn.
  apply (nearest_optimal D K (st_centers st) (nth i mat []) _ d c); auto. lia.
Qed.

End Converged.

(** A run that exits its loop with [changed = false] after two iterations. *)
Lemma converged_after_first_pass_nearest_example :
  exists st,
    runLoop 1 2 30 Examples.m3 0 = Ok st
    /\ st_it st = 2
    /\ forall i c, i < 3 -> c < 2 ->
         lt (sumsq 1 (nth i Examples.m3 []) (nth c (st_centers st) []))
            (sumsq 1 (nth i Examples.m3 [])
                   (nth (nth i (st_labels st) O) (st_centers st) []))
         = false.
Proof.
  eexists. split; [vm_compute; reflexivity|]. split; [reflexivity|].
  apply (converged_after_first_pass_nearest (L:=F64_order) 1 2 30 Examples.m3 0).
  - simpl. lia.
  - vm_compute. reflexivity.
  - reflexivity.
  - simpl. lia.
Defined.

(** ** [silhouetteApprox] *)

Section Silhouette.

Context {A : Arith}.

Lemma dist_some (D : nat) (a b : Row) : dist D a (Some b) = Ok (euclid D a b).
Proof. unfold dist. rewrite dist2_some. reflexivity. Qed.

Lemma dist_nth (D : nat) (a : Row) (cs : list Row) (c : nat) :
  c < length cs -> dist D a (nth_error cs c) = Ok (euclid D a (nth c cs [])).
Proof.
  intros Hc. destruct (nth_error cs c) as [x|] eqn:E.
  - rewrite (nth_error_nth _ _ _ E). apply dist_some.
  - apply nth_error_None in E. lia.
Qed.

Lemma nearestOther_pick (D : nat) (cs : list Row) (row : Row) (o : nat)
      (l : list nat) (b : num) :
  (forall c, In c l -> c < length cs) ->
  foldM (nearestOtherStep D cs row (Some o)) l b
  = Ok (fold_left (pick lt (fun c => euclid D row (nth c cs [])))
                  (filter (fun c => negb (Nat.eqb c o)) l) b).
Proof.
  revert b. induction l as [|c l IH]; intros b Hl; simpl.
  - reflexivity.
  - unfold nearestOtherStep at 1. destruct (Nat.eqb c o); simpl.
    + apply IH. intros x Hx. apply Hl. right. exact Hx.
    + rewrite dist_nth by (apply Hl; left; reflexivity). simpl.
      apply IH. intros x Hx. apply Hl. right. exact Hx.
Qed.

Lemma nearestOther_eq (D : nat) (cs : list Row) (row : Row) (o : nat) :
  nearestOther D cs row (Some o) = Ok (otherDistance D cs row o).
Proof.
  unfold nearestOther, otherDistance. apply nearestOther_pick.
  intros c Hc. apply in_seq in Hc. lia.
Qed.

Lemma rowScore_eq (D : nat) (cs : list Row) (row : Row) (o : nat) :
  o < length cs ->
  rowScore D cs row (Some o)
  = Ok (score (euclid D row (nth o cs [])) (otherDistance D cs row o)).
Proof.
  intros Ho. unfold rowScore. rewrite dist_nth by exact Ho. simpl.
  rewrite nearestOther_eq. reflexivity.
Qed.

Lemma otherDistance_least {L : OrderLaws A} (D : nat) (cs : list Row) (row : Row) (o : nat) :
  leastOtherDistance D cs row o (otherDistance D cs row o).
Proof.
  unfold otherDistance.
  set (l := filter (fun c => negb (Nat.eqb c o)) (seq 0 (length cs))).
  assert (Hl : forall c, In c l <-> c < length cs /\ c <> o).
  { intros c. unfold l. rewrite filter_In, in_seq, negb_true_iff, Nat.eqb_neq. lia. }
  destruct (pick_spec lt le (fun c => euclid D row (nth c cs []))
              lt_irrefl lt_trans le_lt_trans lt_not_le l Infinity)
    as [Hr Hall | l1 i l2 Hsplit Hr Hi Hq Hbefore Hall].
  - rewrite Hr. split.
    + intros c Hc Hne. apply Hall. apply Hl. auto.
    + left. reflexivity.
  - rewrite Hr. split.
    + intros c Hc Hne. apply Hall. apply Hl. auto.
    + right. exists i.
      assert (Hin : In i l) by (rewrite Hsplit; apply in_elt).
      apply Hl in Hin. destruct Hin. auto.
Qed.

Lemma fold_left_add_map {I : Type} (g : I -> num) (l : list I) (s : num) :
  fold_left (fun sum i => add sum (g i)) l s = fold_left add (map g l) s.
Proof.
  revert s. induction l as [|i l IH]; intros s; simpl; [reflexivity | apply IH].
Qed.

(** With one in-range label per row, [silhouetteApprox] returns the sum of
    the per-row scores, accumulated in row order from 0, divided by [N]. *)
Lemma silhouetteApprox_eq (row0 : Row) (rows : Matrix) (ls : list nat) (cs : list Row) :
  let mat := row0 :: rows in
  length ls = length mat ->
  Forall (fun l => l < length cs) ls ->
  silhouetteApprox mat ls cs
  = Ok (div (fold_left add (map (scoreOfRow mat ls cs) (seq 0 (length mat))) zero)
            (ofZ (Z.of_nat (length mat)))).
Proof.
  intros mat Hlen Hls. unfold silhouetteApprox. subst mat. cbv beta iota zeta.
  rewrite (foldM_pure
             (fun i => rowScore (length row0) cs (nth i (row0 :: rows) []) (nth_error ls i))
             (scoreOfRow (row0 :: rows) ls cs)
             (fun sum _ s => add sum s)).
  - simpl bind. rewrite fold_left_add_map. reflexivity.
  - intros i Hi. apply in_seq in Hi.
    destruct (nth_error ls i) as [o|] eqn:E;
      [|apply nth_error_None in E; lia].
    rewrite rowScore_eq.
    + unfold scoreOfRow. simpl hd. rewrite (nth_error_nth _ _ _ E). reflexivity.
    + rewrite Forall_forall in Hls. apply Hls. eapply nth_error_In. exact E.
Qed.

(** C1 (amended). For a non-empty matrix with one in-range label per row,
    [silhouetteApprox] returns the arithmetic mean (sum over the rows, divided
    by N) of the per-row scores [(b - a) / max(a, b')], where [a] is the
    Euclidean distance from the row to its own centroid, [b] the least
    Euclidean distance to any other centroid ([Infinity] when there is none)
    and [b'] is [b], except that [b'] is the floor 1 when [b] is 0 (or NaN):
    the floor is not a third argument of the maximum. *)
Theorem silhouetteApprox_mean_of_scores {L : OrderLaws A}
        (row0 : Row) (rows : Matrix) (ls : list nat) (cs : list Row) :
  let mat := row0 :: rows in
  let N := length mat in
  let D := length row0 in
  length ls = N ->
  Forall (fun l => l < length cs) ls ->
  exists scores : list num,
    length scores = N /\
    silhouetteApprox mat ls cs
    = Ok (div (fold_left add scores zero) (ofZ (Z.of_nat N))) /\
    forall i, i < N ->
      let row := nth i mat [] in
      let own := nth i ls O in
      let a := euclid D row (nth own cs []) in
      exists b,
        leastOtherDistance D cs row own b /\
        nth i scores zero
        = div (sub b a) (Math_max a (if truthy b then b else one)).
Proof.
  intros mat N D Hlen Hls.
  exists (map (scoreOfRow mat ls cs) (seq 0 N)). repeat split.
  - rewrite length_map, length_seq. reflexivity.
  - apply silhouetteApprox_eq; assumption.
  - intros i Hi row own a.
    exists (otherDistance D cs row own). split.
    + apply otherDistance_least.
    + rewrite (nth_indep _ zero (scoreOfRow mat ls cs 0))
        by (rewrite length_map, length_seq; exact Hi).
      rewrite map_nth, seq_nth by exact Hi. reflexivity.
Qed.

End Silhouette.

(** ** [suggestElbow] *)

Section Elbow.

Context {A : Arith} {L : OrderLaws A}.

Lemma elbowScan_pick (ks : list Z) (inertias : list num) :
  elbowScan ks inertias
  = fold_left (pick fartherThan (fun i => (i, elbowDistance ks inertias i)))
              (seq 1 (length ks - 2)) (O, NegInfinity).
Proof. reflexivity. Qed.

Lemma elbowScan_spec (ks : list Z) (inertias : list num) :
  Picked fartherThan notNearerThan (fun i => (i, elbowDistance ks inertias i))
         (seq 1 (length ks - 2)) (O, NegInfinity) (elbowScan ks inertias).
Proof.
  rewrite elbowScan_pick. apply pick_spec; unfold fartherThan, notNearerThan.
  - intros x. apply lt_irrefl.
  - intros x y z H1 H2. apply lt_trans with (snd y); assumption.
  - intros x y z H1 H2. apply lt_le_trans with (snd y); assumption.
  - intros x y. apply lt_not_le.
Qed.

(** C9 (amended). For [ks] of length at least 3 and [inertia] of the same
    length: when the perpendicular distance [d] of some interior point is a
    number (it passes the program's test [d > -Infinity], which NaN fails),
    [suggestElbow] returns the interior candidate [ks[i]] whose distance is
    the largest, the first of them on ties (distances that are NaN are passed
    over); when the distance of every interior point is NaN, it returns
    [ks[0]]. *)
Theorem suggestElbow_interior (ks : list Z) (inertias : list num) :
  length ks = length inertias ->
  3 <= length ks ->
  let d := elbowDistance ks inertias in
  ((exists i, 1 <= i < length ks - 1 /\ lt NegInfinity (d i) = true) ->
   exists i,
     1 <= i < length ks - 1 /\
     suggestElbow ks inertias = nth_error ks i /\
     lt NegInfinity (d i) = true /\
     (forall j, 1 <= j < length ks - 1 -> lt (d i) (d j) = false) /\
     (forall j, 1 <= j < i -> le (d i) (d j) = false))
  /\ ((forall i, 1 <= i < length ks - 1 -> lt NegInfinity (d i) = false) ->
      suggestElbow ks inertias = nth_error ks 0).
Proof.
  intros Hlen H3 d.
  assert (Hse : suggestElbow ks inertias = nth_error ks (fst (elbowScan ks inertias))).
  { unfold suggestElbow. rewrite <- Hlen, Nat.eqb_refl. simpl.
    destruct (Nat.ltb_spec (length ks) 3); [lia | reflexivity]. }
  rewrite Hse.
  assert (Hseq : forall j, In j (seq 1 (length ks - 2)) <-> 1 <= j < length ks - 1).
  { intros j. rewrite in_seq. lia. }
  destruct (elbowScan_spec ks inertias)
    as [Hr Hall | l1 i l2 Hsplit Hr Hi Hq Hbefore Hall]; unfold fartherThan, notNearerThan in *;
    simpl in *; fold d in Hall.
  - split.
    + intros (i & Hi & Hd). rewrite (Hall i) in Hd; [discriminate | apply Hseq, Hi].
    + intros _. rewrite Hr. reflexivity.
  - fold d in Hi, Hbefore. 
    assert (Hin : 1 <= i < length ks - 1) by (apply Hseq; rewrite Hsplit; apply in_elt).
    split.
    + intros _. exists i. rewrite Hr. simpl. repeat split; try lia; auto.
      * intros j Hj. apply Hall, Hseq. lia.
      * intros j Hj. apply Hbefore.
        destruct (seq_split _ _ _ _ _ Hsplit) as [_ Hl1]. apply Hl1. lia.
    + intros Hnan. rewrite (Hnan i Hin) in Hi. discriminate.
Qed.

End Elbow.

(** ** K selection *)

Lemma fold_pick_in {T I : Type} (R : T -> T -> bool) (f : I -> T) (l : list I) (init : T) :
  fold_left (pick R f) l init = init
  \/ exists i, In i l /\ fold_left (pick R f) l init = f i.
Proof.
  revert init. induction l as [|x l IH]; intros init; simpl.
  - left. reflexivity.
  - destruct (IH (pick R f init x)) as [H | (i & Hi & H)].
    + rewrite H. unfold pick. destruct (R (f x) init); [|left; reflexivity].
      right. exists x. split; [left; reflexivity|]. reflexivity.
    + right. exists i. split; [right; exact Hi | exact H].
Qed.


Section Selection.

Context {A : Arith}.

Lemma indexOf_of_nth_error (ks : list Z) (n : nat) (k : Z) :
  nth_error ks n = Some k -> exists i, indexOf ks k = Some i /\ nth_error ks i = Some k.
Proof.
  revert n. induction ks as [|x ks IH]; intros [|n] H; simpl in *; try discriminate.
  - injection H as ->. rewrite Z.eqb_refl. exists 0. auto.
  - destruct (Z.eqb_spec x k) as [->|Hne].
    + exists 0. auto.
    + destruct (IH n H) as (i & -> & Hi). exists (S i). auto.
Qed.

Lemma suggestElbow_in_ks (ks : list Z) (inertias : list num) (k : Z) :
  suggestElbow ks inertias = Some k -> exists n, nth_error ks n = Some k.
Proof.
  unfold suggestElbow.
  destruct (negb (Nat.eqb (length ks) (length inertias)) || Nat.ltb (length ks) 3);
    intros H; eexists; exact H.
Qed.

Lemma elbowScan_index (ks : list Z) (inertias : list num) :
  3 <= length ks -> fst (elbowScan ks inertias) < length ks.
Proof.
  intros H3.
  change (elbowScan ks inertias)
    with (fold_left (pick fartherThan (fun i => (i, elbowDistance ks inertias i)))
                    (seq 1 (length ks - 2)) (O, NegInfinity)).
  destruct (fold_pick_in fartherThan (fun i => (i, elbowDistance ks inertias i))
              (seq 1 (length ks - 2)) (O, NegInfinity)) as [-> | (i & Hi & ->)]; simpl.
  - lia.
  - apply in_seq in Hi. lia.
Qed.

Lemma suggestElbow_defined (ks : list Z) (inertias : list num) :
  ks <> [] -> exists k, suggestElbow ks inertias = Some k.
Proof.
  intros Hks. unfold suggestElbow.
  assert (Hpos : 1 <= length ks) by (destruct ks; [contradiction | simpl; lia]).
  destruct (negb (Nat.eqb (length ks) (length inertias))) eqn:E1; simpl.
  - destruct (nth_error ks (Nat.div (length ks) 2)) as [k|] eqn:E; [eauto|].
    apply nth_error_None in E.
    pose proof (Nat.div_lt (length ks) 2). lia.
  - destruct (Nat.ltb_spec (length ks) 3) as [Hlt|Hge].
    + destruct (nth_error ks (Nat.div (length ks) 2)) as [k|] eqn:E; [eauto|].
      apply nth_error_None in E.
      pose proof (Nat.div_lt (length ks) 2). lia.
    + destruct (nth_error ks (fst (elbowScan ks inertias))) as [k|] eqn:E; [eauto|].
      apply nth_error_None in E.
      pose proof (elbowScan_index ks inertias Hge). lia.
Qed.

Lemma argmaxSilhouette_index (sil : list num) :
  sil <> [] -> argmaxSilhouette sil < length sil.
Proof.
  intros Hsil. unfold argmaxSilhouette.
  assert (H : forall l bi,
             let r := fold_left (fun bi i => if lt (get sil bi) (get sil i) then i else bi) l bi in
             r = bi \/ In r l).
  { induction l as [|x l IH]; intros bi; simpl.
    - left. reflexivity.
    - destruct (IH (if lt (get sil bi) (get sil x) then x else bi)) as [H|H].
      + rewrite H. destruct (lt (get sil bi) (get sil x)); auto.
      + right. right. exact H. }
  destruct (H (seq 0 (length sil)) 0) as [-> | Hin].
  - destruct sil; [contradiction | simpl; lia].
  - apply in_seq in Hin. lia.
Qed.

(** The index that the [reduce] of [autoCluster] returns is the first
    position at which the silhouette array is largest. *)
Lemma argmaxSilhouette_first_maximum {L : OrderLaws A} (sil : list num) :
  (forall i, i < length sil ->
     lt (get sil (argmaxSilhouette sil)) (get sil i) = false)
  /\ (forall i, i < argmaxSilhouette sil ->
        le (get sil (argmaxSilhouette sil)) (get sil i) = false).
Proof.
  change (argmaxSilhouette sil)
    with (fold_left (pick (higherSilhouette sil) (fun i => i)) (seq 0 (length sil)) O).
  destruct (pick_spec (higherSilhouette sil) (notLowerSilhouette sil) (fun i => i))
    with (l := seq 0 (length sil)) (init := O)
    as [Hr Hall | l1 i l2 Hsplit Hr Hi Hq Hbefore Hall];
    unfold higherSilhouette, notLowerSilhouette in *.
  - intros x. apply lt_irrefl.
  - intros x y z H1 H2. apply lt_trans with (get sil y); assumption.
  - intros x y z H1 H2. apply lt_le_trans with (get sil y); assumption.
  - intros x y. apply lt_not_le.
  - rewrite Hr. split.
    + intros j Hj. apply Hall. apply in_seq. lia.
    + intros j Hj. lia.
  - rewrite Hr. split.
    + intros j Hj. apply Hall. apply in_seq. lia.
    + intros j Hj. apply Hbefore.
      destruct (seq_split _ _ _ _ _ Hsplit) as [_ Hl1]. apply Hl1. lia.
Qed.

(** C3. Under the compromise method, for every non-empty [ks] with a
    silhouette array of the same length (any inertia array, any [silMinGap]):
    [suggestedK] is what [suggestElbow] returns for the sweep and
    [bestBySil] is the element of [ks] at the first position [bi] where the
    silhouette array is largest (no value of the array is greater than the
    one at [bi], and no value before [bi] is at least as large). With [i]
    and [j] the first indices of [suggestedK] and [bestBySil] in [ks]: if
    the two differ by at most 1 then [finalK] is the smaller of them;
    otherwise [finalK] is [bestBySil] when
    [silhouette[j] - silhouette[i] >= silMinGap] holds and [suggestedK] when
    it does not. *)
Theorem compromise_finalK {L : OrderLaws A}
        (silMinGap : num) (ks : list Z) (inertias sil : list num) :
  ks <> [] ->
  length sil = length ks ->
  let sel := selectK compromise silMinGap ks inertias sil in
  exists sK bK i j bi,
    suggestElbow ks inertias = Some sK /\ suggestedK sel = Some sK /\
    bi < length ks /\ nth_error ks bi = Some bK /\ bestBySil sel = Some bK /\
    (forall x, x < length sil -> lt (get sil bi) (get sil x) = false) /\
    (forall x, x < bi -> le (get sil bi) (get sil x) = false) /\
    indexOf ks sK = Some i /\ nth_error ks i = Some sK /\
    indexOf ks bK = Some j /\ nth_error ks j = Some bK /\
    finalK sel =
    Some (if (Z.abs (sK - bK) <=? 1)%Z then Z.min sK bK
          else if le silMinGap (sub (get sil j) (get sil i)) then bK else sK).
Proof.
  intros Hks Hlen sel.
  destruct (suggestElbow_defined ks inertias Hks) as [sK HsK].
  assert (Hsil : sil <> []) by (intros ->; destruct ks; [contradiction | discriminate]).
  pose proof (argmaxSilhouette_index sil Hsil) as Hbi.
  destruct (argmaxSilhouette_first_maximum sil) as [Hmax Hfirst].
  destruct (nth_error ks (argmaxSilhouette sil)) as [bK|] eqn:HbK;
    [|apply nth_error_None in HbK; lia].
  destruct (suggestElbow_in_ks _ _ _ HsK) as [n Hn].
  destruct (indexOf_of_nth_error _ _ _ Hn) as (i & Hi & Hi').
  destruct (indexOf_of_nth_error _ _ _ HbK) as (j & Hj & Hj').
  exists sK, bK, i, j, (argmaxSilhouette sil). unfold sel, selectK. simpl. rewrite HsK, HbK.
  unfold compromiseK, silhouetteAt. rewrite Hi, Hj.
  repeat split; auto. lia.
Qed.

End Selection.

(** ** [recommendForMember] *)

Section Recommend.

Context {A : Arith}.

Lemma insert_perm (x : Ranked) (l : list Ranked) : Permutation (insert x l) (x :: l).
Proof.
  induction l as [|y l IH]; simpl.
  - apply Permutation_refl.
  - destruct (lt zero (comparator x y)).
    + apply Permutation_trans with (y :: x :: l).
      * apply perm_skip. exact IH.
      * apply perm_swap.
    + apply Permutation_refl.
Qed.

Lemma sort_perm (l : list Ranked) : Permutation (sort l) l.
Proof.
  induction l as [|x l IH]; simpl.
  - apply perm_nil.
  - apply Permutation_trans with (x :: sort l).
    + apply insert_perm.
    + apply perm_skip. exact IH.
Qed.

Lemma rankCategories_perm (scores : Row) :
  Permutation (rankCategories scores) (categoryScores scores).
Proof. apply sort_perm. Qed.

Lemma rankCategories_score_in (scores : Row) (r : Ranked) :
  In r (rankCategories scores) -> In (s r) scores.
Proof.
  intros Hr. apply (Permutation_in _ (rankCategories_perm scores)) in Hr.
  unfold categoryScores in Hr. apply in_map_iff in Hr.
  destruct Hr as (i & <- & Hi). apply in_seq in Hi. simpl.
  unfold get. apply nth_In. lia.
Qed.

Lemma rankCategories_length (scores : Row) :
  length (rankCategories scores) = length scores.
Proof.
  rewrite (Permutation_length (rankCategories_perm scores)).
  unfold categoryScores. rewrite length_map, length_seq. reflexivity.
Qed.

Lemma filter_none {T : Type} (p : T -> bool) (l : list T) :
  (forall x, In x l -> p x = false) -> filter p l = [].
Proof.
  induction l as [|x l IH]; intros H; simpl.
  - reflexivity.
  - rewrite (H x (or_introl eq_refl)). apply IH.
    intros y Hy. apply H. right. exact Hy.
Qed.

(** C10. For a matrix of 10-column rows, an in-range [memberIndex] and
    [topK >= 1]: when no score of the member passes the test
    [s >= minThreshold], [recommendForMember] returns the first [topK]
    entries of the full ranking of the 10 categories (a rearrangement of the
    member's ten category scores), with the threshold ignored: the result
    has [min(topK, 10) >= 1] entries and none of its scores passes the
    test. *)
Theorem recommendForMember_threshold_fallback
        (mat : Matrix) (memberIndex topK : Z) (minThreshold : num) :
  Forall (fun row => length row = 10) mat ->
  (0 <= memberIndex < Z.of_nat (length mat))%Z ->
  (1 <= topK)%Z ->
  let scores := nth (Z.to_nat memberIndex) mat [] in
  (forall x, In x scores -> le minThreshold x = false) ->
  let ranked := rankCategories scores in
  let chosen := firstn (Z.to_nat topK) ranked in
  recommendForMember mat memberIndex topK minThreshold
  = Ok (map (fun r => (cat r, s r)) chosen)
  /\ Permutation ranked (categoryScores scores)
  /\ length ranked = 10
  /\ length chosen = Nat.min (Z.to_nat topK) 10
  /\ chosen <> []
  /\ (forall r, In r chosen -> le minThreshold (s r) = false).
Proof.
  intros Hmat Hidx Htop scores Hlow ranked chosen.
  assert (Hscores : length scores = 10).
  { rewrite Forall_forall in Hmat. apply Hmat. apply nth_In. lia. }
  assert (Hlen : length ranked = 10).
  { unfold ranked. rewrite rankCategories_length. exact Hscores. }
  assert (Hchosen : length chosen = Nat.min (Z.to_nat topK) 10).
  { unfold chosen. rewrite length_firstn, Hlen. reflexivity. }
  repeat split.
  - unfold recommendForMember. destruct mat as [|row0 rows]; [simpl in Hidx; lia|].
    assert (H0 : length row0 = 10) by (inversion Hmat; assumption).
    rewrite H0. simpl negb. cbv iota.
    destruct (Z.ltb_spec memberIndex 0) as [Hneg|_]; [lia|].
    destruct (Z.geb_spec memberIndex (Z.of_nat (length (row0 :: rows)))) as [Hge|_]; [lia|].
    simpl orb. cbv iota. fold scores. fold ranked.
    rewrite filter_none.
    + unfold slice0. destruct (Z.ltb_spec topK 0) as [Hneg|_]; [lia|]. reflexivity.
    + intros r Hr. apply Hlow. apply rankCategories_score_in. exact Hr.
  - apply rankCategories_perm.
  - exact Hlen.
  - exact Hchosen.
  - intros Hnil. rewrite Hnil in Hchosen. simpl in Hchosen. lia.
  - intros r Hr. apply Hlow. apply rankCategories_score_in.
    fold ranked. rewrite <- (firstn_skipn (Z.to_nat topK) ranked).
    apply in_or_app. left. exact Hr.
Qed.

(** ** Shape checks *)

(** What the guards do reject: [recommendForMember] and the shape check of
    [loadCsv] throw an [Error] on a matrix that is empty or whose first row
    does not have 10 columns. [kmeans] has no guard: reading
    [mat[0].length] of an empty matrix makes it throw a [TypeError]. *)
Lemma shape_checks_empty_or_first_row
        (mat : Matrix) (memberIndex topK : Z) (minThreshold : num)
        (K maxIter : nat) (seed : Z) (nInit : nat) :
  (mat = [] ->
   recommendForMember mat memberIndex topK minThreshold = Throw (Error "Matrix is empty")
   /\ loadCsvCheck mat = Throw (Error "CSV must be N×10 (no header).")
   /\ kmeans mat K maxIter seed nInit = Throw TypeError)
  /\ (forall row0 rows, mat = row0 :: rows -> length row0 <> 10 ->
      recommendForMember mat memberIndex topK minThreshold
      = Throw (Error "Expected 10 columns")
      /\ loadCsvCheck mat = Throw (Error "CSV must be N×10 (no header).")).
Proof.
  split.
  - intros ->. repeat split.
  - intros row0 rows -> Hlen. unfold recommendForMember, loadCsvCheck.
    apply Nat.eqb_neq in Hlen. rewrite Hlen. simpl. auto.
Qed.

End Recommend.

(** ** The program at concrete inputs (binary64) *)

Import Examples.

(** C1, counterexample. With [a = 0.5] and [b = 0.25] the program divides
    by [max(a, b) = 0.5] and returns -0.5; with the floor 1 inside the
    maximum the score would be -0.25. *)
Lemma silhouetteApprox_floor_counterexample :
  silhouetteApprox oneRow [O] twoCentroids = Ok (-0.5)%float
  /\ claimedSilhouette oneRow [O] twoCentroids = (-0.25)%float
  /\ silhouetteApprox oneRow [O] twoCentroids
     <> Ok (claimedSilhouette oneRow [O] twoCentroids).
Proof.
  split; [vm_compute; reflexivity|]. split; [vm_compute; reflexivity|].
  intros E.
  apply (f_equal (fun r => match r with
                           | Ok x => PrimFloat.eqb x (-0.5)%float
                           | Throw _ => false
                           end)) in E.
  vm_compute in E. discriminate E.
Qed.

(** The theorem for C1 at one row with [a = 0.5] and [b = 0.25]. *)
Lemma silhouetteApprox_mean_of_scores_witness :
  exists scores : list float,
    length scores = 1 /\
    silhouetteApprox oneRow [O] twoCentroids
    = Ok (PrimFloat.div (fold_left PrimFloat.add scores 0%float) 1%float).
Proof.
  destruct (silhouetteApprox_mean_of_scores (L:=F64_order) [0%float] [] [O] twoCentroids)
    as (scores & Hlen & Heq & _).
  - reflexivity.
  - repeat constructor.
  - exists scores. split; [exact Hlen | exact Heq].
Defined.

(** C2. With more clusters than rows (and at least one column and one
    iteration) [kmeans] does not return: the first assignment pass reads
    [centers[N]], which [idx.slice(0, K)] never created, and throws a
    [TypeError]. *)
Theorem kmeans_throws_when_K_exceeds_rows
        {A : Arith} (row0 : Row) (rows : Matrix) (K maxIter : nat) (seed : Z) (nInit : nat) :
  length row0 <> 0 -> maxIter <> 0 -> length (row0 :: rows) < K ->
  kmeans (row0 :: rows) K maxIter seed nInit = Throw TypeError.
Proof.
  intros HD Hm HK. unfold kmeans, multiStart.
  rewrite (runOnce_throws _ _ _ _ _ _ HD Hm HK). reflexivity.
Qed.

(** The theorem for C2 at two rows and three clusters. *)
Lemma kmeans_three_clusters_two_rows :
  kmeans (A:=F64) [[0%float]; [1%float]] 3 30 KMEANS_SEED 10 = Throw TypeError.
Proof.
  apply (kmeans_throws_when_K_exceeds_rows (A:=F64) [0%float] [[1%float]] 3 30 KMEANS_SEED 10);
    simpl; lia.
Defined.

(** C6. On eight rows at 0 and one row at 9, with K = 2 and the default
    seed, iteration limit and restarts, every one of the ten runs starts
    from two centres at 0, leaves every label at 0 in its first assignment
    pass and exits its loop for that reason after one iteration; [kmeans]
    returns labels all 0 with centroids 1 and 0, although row 0 is at squared
    distance 1 from its own centroid and 0 from the other. *)
Theorem kmeans_converged_labels_not_nearest :
  kmeans m9 2 30 KMEANS_SEED 10
  = Ok (mkKMeans (A:=F64) (repeat O 9) [[1%float]; [0%float]] 72%float)
  /\ Forall (fun t : nat =>
               exists st, runLoop 1 2 30 m9 (KMEANS_SEED + Z.of_nat t * 101)%Z = Ok st
                          /\ st_changed st = false /\ st_it st = 1
                          /\ st_labels st = repeat O 9)
            (seq 0 10)
  /\ dist2 (A:=F64) 1 (nth 0 m9 []) (nth_error [[1%float]; [0%float]] 0) = Ok 1%float
  /\ dist2 (A:=F64) 1 (nth 0 m9 []) (nth_error [[1%float]; [0%float]] 1) = Ok 0%float
  /\ PrimFloat.ltb 0 1 = true.
Proof.
  split; [vm_compute; reflexivity|].
  split.
  - repeat constructor;
      (eexists; split; [vm_compute; reflexivity | repeat split; reflexivity]).
  - repeat split; vm_compute; reflexivity.
Qed.

(** C8, counterexample. [silhouetteApprox] returns NaN, which is outside
    [-1, 1], when a cell of the matrix is NaN, when a row is shorter than the
    first one, and when the entries are finite but a distance overflows. The
    first case is reached from a CSV with a header line. *)
Lemma silhouetteApprox_nan_counterexample :
  silhouetteApprox (A:=F64) [[nan]] [O] [[0]; [1]]%float = Ok nan
  /\ silhouetteApprox (A:=F64) [[0; 0]; [0]]%float [O; O] [[0; 0]; [1; 1]]%float = Ok nan
  /\ silhouetteApprox (A:=F64) [[Z.ldexp 1 600]] [O] [[0]; [0]]%float = Ok nan
  /\ (PrimFloat.leb (-1) nan && PrimFloat.leb nan 1)%float = false
  /\ sweep withHeader KMEANS_SEED = Ok (ks9, repeat nan 9, repeat nan 9).
Proof.
  split; [vm_compute; reflexivity|]. split; [vm_compute; reflexivity|].
  split; [vm_compute; reflexivity|]. split; [vm_compute; reflexivity|].
  vm_compute. reflexivity.
Qed.


(** C9, counterexample. When every inertia is NaN (as the sweep over a CSV
    with a header line produces) no interior distance passes [d > bestD]
    and [suggestElbow] returns [ks[0]], which no interior position holds. *)
Lemma suggestElbow_nan_counterexample :
  length ks9 = 9 /\ length (repeat nan 9) = 9
  /\ suggestElbow (A:=F64) ks9 (repeat nan 9) = nth_error ks9 0
  /\ ~ (exists i, 1 <= i < length ks9 - 1
                  /\ suggestElbow (A:=F64) ks9 (repeat nan 9) = nth_error ks9 i)
  /\ sweep withHeader KMEANS_SEED = Ok (ks9, repeat nan 9, repeat nan 9).
Proof.
  split; [reflexivity|]. split; [reflexivity|]. split; [reflexivity|].
  split; [|vm_compute; reflexivity].
  intros (i & Hi & E). simpl in Hi.
  assert (Hcases : i = 1 \/ i = 2 \/ i = 3 \/ i = 4 \/ i = 5 \/ i = 6 \/ i = 7) by lia.
  vm_compute in E.
  destruct Hcases as [->|[->|[->|[->|[->|[->| ->]]]]]]; discriminate E.
Qed.

(** The theorem for C9 at a decreasing inertia curve over K = 2 .. 10. *)
Lemma suggestElbow_interior_witness :
  exists i, 1 <= i < 8 /\ suggestElbow (A:=F64) ks9 inertia9 = nth_error ks9 i.
Proof.
  destruct (suggestElbow_interior (L:=F64_order) ks9 inertia9) as [H _].
  - reflexivity.
  - simpl. lia.
  - destruct H as (i & Hi & Heq & _).
    + exists 1. split; [simpl; lia | vm_compute; reflexivity].
    + exists i. split; [exact Hi | exact Heq].
Defined.

(** The theorem for C3 at a sweep whose elbow is at K = 4 and whose
    silhouette is largest at K = 5: [suggestedK = 4], [bestBySil = 5], and the
    final K is 4 whatever the gap. *)
Lemma compromise_finalK_witness :
  let sel := selectK (A:=F64) compromise 0.0625%float ks9 inertia9 silhouette9 in
  suggestedK sel = Some 4%Z /\ bestBySil sel = Some 5%Z /\ finalK sel = Some 4%Z.
Proof.
  destruct (compromise_finalK (A:=F64) 0.0625%float ks9 inertia9 silhouette9)
    as (sK & bK & i & j & bi & HsE & HsK & _ & _ & HbK & _ & _ & Hi & _ & Hj & _ & H).
  - discriminate.
  - reflexivity.
  - vm_compute in HsE. injection HsE as <-.
    pose proof HbK as HbE. vm_compute in HbE. injection HbE as <-.
    vm_compute in Hi. injection Hi as <-.
    vm_compute in Hj. injection Hj as <-.
    cbv zeta. split; [exact HsK | split; [exact HbK | exact H]].
Defined.

(** The theorem for C4 at nine rows, two clusters and ten restarts. *)
Lemma kmeans_returns_first_lowest_inertia_witness :
  exists res, kmeans m9 2 30 KMEANS_SEED 10 = Ok res.
Proof.
  destruct (kmeans_returns_first_lowest_inertia (L:=F64_order)
              [0%float] (tl m9) 2 30 KMEANS_SEED 10)
    as [(t & r & _ & _ & H & _) | (t & e & _ & He & _)].
  - lia.
  - eexists. exact H.
  - destruct (runOnce_ok 1 2 30 m9 (KMEANS_SEED + Z.of_nat t * 101)%Z)
      as (r & Hr & _); [simpl; lia|].
    change (runOnce 1 2 30 m9 (KMEANS_SEED + Z.of_nat t * 101)%Z = Throw e) in He.
    rewrite Hr in He. discriminate He.
Defined.

(** The theorem for C5 at two rows labelled 0: centroid 1 stays [[7]]. *)
Lemma update_keeps_empty_cluster_centroid_witness :
  exists cs', update (A:=F64) 1 2 [[1%float]; [3%float]] [O; O] [[5%float]; [7%float]] = Ok cs'
              /\ nth_error cs' 1 = Some [7%float].
Proof.
  destruct (update_keeps_empty_cluster_centroid (A:=F64)
              1 2 [[1%float]; [3%float]] [O; O] [[5%float]; [7%float]]) as [Hkeep Hex].
  destruct Hex as [cs' Hcs']; [repeat constructor|].
  exists cs'. split; [exact Hcs'|].
  apply (Hkeep cs' 1 Hcs'). simpl. intros [H|[H|[]]]; discriminate H.
Defined.

(** The theorem for C10 at a member whose scores are all below the
    threshold 2. *)
Lemma recommendForMember_threshold_fallback_witness :
  recommendForMember member 0 3 2%float
  = Ok [(Some "Clothing"%string, 0.875%float);
        (Some "LuxuryGoods"%string, 0.75%float);
        (Some "Groceries"%string, 0.625%float)].
Proof.
  destruct (recommendForMember_threshold_fallback (A:=F64) member 0 3 2%float) as [H _].
  - repeat constructor.
  - simpl. lia.
  - lia.
  - simpl. intros x Hx.
    repeat (destruct Hx as [<-|Hx]; [vm_compute; reflexivity|]). destruct Hx.
  - exact H.
Defined.

(** * Proofs for the further functions *)

(** ** The Fisher-Yates shuffle and the initial centres *)

Lemma ToUint32_range (z : Z) : (0 <= ToUint32 z < 2 ^ 32)%Z.
Proof. unfold ToUint32. apply Z.mod_pos_bound. lia. Qed.

Lemma rngMulberry32_range (s : Z) : (0 <= snd (rngMulberry32 s) < 2 ^ 32)%Z.
Proof.
  unfold rngMulberry32. cbv zeta. cbn [snd]. unfold ushr at 1.
  rewrite Z.shiftr_0_r. apply ToUint32_range.
Qed.

Lemma nth_swap (idx : list nat) (i j k : nat) :
  k < length idx ->
  nth k (swap idx i j) O
  = nth (if Nat.eqb k i then j else if Nat.eqb k j then i else k) idx O.
Proof.
  intros Hk. unfold swap.
  set (g := fun k => if Nat.eqb k i then nth j idx O
                     else if Nat.eqb k j then nth i idx O else nth k idx O).
  rewrite (nth_indep _ O (g O)) by (rewrite length_map, length_seq; exact Hk).
  rewrite map_nth, seq_nth by exact Hk. unfold g. simpl.
  destruct (Nat.eqb k i); [reflexivity|]. destruct (Nat.eqb k j); reflexivity.
Qed.

Lemma swap_perm (idx : list nat) (i j : nat) :
  i < length idx -> j < length idx -> Permutation idx (swap idx i j).
Proof.
  intros Hi Hj. apply (Permutation_nth idx (swap idx i j) O).
  split; [apply swap_length|].
  exists (fun k => if Nat.eqb k i then j else if Nat.eqb k j then i else k).
  repeat split.
  - intros k Hk. destruct (Nat.eqb_spec k i); [lia|]. destruct (Nat.eqb_spec k j); lia.
  - intros a b Ha Hb.
    destruct (Nat.eqb_spec a i), (Nat.eqb_spec a j), (Nat.eqb_spec b i), (Nat.eqb_spec b j); lia.
  - intros k Hk. apply nth_swap. exact Hk.
Qed.

Lemma shuffle_perm (N : nat) (initSeed : Z) : Permutation (shuffle N initSeed) (seq 0 N).
Proof.
  unfold shuffle.
  assert (H : forall l (st : Z * list nat),
             (forall i, In i l -> i < length (snd st)) ->
             Permutation
               (snd (fold_left
                  (fun (st : Z * list nat) (i : nat) =>
                     let (s, idx) := st in
                     let (s', u) := rngMulberry32 s in
                     let j := Z.to_nat (u * (Z.of_nat i + 1) / 2 ^ 32)%Z in
                     (s', swap idx i j)) l st))
               (snd st)).
  { induction l as [|i l IH]; intros [s idx] Hl; cbn [fold_left]; [apply Permutation_refl|].
    pose proof (rngMulberry32_range s) as Hu.
    destruct (rngMulberry32 s) as [s' u]. cbn [snd] in *.
    assert (Hi : i < length idx) by (apply Hl; left; reflexivity).
    eapply Permutation_trans.
    - apply IH. cbn [snd]. rewrite swap_length. intros k Hk. apply Hl. right. exact Hk.
    - cbn [snd]. apply Permutation_sym, swap_perm; [exact Hi|].
      assert (Hj : (u * (Z.of_nat i + 1) / 2 ^ 32 < Z.of_nat i + 1)%Z).
      { apply Z.div_lt_upper_bound; [lia|]. nia. }
      assert (Hj0 : (0 <= u * (Z.of_nat i + 1) / 2 ^ 32)%Z).
      { apply Z.div_pos; [nia | lia]. }
      lia. }
  apply H. cbn [snd]. rewrite length_seq. intros i Hi.
  apply in_rev in Hi. apply in_seq in Hi. lia.
Qed.

Section Initialisation.

Context {A : Arith}.

Lemma initState_rows (K : nat) (mat : Matrix) (initSeed : Z) :
  exists idx : list nat,
    NoDup idx /\
    length idx = Nat.min K (length mat) /\
    Forall (fun i => i < length mat) idx /\
    st_centers (initState K mat initSeed) = map (fun i => nth i mat []) idx /\
    st_labels (initState K mat initSeed) = repeat O (length mat).
Proof.
  exists (firstn K (shuffle (length mat) initSeed)).
  pose proof (shuffle_perm (length mat) initSeed) as Hp.
  assert (Hnd : NoDup (shuffle (length mat) initSeed)).
  { apply (Permutation_NoDup (Permutation_sym Hp)). apply seq_NoDup. }
  repeat split.
  - rewrite <- (firstn_skipn K (shuffle (length mat) initSeed)) in Hnd.
    apply NoDup_app_remove_r in Hnd. exact Hnd.
  - rewrite length_firstn, shuffle_length. reflexivity.
  - apply Forall_forall. intros i Hi.
    assert (Hin : In i (shuffle (length mat) initSeed)).
    { rewrite <- (firstn_skipn K (shuffle (length mat) initSeed)). apply in_or_app. left. exact Hi. }
    apply (Permutation_in _ Hp) in Hin. apply in_seq in Hin. lia.
Qed.

(** X6. A run of [kmeans] starts from [min(K, N)] different rows: the
    initial centres are the rows at that many pairwise different indices below
    [N] (the Fisher-Yates loop of [runOnce] yields a permutation of the row
    indices), and every initial label is 0. *)
Theorem initial_centres_are_distinct_rows (K : nat) (mat : Matrix) (initSeed : Z) :
  exists idx : list nat,
    NoDup idx /\
    length idx = Nat.min K (length mat) /\
    Forall (fun i => i < length mat) idx /\
    st_centers (initState K mat initSeed) = map (fun i => nth i mat []) idx /\
    st_labels (initState K mat initSeed) = repeat O (length mat).
Proof. apply initState_rows. Qed.

End Initialisation.

(** ** [kmeans] with at most as many clusters as rows *)

Section Clustering.

Context {A : Arith}.

Lemma Forall_set_nth {T : Type} (P : T -> Prop) (i : nat) (v : T) (xs : list T) :
  P v -> Forall P xs -> Forall P (set_nth i v xs).
Proof.
  intros Hv. revert i. induction xs as [|x xs IH]; intros [|i] H; simpl; auto.
  - inversion H; subst. constructor; assumption.
  - inversion H; subst. constructor; auto.
Qed.

Lemma addRow_length (D : nat) (acc row : Row) : length (addRow D acc row) = D.
Proof. unfold addRow. rewrite length_map, length_seq. reflexivity. Qed.

Lemma foldM_accumulate_shape (D : nat) (ps : list (nat * Row)) (acc acc' : list Row * list nat) :
  foldM (accumulateStep D) ps acc = Ok acc' ->
  Forall (fun r => length r = D) (fst acc) ->
  Forall (fun r => length r = D) (fst acc').
Proof.
  revert acc. induction ps as [|p ps IH]; intros acc H Hacc; simpl in H.
  - injection H as <-. exact Hacc.
  - destruct (accumulateStep D acc p) as [acc1|e] eqn:E; [|discriminate].
    simpl in H. apply (IH acc1 H).
    destruct p as [l row]. unfold accumulateStep in E. destruct D as [|D].
    + injection E as <-. exact Hacc.
    + destruct (nth_error (fst acc) l) as [sl|]; [|discriminate].
      injection E as <-. simpl. apply Forall_set_nth; [apply addRow_length | exact Hacc].
Qed.

Lemma accumulate_shape (D K : nat) (rows : Matrix) (ls : list nat)
      (sums : list Row) (counts : list nat) :
  accumulate D K rows ls = Ok (sums, counts) ->
  length sums = K /\ Forall (fun r => length r = D) sums.
Proof.
  unfold accumulate. intros H. split.
  - assert (Hl : forall ps acc acc', foldM (accumulateStep D) ps acc = Ok acc' ->
                   length (fst acc') = length (fst acc)).
    { induction ps as [|p ps IH]; intros acc acc' H'; simpl in H'.
      - injection H' as <-. reflexivity.
      - destruct (accumulateStep D acc p) as [acc1|e] eqn:E; [|discriminate].
        simpl in H'. rewrite (IH _ _ H').
        apply (accumulateStep_counts _ _ _ _ E). }
    apply Hl in H. simpl in H. rewrite repeat_length in H. exact H.
  - apply (foldM_accumulate_shape _ _ _ _ H). simpl.
    apply Forall_forall. intros r Hr. apply repeat_spec in Hr. subst r. apply repeat_length.
Qed.

Lemma foldM_accumulate_counts_length (D : nat) (ps : list (nat * Row))
      (acc acc' : list Row * list nat) :
  foldM (accumulateStep D) ps acc = Ok acc' -> length (snd acc') = length (snd acc).
Proof.
  revert acc. induction ps as [|p ps IH]; intros acc H; simpl in H.
  - injection H as <-. reflexivity.
  - destruct (accumulateStep D acc p) as [acc1|e] eqn:E; [|discriminate].
    simpl in H. rewrite (IH _ H).
    destruct (accumulateStep_counts _ _ _ _ E) as [-> _]. apply set_nth_length.
Qed.

Lemma recenter_fold_shape (D : nat) (mat : Matrix) (sums : list Row) (counts : list nat)
      (l : list nat) (cs : list Row) :
  Forall (fun r => length r = D) sums ->
  (forall c, In c l -> c < length sums) ->
  Forall (rowOrWidth D mat) cs ->
  Forall (rowOrWidth D mat) (fold_left (recenterStep sums counts) l cs).
Proof.
  intros Hs. revert cs. induction l as [|c l IH]; intros cs Hl Hcs; simpl; [exact Hcs|].
  apply IH.
  - intros x Hx. apply Hl. right. exact Hx.
  - unfold recenterStep. destruct (nth c counts O); [exact Hcs|].
    apply Forall_set_nth; [|exact Hcs]. right. rewrite length_map.
    rewrite Forall_forall in Hs. apply Hs. apply nth_In. apply Hl. left. reflexivity.
Qed.

Lemma update_shape (D K : nat) (mat rows : Matrix) (ls : list nat) (cs cs' : list Row) :
  update D K rows ls cs = Ok cs' ->
  Forall (rowOrWidth D mat) cs -> Forall (rowOrWidth D mat) cs'.
Proof.
  unfold update. intros H Hcs.
  destruct (accumulate D K rows ls) as [[sums counts]|e] eqn:E; [|discriminate].
  simpl in H. injection H as <-.
  destruct (accumulate_shape _ _ _ _ _ _ E) as [Hlen Hs].
  unfold recenter. apply recenter_fold_shape; auto.
  intros c Hc. apply in_seq in Hc. lia.
Qed.

Lemma loop_shape (fuel D K : nat) (mat rows : Matrix) (st st' : LoopState) :
  loop fuel D K rows st = Ok st' ->
  Forall (rowOrWidth D mat) (st_centers st) ->
  Forall (rowOrWidth D mat) (st_centers st').
Proof.
  revert st. induction fuel as [|fuel IH]; intros st H Hst; simpl in H.
  - injection H as <-. exact Hst.
  - destruct (st_changed st); [|injection H as <-; exact Hst].
    destruct (assign D K (st_centers st) rows (st_labels st)) as [[ls ch]|e]; [|discriminate].
    simpl in H.
    destruct (update D K rows ls (st_centers st)) as [cs|e] eqn:E; [|discriminate].
    simpl in H. apply (IH _ H). simpl. apply (update_shape _ _ _ _ _ _ _ E Hst).
Qed.

Lemma runOnce_shape (D K maxIter : nat) (mat : Matrix) (initSeed : Z) (r : RunResult) :
  runOnce D K maxIter mat initSeed = Ok r ->
  Forall (rowOrWidth D mat) (centers r).
Proof.
  unfold runOnce, runLoop. intros H.
  destruct (loop maxIter D K mat (initState K mat initSeed)) as [st|e] eqn:E; [|discriminate].
  simpl in H.
  destruct (sumInertia D mat (st_labels st) (st_centers st)) as [i|e]; [|discriminate].
  simpl in H. injection H as <-. simpl.
  apply (loop_shape _ _ _ _ _ _ _ E).
  destruct (initState_rows K mat initSeed) as (idx & _ & _ & Hidx & -> & _).
  apply Forall_forall. intros c Hc. apply in_map_iff in Hc. destruct Hc as (k & <- & Hk).
  left. apply nth_In. rewrite Forall_forall in Hidx. apply Hidx, Hk.
Qed.

(** What [multiStart] returns is the result of one of its runs. *)
Lemma multiStart_in (run : Z -> result RunResult) (seed : Z) (nInit : nat) (r : RunResult) :
  multiStart run seed nInit = Ok r ->
  exists t, t < Nat.max 1 nInit /\ run (seed + Z.of_nat t * 101)%Z = Ok r.
Proof.
  unfold multiStart. intros H.
  destruct (run seed) as [r0|e] eqn:E0; [|discriminate]. simpl in H.
  assert (Hg : forall l best,
             foldM (fun best t =>
                      trial <- run (seed + Z.of_nat t * 101)%Z ;;
                      Ok (if lt (inertia trial) (inertia best) then trial else best)) l best
             = Ok r ->
             r = best \/ exists t, In t l /\ run (seed + Z.of_nat t * 101)%Z = Ok r).
  { induction l as [|t l IH]; intros best Hl; simpl in Hl.
    - injection Hl as <-. left. reflexivity.
    - destruct (run (seed + Z.of_nat t * 101)%Z) as [trial|e] eqn:Et; [|discriminate].
      simpl in Hl. destruct (IH _ Hl) as [Hr | (t' & Ht' & Hr)].
      + destruct (lt (inertia trial) (inertia best)).
        * right. exists t. split; [left; reflexivity|]. rewrite Et, Hr. reflexivity.
        * left. exact Hr.
      + right. exists t'. split; [right; exact Ht' | exact Hr]. }
  destruct (Hg _ _ H) as [-> | (t & Ht & Hr)].
  - exists 0. split; [lia|]. simpl. rewrite Z.add_0_r. exact E0.
  - exists t. apply in_seq in Ht. split; [lia | exact Hr].
Qed.

Lemma multiStart_ok (run : Z -> result RunResult) (seed : Z) (nInit : nat) :
  (forall s, exists r, run s = Ok r) -> exists r, multiStart run seed nInit = Ok r.
Proof.
  intros Hrun. unfold multiStart. destruct (Hrun seed) as [r0 ->]. simpl.
  generalize (seq 1 (nInit - 1)). intros l. revert r0.
  induction l as [|t l IH]; intros best; simpl.
  - eexists. reflexivity.
  - destruct (Hrun (seed + Z.of_nat t * 101)%Z) as [trial ->]. simpl. apply IH.
Qed.

Lemma kmeans_ok (mat : Matrix) (K maxIter : nat) (seed : Z) (nInit : nat) :
  1 <= K <= length mat ->
  exists r,
    kmeans mat K maxIter seed nInit = Ok r
    /\ length (km_labels r) = length mat
    /\ Forall (fun l => l < K) (km_labels r)
    /\ length (centroids r) = K
    /\ Forall (fun c => In c mat \/ length c = length (hd [] mat)) (centroids r).
Proof.
  intros HK. unfold kmeans. destruct mat as [|row0 rows]; [simpl in HK; lia|].
  set (mat := row0 :: rows) in *. simpl hd.
  destruct (multiStart_ok (runOnce (length row0) K maxIter mat) seed nInit) as [r Hr].
  { intros s. destruct (runOnce_ok (length row0) K maxIter mat s HK) as (r & Hr & _).
    exists r. exact Hr. }
  rewrite Hr. simpl. eexists. split; [reflexivity|]. simpl.
  destruct (multiStart_in _ _ _ _ Hr) as (t & _ & Ht).
  destruct (runOnce_ok (length row0) K maxIter mat (seed + Z.of_nat t * 101)%Z HK)
    as (r' & Hr' & H1 & H2 & H3).
  rewrite Ht in Hr'. injection Hr' as <-.
  repeat split; auto.
  apply (runOnce_shape _ _ _ _ _ _ Ht).
Qed.

(** X8. With [1 <= K <= N], [N] the number of rows, [kmeans] returns,
    whatever the rows hold and whatever the iteration limit, the seed and the
    number of restarts are: one label below [K] per row, and [K] centroids,
    each of them a row of the matrix or an array with as many columns as the
    first row. *)
Theorem kmeans_returns_a_clustering
        (mat : Matrix) (K maxIter : nat) (seed : Z) (nInit : nat) :
  1 <= K <= length mat ->
  exists r,
    kmeans mat K maxIter seed nInit = Ok r
    /\ length (km_labels r) = length mat
    /\ Forall (fun l => l < K) (km_labels r)
    /\ length (centroids r) = K
    /\ Forall (fun c => In c mat \/ length c = length (hd [] mat)) (centroids r).
Proof. apply kmeans_ok. Qed.

End Clustering.

Lemma kmeans_returns_a_clustering_witness :
  exists r,
    kmeans Examples.m3 2 30 KMEANS_SEED 10 = Ok r
    /\ length (km_labels r) = 3
    /\ Forall (fun l => l < 2) (km_labels r)
    /\ length (centroids r) = 2
    /\ Forall (fun c => In c Examples.m3 \/ length c = 1) (centroids r).
Proof.
  apply (kmeans_returns_a_clustering Examples.m3 2 30 KMEANS_SEED 10).
  simpl. lia.
Defined.

(** ** The update step on a cluster with members *)

Section UpdateMean.

Context {A : Arith}.

Lemma nth_error_set_nth_same {T : Type} (i : nat) (v : T) (xs : list T) :
  i < length xs -> nth_error (set_nth i v xs) i = Some v.
Proof.
  revert i. induction xs as [|x xs IH]; intros [|i] H; simpl in *; try lia; auto.
  apply IH. lia.
Qed.

Lemma nth_set_nth_same {T : Type} (i : nat) (v d : T) (xs : list T) :
  i < length xs -> nth i (set_nth i v xs) d = v.
Proof.
  revert i. induction xs as [|x xs IH]; intros [|i] H; simpl in *; try lia; auto.
  apply IH. lia.
Qed.

Lemma get_map_seq (g : nat -> num) (D d : nat) :
  d < D -> get (map g (seq 0 D)) d = g d.
Proof.
  intros Hd. unfold get.
  rewrite (nth_indep _ NaN (g O)) by (rewrite length_map, length_seq; exact Hd).
  rewrite map_nth, seq_nth by exact Hd. reflexivity.
Qed.

Lemma foldM_accumulate_sums (D : nat) (c : nat) (ps : list (nat * Row))
      (acc acc' : list Row * list nat) (g : nat -> num) :
  foldM (accumulateStep D) ps acc = Ok acc' ->
  nth_error (fst acc) c = Some (map g (seq 0 D)) ->
  c < length (snd acc) ->
  let ms := map snd (filter (fun p => Nat.eqb (fst p) c) ps) in
  nth_error (fst acc') c = Some (map (fun d => columnSum d ms (g d)) (seq 0 D))
  /\ nth c (snd acc') O = nth c (snd acc) O + length ms.
Proof.
  revert acc g. induction ps as [|p ps IH]; intros acc g H Hc Hlen; simpl in H.
  - injection H as <-. simpl. split; [exact Hc | lia].
  - destruct (accumulateStep D acc p) as [acc1|e] eqn:E; [|discriminate].
    simpl in H. destruct p as [l row]. cbn [filter fst].
    destruct (accumulateStep_counts _ _ _ _ E) as [Hcounts Hlen1]. cbn [fst] in Hcounts.
    destruct (Nat.eqb_spec l c) as [->|Hne].
    + cbn [map snd length columnSum fold_left].
      destruct (IH acc1 (fun d => add (g d) (get row d)) H) as [H1 H2].
      * unfold accumulateStep in E. destruct D as [|D].
        -- injection E as <-. exact Hc.
        -- rewrite Hc in E. injection E as <-. cbn [fst].
           rewrite nth_error_set_nth_same.
           ++ f_equal. unfold addRow. apply map_ext_in. intros d Hd.
              apply in_seq in Hd.
              change (g 0 :: map g (seq 1 D)) with (map g (seq 0 (S D))).
              rewrite get_map_seq by lia. reflexivity.
           ++ apply nth_error_Some. rewrite Hc. discriminate.
      * rewrite Hcounts, set_nth_length. exact Hlen.
      * split; [exact H1|]. rewrite H2, Hcounts, nth_set_nth_same by exact Hlen. lia.
    + destruct (IH acc1 g H) as [H1 H2].
      * unfold accumulateStep in E. destruct D as [|D].
        -- injection E as <-. exact Hc.
        -- destruct (nth_error (fst acc) l) as [sl|]; [|discriminate].
           injection E as <-. cbn [fst]. rewrite nth_error_set_nth_other by exact Hne. exact Hc.
      * rewrite Hcounts, set_nth_length. exact Hlen.
      * split; [exact H1|]. rewrite H2, Hcounts, nth_set_nth_other by exact Hne. reflexivity.
Qed.

Lemma nth_error_repeat {T : Type} (x : T) (n i : nat) :
  i < n -> nth_error (repeat x n) i = Some x.
Proof.
  revert i. induction n as [|n IH]; intros [|i] H; simpl; try lia; auto.
  apply IH. lia.
Qed.

Lemma recenter_fold_at (sums : list Row) (counts : list nat) (c n : nat)
      (l : list nat) (cs : list Row) :
  nth c counts O = S n -> c < length cs -> In c l ->
  nth_error (fold_left (recenterStep sums counts) l cs) c
  = Some (map (fun x => div x (ofZ (Z.of_nat (S n)))) (nth c sums [])).
Proof.
  intros Hn. revert cs. induction l as [|k l IH]; intros cs Hc Hin; [destruct Hin|].
  simpl.
  assert (Hstep : length (recenterStep sums counts cs k) = length cs).
  { unfold recenterStep. destruct (nth k counts O); [reflexivity | apply set_nth_length]. }
  destruct (in_dec Nat.eq_dec c l) as [Hl|Hl].
  - apply IH; [rewrite Hstep; exact Hc | exact Hl].
  - destruct Hin as [->|Hin]; [|contradiction].
    assert (Hkeep : forall l' cs', ~ In c l' ->
              nth_error (fold_left (recenterStep sums counts) l' cs') c = nth_error cs' c).
    { induction l' as [|k l' IH']; intros cs' Hni; simpl; [reflexivity|].
      rewrite IH' by (intros Hx; apply Hni; right; exact Hx).
      unfold recenterStep. destruct (nth k counts O); [reflexivity|].
      apply nth_error_set_nth_other. intros ->. apply Hni. left. reflexivity. }
    rewrite Hkeep by exact Hl.
    unfold recenterStep. rewrite Hn. apply nth_error_set_nth_same. exact Hc.
Qed.

(** X7. In an update step with one label per row, a cluster [c] that has
    a member gets as its centroid the component-wise mean of its members:
    in each of the [D] columns, the sum of the members' values (added in row
    order, from 0) divided by their number. *)
Theorem update_sets_centroid_to_mean
        (D K : nat) (rows : Matrix) (ls : list nat) (cs cs' : list Row) (c : nat) :
  update D K rows ls cs = Ok cs' ->
  length ls = length rows ->
  c < K -> c < length cs ->
  In c ls ->
  members c rows ls <> []
  /\ nth_error cs' c = Some (meanRow D (members c rows ls)).
Proof.
  intros H Hlen HcK Hc Hin. unfold update in H.
  destruct (accumulate D K rows ls) as [[sums counts]|e] eqn:E; [|discriminate].
  simpl in H. injection H as <-. unfold accumulate in E.
  destruct (foldM_accumulate_sums D c _ _ _ (fun _ => zero) E) as [Hs Hn].
  - simpl. rewrite nth_error_repeat by exact HcK. f_equal.
    clear. induction D as [|D IH]; [reflexivity|].
    rewrite seq_S, map_app, <- IH. simpl.
    clear. induction D as [|D IH]; simpl; [reflexivity | f_equal; exact IH].
  - simpl. rewrite repeat_length. exact HcK.
  - cbn [fst snd] in Hs, Hn. fold (members c rows ls) in Hs, Hn.
    rewrite nth_repeat_O in Hn. simpl in Hn.
    assert (Hne : members c rows ls <> []).
    { unfold members. apply In_nth with (d := O) in Hin. destruct Hin as (i & Hi & Hnth).
      intros Hnil.
      assert (Hp : In (c, nth i rows []) (filter (fun p => Nat.eqb (fst p) c) (combine ls rows))).
      { apply filter_In. split; [|simpl; apply Nat.eqb_refl].
        rewrite <- Hnth. rewrite <- (combine_nth ls rows i O []) by exact Hlen.
        apply nth_In. rewrite length_combine. lia. }
      apply (in_map snd) in Hp. rewrite Hnil in Hp. destruct Hp. }
    split; [exact Hne|].
    destruct (length (members c rows ls)) as [|n] eqn:En.
    { destruct (members c rows ls); [contradiction | discriminate]. }
    unfold recenter.
    rewrite (recenter_fold_at sums counts c n) by (auto; apply in_seq; lia).
    f_equal. rewrite (nth_error_nth _ _ _ Hs). unfold meanRow.
    rewrite map_map, En. reflexivity.
Qed.

End UpdateMean.

Lemma update_sets_centroid_to_mean_witness :
  members 0 twoRows [O; O] <> []
  /\ nth_error (A:=Row (A:=F64)) [[2%float]; [7%float]] 0
     = Some (meanRow 1 (members 0 twoRows [O; O])).
Proof.
  apply (update_sets_centroid_to_mean (A:=F64) 1 2 twoRows [O; O]
           [[5%float]; [7%float]] [[2%float]; [7%float]] 0).
  - vm_compute. reflexivity.
  - reflexivity.
  - lia.
  - simpl. lia.
  - simpl. auto.
Defined.

(** ** Seeds *)

Lemma ToUint32_mod (z z' : Z) :
  (z mod 2 ^ 32 = z' mod 2 ^ 32)%Z -> ToUint32 z = ToUint32 z'.
Proof. intros H. exact H. Qed.

Lemma ToInt32_mod (z z' : Z) :
  (z mod 2 ^ 32 = z' mod 2 ^ 32)%Z -> ToInt32 z = ToInt32 z'.
Proof. intros H. unfold ToInt32. rewrite H. reflexivity. Qed.

Lemma mix_mod (t t' : Z) :
  (t mod 2 ^ 32 = t' mod 2 ^ 32)%Z ->
  Math_imul (bxor t (ushr t 15)) (bor t 1) = Math_imul (bxor t' (ushr t' 15)) (bor t' 1).
Proof.
  intros H. unfold bxor, bor, ushr.
  rewrite (ToInt32_mod _ _ H), (ToUint32_mod _ _ H). reflexivity.
Qed.

Lemma rngMulberry32_mod (s s' : Z) :
  (s mod 2 ^ 32 = s' mod 2 ^ 32)%Z ->
  (fst (rngMulberry32 s) mod 2 ^ 32 = fst (rngMulberry32 s') mod 2 ^ 32)%Z
  /\ snd (rngMulberry32 s) = snd (rngMulberry32 s').
Proof.
  intros H.
  assert (H' : ((s + 1831565813) mod 2 ^ 32 = (s' + 1831565813) mod 2 ^ 32)%Z).
  { rewrite (Z.add_mod s), (Z.add_mod s'), H by lia. reflexivity. }
  unfold rngMulberry32. cbv zeta. cbn [fst snd]. split; [exact H'|].
  rewrite (mix_mod _ _ H'). reflexivity.
Qed.

Lemma shuffle_mod (N : nat) (s s' : Z) :
  (s mod 2 ^ 32 = s' mod 2 ^ 32)%Z -> shuffle N s = shuffle N s'.
Proof.
  intros H. unfold shuffle. generalize (seq 0 N) as idx. generalize (rev (seq 1 (N - 1))) as l.
  intros l. revert s s' H. induction l as [|i l IH]; intros s s' H idx; cbn [fold_left].
  - reflexivity.
  - destruct (rngMulberry32_mod s s' H) as [H1 H2].
    destruct (rngMulberry32 s) as [t u], (rngMulberry32 s') as [t' u'].
    cbn [fst snd] in H1, H2. subst u'. apply IH. exact H1.
Qed.

Section Seeds.

Context {A : Arith}.

Lemma runOnce_mod (D K maxIter : nat) (mat : Matrix) (s s' : Z) :
  (s mod 2 ^ 32 = s' mod 2 ^ 32)%Z ->
  runOnce D K maxIter mat s = runOnce D K maxIter mat s'.
Proof.
  intros H. unfold runOnce, runLoop, initState.
  rewrite (shuffle_mod _ s s' H). reflexivity.
Qed.

Lemma foldM_ext {T S : Type} (f g : S -> T -> result S) (l : list T) (s : S) :
  (forall a x, In x l -> f a x = g a x) -> foldM f l s = foldM g l s.
Proof.
  revert s. induction l as [|x l IH]; intros s H; simpl; [reflexivity|].
  rewrite (H s x (or_introl eq_refl)). destruct (g s x) as [s'|e]; simpl; [|reflexivity].
  apply IH. intros a y Hy. apply H. right. exact Hy.
Qed.

Lemma multiStart_mod (run : Z -> result RunResult) (seed seed' : Z) (nInit : nat) :
  (forall s s', (s mod 2 ^ 32 = s' mod 2 ^ 32)%Z -> run s = run s') ->
  (seed mod 2 ^ 32 = seed' mod 2 ^ 32)%Z ->
  multiStart run seed nInit = multiStart run seed' nInit.
Proof.
  intros Hrun H. unfold multiStart. rewrite (Hrun seed seed' H).
  destruct (run seed') as [best|e]; simpl; [|reflexivity].
  apply foldM_ext. intros a t _. rewrite (Hrun (seed + Z.of_nat t * 101)%Z
                                                (seed' + Z.of_nat t * 101)%Z).
  - reflexivity.
  - rewrite (Z.add_mod seed), (Z.add_mod seed'), H by lia. reflexivity.
Qed.

(** X9. For integer seeds in the range where the additions of the code are
    exact (every restart seed and every state of the generator stays below
    2^53 in absolute value), [kmeans] depends on its seed only modulo 2^32:
    two such seeds that differ by a multiple of 2^32 give the same result. *)
Theorem kmeans_uses_seed_modulo_2_32
        (mat : Matrix) (K maxIter : nat) (seed seed' : Z) (nInit : nat) :
  safeSeed (length mat) nInit seed ->
  safeSeed (length mat) nInit seed' ->
  (seed mod 2 ^ 32 = seed' mod 2 ^ 32)%Z ->
  kmeans mat K maxIter seed nInit = kmeans mat K maxIter seed' nInit.
Proof.
  intros _ _ H. unfold kmeans. destruct mat as [|row0 rows]; [reflexivity|].
  rewrite (multiStart_mod _ seed seed' nInit); [reflexivity | | exact H].
  intros s s'. apply runOnce_mod.
Qed.

End Seeds.

Lemma kmeans_uses_seed_modulo_2_32_witness :
  kmeans Examples.m9 2 30 KMEANS_SEED 10 = kmeans Examples.m9 2 30 (KMEANS_SEED + 2 ^ 32) 10.
Proof.
  apply (kmeans_uses_seed_modulo_2_32 Examples.m9 2 30 KMEANS_SEED (KMEANS_SEED + 2 ^ 32) 10).
  - unfold safeSeed. simpl. lia.
  - unfold safeSeed. simpl. lia.
  - reflexivity.
Defined.

(** ** [parseCSV] *)

Lemma splitLines_nonempty (s : jsstring) : splitLines s <> [].
Proof.
  induction s as [|c s IH]; simpl; [discriminate|].
  destruct (c =? LF)%N; [discriminate|].
  destruct ((c =? CR)%N && match s with c' :: _ => (c' =? LF)%N | [] => false end); [exact IH|].
  destruct (splitLines s); discriminate.
Qed.

Lemma splitCommas_length (s : jsstring) :
  length (splitCommas s) = S (occurrences COMMA s).
Proof.
  unfold occurrences. induction s as [|c s IH]; [reflexivity|].
  cbn [splitCommas count_occ].
  destruct (N.eqb_spec c COMMA) as [->|Hne].
  - destruct (N.eq_dec COMMA COMMA) as [_|Hx]; [|contradiction]. simpl. rewrite IH. reflexivity.
  - destruct (N.eq_dec c COMMA) as [Hx|_]; [contradiction|].
    destruct (splitCommas s) as [|p r]; [discriminate|]. simpl in *. exact IH.
Qed.

Lemma splitLines_length (s : jsstring) :
  length (splitLines s) = S (occurrences LF s).
Proof.
  unfold occurrences. induction s as [|c s IH]; [reflexivity|].
  cbn [splitLines count_occ].
  destruct (N.eqb_spec c LF) as [->|Hne].
  - destruct (N.eq_dec LF LF) as [_|Hx]; [|contradiction]. simpl. rewrite IH. reflexivity.
  - destruct (N.eq_dec c LF) as [Hx|_]; [contradiction|].
    destruct ((c =? CR)%N && match s with c' :: _ => (c' =? LF)%N | [] => false end);
      [exact IH|].
    destruct (splitLines s) as [|p r]; [discriminate|]. simpl in *. exact IH.
Qed.

Lemma splitLines_first (s : jsstring) :
  occurrences COMMA (hd [] (splitLines s)) = occurrences COMMA (upToLF s).
Proof.
  unfold occurrences. induction s as [|c s IH]; [reflexivity|].
  cbn [splitLines upToLF].
  destruct (N.eqb_spec c LF) as [->|Hne]; [reflexivity|].
  destruct (N.eqb_spec c CR) as [->|Hcr]; cbn [andb].
  - destruct s as [|c' s'].
    + reflexivity.
    + destruct (N.eqb_spec c' LF) as [->|Hne'].
      * cbn [splitLines upToLF]. simpl. reflexivity.
      * pose proof (splitLines_nonempty (c' :: s')) as Hn.
        destruct (splitLines (c' :: s')) as [|p r]; [contradiction|].
        cbn [hd count_occ] in *. rewrite IH. reflexivity.
  - pose proof (splitLines_nonempty s) as Hn.
    destruct (splitLines s) as [|p r]; [contradiction|].
    cbn [hd count_occ] in *. rewrite IH. reflexivity.
Qed.

Section ParseCSVShape.

Context {A : Arith}.
Variable Number : jsstring -> num.

Lemma parseCSV_shape (text : jsstring) :
  let m := parseCSV Number text in
  length m = S (occurrences LF (trim text))
  /\ Forall (fun row => row <> []) m
  /\ length (hd [] m) = S (occurrences COMMA (upToLF (trim text))).
Proof.
  intros m. unfold m, parseCSV. repeat split.
  - rewrite length_map. apply splitLines_length.
  - apply Forall_forall. intros row Hrow. apply in_map_iff in Hrow.
    destruct Hrow as (line & <- & _). intros Hnil.
    apply (f_equal (@length _)) in Hnil. rewrite length_map, splitCommas_length in Hnil.
    discriminate.
  - pose proof (splitLines_nonempty (trim text)) as Hn.
    rewrite <- splitLines_first.
    destruct (splitLines (trim text)) as [|line r]; [contradiction|].
    cbn [map hd]. rewrite length_map. apply splitCommas_length.
Qed.

(** X1. [parseCSV] never returns an empty matrix nor an empty row: on any
    text it returns one row more than the trimmed text has line feeds (one
    row for the empty text), every row has at least one cell, and the first
    row has one cell more than the first line of the trimmed text has
    commas. *)
Theorem parseCSV_rows_and_cells (text : jsstring) :
  let m := parseCSV Number text in
  length m = S (occurrences LF (trim text))
  /\ Forall (fun row => row <> []) m
  /\ length (hd [] m) = S (occurrences COMMA (upToLF (trim text))).
Proof. apply parseCSV_shape. Qed.

(** X2. The shape check of [loadCsv] accepts the matrix that [parseCSV]
    makes of a text exactly when the first line of the trimmed text has nine
    commas, whatever the cells hold and whatever the other lines are (its
    test for an empty matrix never fires). *)
Theorem loadCsv_accepts_nine_commas (text : jsstring) :
  loadCsvCheck (parseCSV Number text) = Ok tt
  <-> occurrences COMMA (upToLF (trim text)) = 9.
Proof.
  destruct (parseCSV_shape text) as (Hlen & _ & Hfirst). cbv zeta in *.
  unfold loadCsvCheck.
  destruct (parseCSV Number text) as [|row0 rows]; [simpl in Hlen; discriminate|].
  cbn [hd] in Hfirst. rewrite Hfirst.
  destruct (Nat.eqb_spec (S (occurrences COMMA (upToLF (trim text)))) 10) as [E|E]; simpl.
  - split; [intros _; lia | reflexivity].
  - split; [discriminate | intros H; lia].
Qed.

End ParseCSVShape.

Lemma trimStart_spaces (ws s : jsstring) :
  forallb isWhiteSpace ws = true -> trimStart (ws ++ s) = trimStart s.
Proof.
  induction ws as [|c ws IH]; intros H; simpl in *; [reflexivity|].
  apply andb_true_iff in H. destruct H as [Hc Hws]. rewrite Hc. apply IH, Hws.
Qed.

Lemma trimStart_solid (c : N) (s : jsstring) :
  isWhiteSpace c = false -> trimStart (c :: s) = c :: s.
Proof. intros H. simpl. rewrite H. reflexivity. Qed.

Lemma forallb_rev {T : Type} (p : T -> bool) (l : list T) :
  forallb p (rev l) = forallb p l.
Proof.
  induction l as [|x l IH]; [reflexivity|].
  simpl. rewrite forallb_app, IH. simpl. rewrite andb_true_r. apply andb_comm.
Qed.

(** [trim] removes the white space around a text that starts and ends with
    other code units. *)
Lemma trim_around (ws1 ws2 body : jsstring) (c1 c2 : N) (mid1 mid2 : jsstring) :
  forallb isWhiteSpace ws1 = true -> forallb isWhiteSpace ws2 = true ->
  body = c1 :: mid1 -> body = mid2 ++ [c2] ->
  isWhiteSpace c1 = false -> isWhiteSpace c2 = false ->
  trim (ws1 ++ body ++ ws2) = body.
Proof.
  intros H1 H2 Hb1 Hb2 Hc1 Hc2. unfold trim, trimEnd.
  rewrite trimStart_spaces by exact H1.
  rewrite Hb1 at 1. cbn [app]. rewrite trimStart_solid by exact Hc1.
  change (c1 :: mid1 ++ ws2) with ((c1 :: mid1) ++ ws2). rewrite <- Hb1.
  rewrite rev_app_distr, trimStart_spaces by (rewrite forallb_rev; exact H2).
  rewrite Hb2 at 1. rewrite rev_app_distr. cbn [rev app].
  rewrite trimStart_solid by exact Hc2.
  change (c2 :: rev mid2) with (rev [c2] ++ rev mid2). rewrite <- rev_app_distr, <- Hb2.
  apply rev_involutive.
Qed.

Lemma splitLines_plain (line : jsstring) : plain line -> splitLines line = [line].
Proof.
  induction line as [|c line IH]; intros H; [reflexivity|].
  inversion H as [|? ? [Hlf Hcr] Hrest]; subst. cbn [splitLines].
  apply N.eqb_neq in Hlf, Hcr. rewrite Hlf, Hcr. cbn [andb].
  rewrite (IH Hrest). reflexivity.
Qed.

Lemma splitLines_eol (eol line rest : jsstring) :
  eol = [LF] \/ eol = [CR; LF] -> plain line ->
  splitLines (line ++ eol ++ rest) = line :: splitLines rest.
Proof.
  intros Heol. induction line as [|c line IH]; intros H.
  - destruct Heol as [->| ->]; reflexivity.
  - inversion H as [|? ? [Hlf Hcr] Hrest]; subst.
    change ((c :: line) ++ eol ++ rest) with (c :: (line ++ eol ++ rest)).
    cbn [splitLines]. apply N.eqb_neq in Hlf, Hcr. rewrite Hlf, Hcr. cbn [andb].
    rewrite (IH Hrest). reflexivity.
Qed.

Lemma splitLines_join (eol : jsstring) (lines : list jsstring) :
  eol = [LF] \/ eol = [CR; LF] -> lines <> [] -> Forall plain lines ->
  splitLines (join eol lines) = lines.
Proof.
  intros Heol. induction lines as [|l lines IH]; intros Hne H; [contradiction|].
  inversion H as [|? ? Hl Hrest]; subst. cbn [join].
  destruct lines as [|l' lines'].
  - apply splitLines_plain, Hl.
  - rewrite splitLines_eol by assumption. f_equal. apply IH; [discriminate | exact Hrest].
Qed.

Lemma splitCommas_plain (cell : jsstring) :
  Forall (fun c => c <> COMMA) cell -> splitCommas cell = [cell].
Proof.
  induction cell as [|c cell IH]; intros H; [reflexivity|].
  inversion H as [|? ? Hc Hrest]; subst. cbn [splitCommas].
  apply N.eqb_neq in Hc. rewrite Hc, (IH Hrest). reflexivity.
Qed.

Lemma splitCommas_comma (cell rest : jsstring) :
  Forall (fun c => c <> COMMA) cell ->
  splitCommas (cell ++ [COMMA] ++ rest) = cell :: splitCommas rest.
Proof.
  induction cell as [|c cell IH]; intros H; [reflexivity|].
  inversion H as [|? ? Hc Hrest]; subst.
  change ((c :: cell) ++ [COMMA] ++ rest) with (c :: (cell ++ [COMMA] ++ rest)).
  cbn [splitCommas]. apply N.eqb_neq in Hc. rewrite Hc, (IH Hrest). reflexivity.
Qed.

Lemma splitCommas_join (cells : list jsstring) :
  cells <> [] -> Forall (Forall (fun c => c <> COMMA)) cells ->
  splitCommas (join [COMMA] cells) = cells.
Proof.
  induction cells as [|x cells IH]; intros Hne H; [contradiction|].
  inversion H as [|? ? Hx Hrest]; subst. cbn [join].
  destruct cells as [|x' cells'].
  - apply splitCommas_plain, Hx.
  - rewrite splitCommas_comma by assumption. f_equal. apply IH; [discriminate | exact Hrest].
Qed.

Lemma join_head (sep : jsstring) (c : N) (p : jsstring) (ps : list jsstring) :
  exists mid, join sep ((c :: p) :: ps) = c :: mid.
Proof. cbn [join]. destruct ps; eexists; reflexivity. Qed.

Lemma join_last (sep : jsstring) (ps : list jsstring) (p : jsstring) (c : N) :
  exists mid, join sep (ps ++ [p ++ [c]]) = mid ++ [c].
Proof.
  induction ps as [|q ps IH].
  - exists p. reflexivity.
  - destruct IH as [mid Hmid]. change ((q :: ps) ++ [p ++ [c]]) with (q :: (ps ++ [p ++ [c]])).
    cbn [join]. destruct (ps ++ [p ++ [c]]) eqn:E.
    + destruct ps; discriminate.
    + rewrite Hmid. exists (q ++ sep ++ mid). rewrite <- !app_assoc. reflexivity.
Qed.

Lemma render_head (eol : jsstring) (c : N) (cell : jsstring) (row : list jsstring)
      (rest : list (list jsstring)) :
  exists mid, render eol (((c :: cell) :: row) :: rest) = c :: mid.
Proof.
  unfold render. cbn [map].
  destruct (join_head [COMMA] c cell row) as [m1 E1].
  destruct (join_head eol c m1 (map (join [COMMA]) rest)) as [m2 E2].
  exists m2. rewrite <- E2. f_equal. f_equal. exact E1.
Qed.

Lemma render_last (eol : jsstring) (rows : list (list jsstring)) (row : list jsstring)
      (cell : jsstring) (c : N) :
  exists mid, render eol (rows ++ [row ++ [cell ++ [c]]]) = mid ++ [c].
Proof.
  unfold render. rewrite map_app. cbn [map].
  destruct (join_last [COMMA] row cell c) as [m1 E1].
  destruct (join_last eol (map (join [COMMA]) rows) m1 c) as [m2 E2].
  exists m2. rewrite <- E2. f_equal. f_equal. f_equal. exact E1.
Qed.

Lemma whitespace_LF_CR (c : N) : isWhiteSpace c = false -> c <> LF /\ c <> CR.
Proof. intros H. split; intros ->; discriminate. Qed.

Lemma last_split {T : Type} (l : list T) : l <> [] -> exists l' x, l = l' ++ [x].
Proof.
  intros H. destruct (exists_last H) as (l' & x & ->). eauto.
Qed.

Section ParseCSVRoundTrip.

Context {A : Arith}.
Variable Number : jsstring -> num.

(** X3. [parseCSV] reads back a rendered table. For a non-empty table of
    non-empty rows whose cells are non-empty and free of white space and
    commas, rendered with commas between cells and LF or CRLF between rows,
    with any white space around the text, it returns the table with
    [Number] applied to every cell. *)
Theorem parseCSV_reads_back_rendered_cells
        (eol ws1 ws2 : jsstring) (cells : list (list jsstring)) :
  eol = [LF] \/ eol = [CR; LF] ->
  forallb isWhiteSpace ws1 = true ->
  forallb isWhiteSpace ws2 = true ->
  cells <> [] ->
  Forall (fun row => row <> [] /\ Forall token row) cells ->
  parseCSV Number (ws1 ++ render eol cells ++ ws2) = map (map Number) cells.
Proof.
  intros Heol H1 H2 Hne Hcells. unfold parseCSV.
  assert (Htrim : trim (ws1 ++ render eol cells ++ ws2) = render eol cells).
  { destruct cells as [|row0 rest]; [contradiction|].
    assert (Hfirst : exists c1 mid1, render eol (row0 :: rest) = c1 :: mid1
                                      /\ isWhiteSpace c1 = false).
    { inversion Hcells as [|? ? [Hr0 Ht0] _]; subst.
      destruct row0 as [|cell0 row0']; [contradiction|].
      inversion Ht0 as [|? ? [Hc0 Hch] _]; subst.
      destruct cell0 as [|c1 cell0']; [contradiction|].
      inversion Hch as [|? ? [Hw _] _]; subst.
      destruct (render_head eol c1 cell0' row0' rest) as [m E].
      exists c1, m. auto. }
    assert (Hlast : exists c2 mid2, render eol (row0 :: rest) = mid2 ++ [c2]
                                     /\ isWhiteSpace c2 = false).
    { destruct (last_split (row0 :: rest)) as (rows' & rowN & E); [discriminate|].
      rewrite E in *. apply Forall_app in Hcells. destruct Hcells as [_ HN].
      inversion HN as [|? ? [HrN HtN] _]; subst.
      destruct (last_split rowN HrN) as (cs' & cellN & ->).
      apply Forall_app in HtN. destruct HtN as [_ HtN].
      inversion HtN as [|? ? [HcN Hch] _]; subst.
      destruct (last_split cellN HcN) as (p & c2 & ->).
      apply Forall_app in Hch. destruct Hch as [_ Hch].
      inversion Hch as [|? ? [Hw _] _]; subst.
      destruct (render_last eol rows' cs' p c2) as [m Em].
      exists c2, m. auto. }
    destruct Hfirst as (c1 & mid1 & Hb1 & Hc1), Hlast as (c2 & mid2 & Hb2 & Hc2).
    apply (trim_around ws1 ws2 _ c1 c2 mid1 mid2); assumption. }
  rewrite Htrim. unfold render.
  assert (Hcommas : forall row, In row cells ->
            row <> [] /\ Forall (Forall (fun c => c <> COMMA)) row).
  { intros row Hrow. rewrite Forall_forall in Hcells. destruct (Hcells row Hrow) as [Hr Ht].
    split; [exact Hr|]. eapply Forall_impl; [|exact Ht].
    intros cell [_ Hch]. eapply Forall_impl; [|exact Hch]. intros c [_ Hc]. exact Hc. }
  rewrite splitLines_join.
  - rewrite map_map. apply map_ext_in. intros row Hrow.
    destruct (Hcommas row Hrow) as [Hr Hc]. rewrite splitCommas_join by assumption. reflexivity.
  - exact Heol.
  - destruct cells; [contradiction | discriminate].
  - apply Forall_forall. intros line Hline. apply in_map_iff in Hline.
    destruct Hline as (row & <- & Hrow).
    rewrite Forall_forall in Hcells. destruct (Hcells row Hrow) as [_ Ht].
    clear - Ht. induction row as [|cell row IH]; [constructor|].
    inversion Ht as [|? ? [_ Hch] Hrest]; subst. cbn [join].
    assert (Hcell : plain cell).
    { eapply Forall_impl; [|exact Hch]. intros c [Hw _]. apply whitespace_LF_CR, Hw. }
    destruct row as [|cell' row'']; [exact Hcell|].
    unfold plain. apply Forall_app. split; [exact Hcell|].
    apply Forall_app. split; [|apply IH, Hrest].
    constructor; [|constructor]. split; discriminate.
Qed.

End ParseCSVRoundTrip.

(** ** [hashMatrixForSeed] *)

Lemma ToInt32_small (z : Z) : (0 <= z < 2 ^ 31)%Z -> ToInt32 z = z.
Proof.
  intros H. unfold ToInt32. cbv zeta. rewrite Z.mod_small by lia.
  destruct (Z.leb_spec (2 ^ 31) z); lia.
Qed.

Lemma band_low31 (a : Z) : (0 <= band a 2147483647 < 2 ^ 31)%Z.
Proof.
  unfold band. change (ToInt32 2147483647) with (Z.ones 31).
  rewrite Z.land_ones by lia.
  assert (H : (0 <= ToInt32 a mod 2 ^ 31 < 2 ^ 31)%Z) by (apply Z.mod_pos_bound; lia).
  rewrite ToInt32_small; exact H.
Qed.

Lemma fold_left_ext_in {S T : Type} (f g : S -> T -> S) (l : list T) (s : S) :
  (forall a x, In x l -> f a x = g a x) -> fold_left f l s = fold_left g l s.
Proof.
  revert s. induction l as [|x l IH]; intros s H; simpl; [reflexivity|].
  rewrite (H s x (or_introl eq_refl)). apply IH. intros a y Hy. apply H. right. exact Hy.
Qed.

Section HashFacts.

Context {A : Arith} {M : MathOps A}.

Lemma sampledRows_spec (N step i : nat) :
  1 <= step -> In i (sampledRows N step) -> i < N /\ Nat.modulo i step = 0.
Proof.
  intros Hstep Hi. unfold sampledRows in Hi. apply in_map_iff in Hi.
  destruct Hi as (k & <- & Hk). apply in_seq in Hk. split.
  - pose proof (Nat.div_mod_eq (N + step - 1) step) as Hd.
    pose proof (Nat.mod_upper_bound (N + step - 1) step) as Hm. nia.
  - apply Nat.Div0.mod_mul.
Qed.

(** X4. The seed that [hashMatrixForSeed] returns is an integer from 0 to
    2^31 - 1, for every matrix. *)
Theorem hashMatrixForSeed_is_31_bit (mat : Matrix) :
  (0 <= hashMatrixForSeed mat < 2 ^ 31)%Z.
Proof. unfold hashMatrixForSeed. apply band_low31. Qed.

(** X5. [hashMatrixForSeed] reads only the rows whose index is a multiple
    of [max(1, floor(N / 128))]: two matrices with the same number [N] of
    rows that agree on these rows get the same seed. *)
Theorem hashMatrixForSeed_reads_sampled_rows (mat mat' : Matrix) :
  length mat = length mat' ->
  (forall i, i < length mat -> Nat.modulo i (sampleStep (length mat)) = 0 ->
             nth i mat [] = nth i mat' []) ->
  hashMatrixForSeed mat = hashMatrixForSeed mat'.
Proof.
  intros Hlen Hrows. unfold hashMatrixForSeed. rewrite <- Hlen. cbv zeta. f_equal. f_equal.
  apply fold_left_ext_in. intros h i Hi.
  apply sampledRows_spec in Hi; [|unfold sampleStep; lia].
  destruct Hi as [Hi Hmod]. rewrite (Hrows i Hi Hmod). reflexivity.
Qed.

End HashFacts.

Lemma hashMatrixForSeed_reads_sampled_rows_witness :
  hashMatrixForSeed rows256 = hashMatrixForSeed rows256'.
Proof.
  apply (hashMatrixForSeed_reads_sampled_rows rows256 rows256').
  - reflexivity.
  - intros i _ Hmod. change (sampleStep (length rows256)) with 2 in Hmod.
    destruct i as [|[|i]]; [reflexivity | discriminate | reflexivity].
Defined.

(** ** [nameSegments] *)

Section NameSegmentsFacts.

Context {A : Arith}.

Lemma insertBy_perm {T : Type} (cmp : T -> T -> num) (x : T) (l : list T) :
  Permutation (insertBy cmp x l) (x :: l).
Proof.
  induction l as [|y l IH]; simpl.
  - apply Permutation_refl.
  - destruct (lt zero (cmp x y)).
    + apply Permutation_trans with (y :: x :: l); [apply perm_skip, IH | apply perm_swap].
    + apply Permutation_refl.
Qed.

Lemma sortBy_perm {T : Type} (cmp : T -> T -> num) (l : list T) :
  Permutation (sortBy cmp l) l.
Proof.
  induction l as [|x l IH]; simpl.
  - apply perm_nil.
  - apply Permutation_trans with (x :: sortBy cmp l); [apply insertBy_perm | apply perm_skip, IH].
Qed.

Lemma category_has_name (j : nat) (top2 : option string) :
  j < 10 ->
  exists cat name,
    nth_error CATEGORY_NAMES j = Some cat
    /\ lookup cat SEGMENT_NAME_DICT = Some name
    /\ segmentName (Some cat) top2 = name.
Proof.
  intros Hj.
  do 10 (destruct j as [|j]; [do 2 eexists; repeat split; reflexivity|]).
  lia.
Qed.

Lemma byValue_perm (c : Row) :
  Permutation (byValue c) (map (fun j => (j, get c j)) (seq 0 (length c))).
Proof. apply sortBy_perm. Qed.

Lemma byValue_index (c : Row) (e : nat * num) : In e (byValue c) -> fst e < length c.
Proof.
  intros He. apply (Permutation_in _ (byValue_perm c)) in He.
  apply in_map_iff in He. destruct He as (j & <- & Hj). apply in_seq in Hj. simpl. lia.
Qed.

Lemma nameSegment_ok (c : Row) :
  1 <= length c <= 10 ->
  exists j cat name,
    nameSegment c = Ok name /\ j < length c
    /\ hd_error (byValue c) = Some (j, get c j)
    /\ nth_error CATEGORY_NAMES j = Some cat
    /\ lookup cat SEGMENT_NAME_DICT = Some name.
Proof.
  intros Hc. unfold nameSegment.
  pose proof (byValue_perm c) as Hp. pose proof (byValue_index c) as Hidx.
  destruct (byValue c) as [|e0 rest] eqn:E.
  - apply Permutation_length in Hp. rewrite length_map, length_seq in Hp. simpl in Hp. lia.
  - assert (H0 : fst e0 < length c) by (apply Hidx; left; reflexivity).
    destruct (category_has_name (fst e0)
                (nth_error CATEGORY_NAMES (match rest with e1 :: _ => fst e1 | [] => fst e0 end)))
      as (cat & name & Hcat & Hname & Hseg); [lia|].
    exists (fst e0), cat, name. cbv zeta. rewrite Hcat, Hseg. repeat split; auto.
    simpl. f_equal.
    assert (Hin : In e0 (map (fun j => (j, get c j)) (seq 0 (length c)))).
    { apply (Permutation_in _ Hp). left. reflexivity. }
    apply in_map_iff in Hin. destruct Hin as (j & <- & _). reflexivity.
Qed.

Lemma nameSegment_empty : nameSegment [] = Throw TypeError.
Proof. reflexivity. Qed.

Lemma nameSegment_throws (c : Row) (e : exn) : nameSegment c = Throw e -> e = TypeError.
Proof.
  unfold nameSegment. destruct (byValue c); intros H; [injection H as <-; reflexivity | discriminate].
Qed.

Lemma nameSegments_fold_ok (centroids : list Row) (acc : list string) :
  Forall (fun c => 1 <= length c <= 10) centroids ->
  exists names,
    foldM (fun names c => name <- nameSegment c ;; Ok (names ++ [name])) centroids acc
    = Ok (acc ++ names)
    /\ Forall2 (fun c name =>
                  exists j cat, j < length c
                    /\ hd_error (byValue c) = Some (j, get c j)
                    /\ nth_error CATEGORY_NAMES j = Some cat
                    /\ lookup cat SEGMENT_NAME_DICT = Some name)
               centroids names.
Proof.
  revert acc. induction centroids as [|c cs IH]; intros acc H; simpl.
  - exists []. rewrite app_nil_r. split; [reflexivity | constructor].
  - inversion H as [|? ? Hc Hcs]; subst.
    destruct (nameSegment_ok c Hc) as (j & cat & name & -> & Hj & Hhd & Hcat & Hname). simpl.
    destruct (IH (acc ++ [name]) Hcs) as (names & -> & Hall).
    exists (name :: names). rewrite <- app_assoc. split; [reflexivity|].
    constructor; [|exact Hall]. exists j, cat. auto.
Qed.

Lemma nameSegments_ok (centroids : list Row) :
  Forall (fun c => 1 <= length c <= 10) centroids ->
  exists names,
    nameSegments centroids = Ok names
    /\ Forall2 (fun c name =>
                  exists j cat, j < length c
                    /\ hd_error (byValue c) = Some (j, get c j)
                    /\ nth_error CATEGORY_NAMES j = Some cat
                    /\ lookup cat SEGMENT_NAME_DICT = Some name)
               centroids names.
Proof. intros H. apply (nameSegments_fold_ok centroids [] H). Qed.

Lemma nameSegments_throws (centroids : list Row) (acc : list string) :
  In [] centroids ->
  foldM (fun names c => name <- nameSegment c ;; Ok (names ++ [name])) centroids acc
  = Throw TypeError.
Proof.
  revert acc. induction centroids as [|c cs IH]; intros acc H; [destruct H|]. simpl.
  destruct (nameSegment c) as [name|e] eqn:E; simpl.
  - destruct H as [->|H]; [rewrite nameSegment_empty in E; discriminate | apply IH, H].
  - apply nameSegment_throws in E. subst e. reflexivity.
Qed.

(** X14. [nameSegments] gives every centroid of 1 to 10 columns the name
    that [SEGMENT_NAME_DICT] has for the category of one of its columns, one
    name per centroid (the fallback of two category names is never used for
    them); it throws a TypeError when some centroid is empty. *)
Theorem nameSegments_names_come_from_dictionary (centroids : list Row) :
  (Forall (fun c => 1 <= length c <= 10) centroids ->
   exists names,
     nameSegments centroids = Ok names
     /\ Forall2 (fun c name =>
                   exists j cat, j < length c
                     /\ nth_error CATEGORY_NAMES j = Some cat
                     /\ lookup cat SEGMENT_NAME_DICT = Some name)
                centroids names)
  /\ (In [] centroids -> nameSegments centroids = Throw TypeError).
Proof.
  split.
  - intros H. destruct (nameSegments_ok centroids H) as (names & Hn & Hall).
    exists names. split; [exact Hn|].
    eapply Forall2_impl; [|exact Hall].
    intros c name (j & cat & Hj & _ & Hcat & Hname). exists j, cat. auto.
  - intros H. apply nameSegments_throws, H.
Qed.

End NameSegmentsFacts.

(** ** [autoCluster] *)

Section Sweep.

Context {A : Arith}.

Lemma silhouetteApprox_ok (mat : Matrix) (ls : list nat) (cs : list Row) :
  length ls = length mat -> Forall (fun l => l < length cs) ls ->
  exists v, silhouetteApprox mat ls cs = Ok v.
Proof.
  intros Hlen Hls. destruct mat as [|row0 rows].
  - eexists. reflexivity.
  - rewrite (silhouetteApprox_eq row0 rows ls cs Hlen Hls). eexists. reflexivity.
Qed.

Lemma kmeans_throws (row0 : Row) (rows : Matrix) (K maxIter : nat) (seed : Z) (nInit : nat) :
  row0 <> [] -> maxIter <> 0 -> length (row0 :: rows) < K ->
  kmeans (row0 :: rows) K maxIter seed nInit = Throw TypeError.
Proof.
  intros H0 Hm HK. unfold kmeans, multiStart.
  rewrite runOnce_throws; [reflexivity | | exact Hm | exact HK].
  destruct row0; [contradiction | discriminate].
Qed.

Lemma sweep_fold (input : Matrix) (seed : Z) :
  sweep input seed = foldM (sweepStep input seed) [2; 3; 4; 5; 6; 7; 8; 9; 10]%Z ([], [], []).
Proof. reflexivity. Qed.

Lemma sweepStep_ok (input : Matrix) (seed : Z) (ks : list Z) (inertias sil : list num) (kk : Z) :
  1 <= Z.to_nat kk <= length input ->
  exists i v, sweepStep input seed (ks, inertias, sil) kk
              = Ok (ks ++ [kk], inertias ++ [i], sil ++ [v]).
Proof.
  intros Hk. unfold sweepStep.
  destruct (kmeans_ok input (Z.to_nat kk) 30 seed 10 Hk) as (r & -> & Hlen & Hls & Hcs & _).
  simpl.
  destruct (silhouetteApprox_ok input (km_labels r) (centroids r)) as [v ->].
  - exact Hlen.
  - rewrite Hcs. exact Hls.
  - simpl. eauto.
Qed.

Lemma sweep_fold_ok (input : Matrix) (seed : Z) (l : list Z) (ks : list Z)
      (inertias sil : list num) :
  (forall kk, In kk l -> 1 <= Z.to_nat kk <= length input) ->
  exists ins sils,
    foldM (sweepStep input seed) l (ks, inertias, sil) = Ok (ks ++ l, inertias ++ ins, sil ++ sils)
    /\ length ins = length l /\ length sils = length l.
Proof.
  revert ks inertias sil. induction l as [|kk l IH]; intros ks inertias sil Hl.
  - exists [], []. rewrite !app_nil_r. auto.
  - cbn [foldM].
    destruct (sweepStep_ok input seed ks inertias sil kk) as (i & v & ->).
    { apply Hl. left. reflexivity. }
    cbn [bind].
    destruct (IH (ks ++ [kk]) (inertias ++ [i]) (sil ++ [v])) as (ins & sils & -> & H1 & H2).
    { intros x Hx. apply Hl. right. exact Hx. }
    exists (i :: ins), (v :: sils). rewrite <- !app_assoc. simpl. auto.
Qed.

Lemma sweep_ok (input : Matrix) (seed : Z) :
  10 <= length input ->
  exists inertias sil,
    sweep input seed = Ok ([2; 3; 4; 5; 6; 7; 8; 9; 10]%Z, inertias, sil)
    /\ length inertias = 9 /\ length sil = 9.
Proof.
  intros HN. rewrite sweep_fold.
  destruct (sweep_fold_ok input seed [2; 3; 4; 5; 6; 7; 8; 9; 10]%Z [] [] [])
    as (ins & sils & -> & H1 & H2).
  - intros kk Hkk. simpl in Hkk.
    repeat (destruct Hkk as [<-|Hkk]; [simpl; lia|]). destruct Hkk.
  - exists ins, sils. auto.
Qed.

Lemma sweep_split (N : nat) :
  N < 10 ->
  exists l1 x l2,
    [2; 3; 4; 5; 6; 7; 8; 9; 10]%Z = l1 ++ x :: l2
    /\ (forall kk, In kk l1 -> 1 <= Z.to_nat kk <= N)
    /\ N < Z.to_nat x.
Proof.
  intros HN.
  do 2 (destruct N as [|N];
        [exists [], 2%Z, [3; 4; 5; 6; 7; 8; 9; 10]%Z;
         split; [reflexivity | split; [intros kk [] | simpl; lia]]|]).
  destruct N as [|N].
  { exists [2]%Z, 3%Z, [4; 5; 6; 7; 8; 9; 10]%Z.
    split; [reflexivity | split; [|simpl; lia]].
    intros kk Hkk. simpl in Hkk. repeat (destruct Hkk as [<-|Hkk]; [simpl; lia|]). destruct Hkk. }
  destruct N as [|N].
  { exists [2; 3]%Z, 4%Z, [5; 6; 7; 8; 9; 10]%Z.
    split; [reflexivity | split; [|simpl; lia]].
    intros kk Hkk. simpl in Hkk. repeat (destruct Hkk as [<-|Hkk]; [simpl; lia|]). destruct Hkk. }
  destruct N as [|N].
  { exists [2; 3; 4]%Z, 5%Z, [6; 7; 8; 9; 10]%Z.
    split; [reflexivity | split; [|simpl; lia]].
    intros kk Hkk. simpl in Hkk. repeat (destruct Hkk as [<-|Hkk]; [simpl; lia|]). destruct Hkk. }
  destruct N as [|N].
  { exists [2; 3; 4; 5]%Z, 6%Z, [7; 8; 9; 10]%Z.
    split; [reflexivity | split; [|simpl; lia]].
    intros kk Hkk. simpl in Hkk. repeat (destruct Hkk as [<-|Hkk]; [simpl; lia|]). destruct Hkk. }
  destruct N as [|N].
  { exists [2; 3; 4; 5; 6]%Z, 7%Z, [8; 9; 10]%Z.
    split; [reflexivity | split; [|simpl; lia]].
    intros kk Hkk. simpl in Hkk. repeat (destruct Hkk as [<-|Hkk]; [simpl; lia|]). destruct Hkk. }
  destruct N as [|N].
  { exists [2; 3; 4; 5; 6; 7]%Z, 8%Z, [9; 10]%Z.
    split; [reflexivity | split; [|simpl; lia]].
    intros kk Hkk. simpl in Hkk. repeat (destruct Hkk as [<-|Hkk]; [simpl; lia|]). destruct Hkk. }
  destruct N as [|N].
  { exists [2; 3; 4; 5; 6; 7; 8]%Z, 9%Z, [10]%Z.
    split; [reflexivity | split; [|simpl; lia]].
    intros kk Hkk. simpl in Hkk. repeat (destruct Hkk as [<-|Hkk]; [simpl; lia|]). destruct Hkk. }
  destruct N as [|N].
  { exists [2; 3; 4; 5; 6; 7; 8; 9]%Z, 10%Z, [].
    split; [reflexivity | split; [|simpl; lia]].
    intros kk Hkk. simpl in Hkk. repeat (destruct Hkk as [<-|Hkk]; [simpl; lia|]). destruct Hkk. }
  lia.
Qed.

Lemma sweep_throws (input : Matrix) (seed : Z) :
  length input < 10 -> Forall (fun row => row <> []) input ->
  sweep input seed = Throw TypeError.
Proof.
  intros HN Hrows. rewrite sweep_fold.
  destruct (sweep_split (length input) HN) as (l1 & x & l2 & -> & Hl1 & Hx).
  rewrite foldM_app.
  destruct (sweep_fold_ok input seed l1 [] [] [] Hl1) as (ins & sils & -> & _). cbn [bind foldM].
  unfold sweepStep at 1. cbn [app].
  destruct input as [|row0 rows]; [reflexivity|].
  rewrite kmeans_throws; [reflexivity | | discriminate | exact Hx].
  inversion Hrows; assumption.
Qed.

Lemma compromiseK_in (ks : list Z) (sil : list num) (gap : num) (sK bK : Z) :
  compromiseK ks sil gap sK bK = sK \/ compromiseK ks sil gap sK bK = bK.
Proof.
  unfold compromiseK. destruct (Z.abs (sK - bK) <=? 1)%Z.
  - destruct (Z.min_spec sK bK) as [[_ ->]|[_ ->]]; auto.
  - destruct (le gap _); auto.
Qed.

Lemma selectK_finalK (method : SelectionMethod) (gap : num) (ks : list Z)
      (inertias sil : list num) :
  ks <> [] -> length sil = length ks ->
  exists sK bK k,
    selectK method gap ks inertias sil = mkSelection (Some sK) (Some bK) (Some k)
    /\ In sK ks /\ In bK ks /\ In k ks /\ (k = sK \/ k = bK).
Proof.
  intros Hks Hlen.
  destruct (suggestElbow_defined ks inertias Hks) as [sK HsK].
  assert (Hsil : sil <> []) by (intros ->; destruct ks; [contradiction | discriminate]).
  pose proof (argmaxSilhouette_index sil Hsil) as Hbi.
  destruct (nth_error ks (argmaxSilhouette sil)) as [bK|] eqn:HbK;
    [|apply nth_error_None in HbK; lia].
  destruct (suggestElbow_in_ks _ _ _ HsK) as [n Hn].
  pose proof (nth_error_In _ _ Hn) as HsIn. pose proof (nth_error_In _ _ HbK) as HbIn.
  unfold selectK. rewrite HsK, HbK. cbv zeta.
  destruct method.
  - exists sK, bK, bK. auto 10.
  - exists sK, bK, sK. auto 10.
  - exists sK, bK, (compromiseK ks sil gap sK bK).
    destruct (compromiseK_in ks sil gap sK bK) as [-> | ->]; auto 10.
Qed.

End Sweep.

Section AutoCluster.

Context {A : Arith}.

(** X12. With fewer than ten rows, none of them empty, [autoCluster] called
    while [computing] is false fails with a TypeError in its sweep, which is
    outside the [try] block: [computing] stays true and nothing else of the
    state changes, so that every later call returns at once and changes
    nothing. *)
Theorem autoCluster_stuck_below_ten_rows
        (selectionMethod : SelectionMethod) (silMinGap : num)
        (st : App.State) (input : Matrix) (seed : Z) :
  App.computing st = false ->
  length input < 10 ->
  Forall (fun row => row <> []) input ->
  App.autoCluster selectionMethod silMinGap st input seed
  = (App.setComputing true st, Some TypeError)
  /\ forall selectionMethod' silMinGap' input' seed',
       App.autoCluster selectionMethod' silMinGap' (App.setComputing true st) input' seed'
       = (App.setComputing true st, None).
Proof.
  intros Hc HN Hrows. split.
  - unfold App.autoCluster. rewrite Hc. cbv zeta.
    rewrite (sweep_throws input seed HN Hrows). reflexivity.
  - intros. reflexivity.
Qed.

(** X13. With ten rows or more, each of 1 to 10 columns, [autoCluster]
    called while [computing] is false completes: it stores the sweep over
    K = 2..10 with nine inertias and nine silhouettes, a [finalK] between 2
    and 10 that is [suggestedK] or [bestBySil], one label below [finalK] per
    row, [finalK] centroids and as many segment names, selects cluster 0 and
    sets [computing] back to false. *)
Theorem autoCluster_segments_ten_rows_or_more
        (selectionMethod : SelectionMethod) (silMinGap : num)
        (st : App.State) (input : Matrix) (seed : Z) :
  App.computing st = false ->
  10 <= length input ->
  Forall (fun row => 1 <= length row <= 10) input ->
  exists inertias sil sK bK k ls cs names,
    App.autoCluster selectionMethod silMinGap st input seed
    = (App.mkState false
         (Some (App.mkElbow [2; 3; 4; 5; 6; 7; 8; 9; 10]%Z inertias sil
                            (Some sK) (Some bK) (Some k)))
         (Some ls) (Some cs) (Some names) 0,
       None)
    /\ length inertias = 9 /\ length sil = 9
    /\ (2 <= sK <= 10)%Z /\ (2 <= bK <= 10)%Z /\ (2 <= k <= 10)%Z
    /\ (k = sK \/ k = bK)
    /\ length ls = length input
    /\ Forall (fun l => l < Z.to_nat k) ls
    /\ length cs = Z.to_nat k
    /\ length names = Z.to_nat k.
Proof.
  intros Hc HN Hrows. unfold App.autoCluster. rewrite Hc. cbv zeta.
  destruct (sweep_ok input seed HN) as (inertias & sil & -> & Hin & Hsil).
  destruct (selectK_finalK selectionMethod silMinGap [2; 3; 4; 5; 6; 7; 8; 9; 10]%Z inertias sil)
    as (sK & bK & k & Hsel & HsK & HbK & Hk & Hor); [discriminate | exact Hsil |].
  rewrite Hsel.
  assert (Hrange : forall x, In x [2; 3; 4; 5; 6; 7; 8; 9; 10]%Z -> (2 <= x <= 10)%Z).
  { intros x Hx. simpl in Hx. repeat (destruct Hx as [<-|Hx]; [lia|]). destruct Hx. }
  pose proof (Hrange _ Hk) as Hk'.
  destruct (kmeans_ok input (Z.to_nat k) 30 seed 10) as ([ls cs i] & -> & Hls & Hlt & Hcs & Hshape);
    [lia|]. cbn [km_labels centroids] in *.
  destruct (nameSegments_ok cs) as (names & -> & Hnames).
  { assert (Hhd : 1 <= length (hd [] input) <= 10).
    { destruct input as [|row0 rows]; [simpl in HN; lia|]. inversion Hrows; assumption. }
    eapply Forall_impl; [|exact Hshape]. intros c [Hc'|Hc'].
    - rewrite Forall_forall in Hrows. apply Hrows, Hc'.
    - rewrite Hc'. exact Hhd. }
  exists inertias, sil, sK, bK, k, ls, cs, names.
  repeat split; auto; try (apply Hrange; assumption).
  rewrite <- Hcs. symmetry. exact (Forall2_length Hnames).
Qed.

End AutoCluster.

(** ** The silhouette method and the elbow *)

Section SilhouetteChoice.

Context {A : Arith}.

Lemma argmaxSilhouette_pick (sil : list num) :
  argmaxSilhouette sil
  = fold_left (pick (higherSilhouette sil) (fun i => i)) (seq 0 (length sil)) O.
Proof. reflexivity. Qed.

(** X11. Under the silhouette method, for a non-empty [ks] and a silhouette
    array of the same length, [bestBySil] and [finalK] are the K at the first
    position where the silhouette is largest: no value of the array is
    greater than the value there, and no value before it is at least as
    large. *)
Theorem silhouette_method_takes_first_maximum {L : OrderLaws A}
        (silMinGap : num) (ks : list Z) (inertias sil : list num) :
  ks <> [] ->
  length sil = length ks ->
  let sel := selectK silhouette silMinGap ks inertias sil in
  exists bi k,
    bi < length ks
    /\ nth_error ks bi = Some k
    /\ bestBySil sel = Some k
    /\ finalK sel = Some k
    /\ (forall i, i < length sil -> lt (get sil bi) (get sil i) = false)
    /\ (forall i, i < bi -> le (get sil bi) (get sil i) = false).
Proof.
  intros Hks Hlen sel.
  assert (Hsil : sil <> []) by (intros ->; destruct ks; [contradiction | discriminate]).
  pose proof (argmaxSilhouette_index sil Hsil) as Hbi.
  destruct (nth_error ks (argmaxSilhouette sil)) as [k|] eqn:Hk;
    [|apply nth_error_None in Hk; lia].
  exists (argmaxSilhouette sil), k. unfold sel, selectK. cbn [bestBySil finalK]. rewrite Hk.
  repeat split; auto; [lia | |].
  - rewrite argmaxSilhouette_pick.
    destruct (pick_spec (higherSilhouette sil) (notLowerSilhouette sil) (fun i => i))
      with (l := seq 0 (length sil)) (init := O)
      as [Hr Hall | l1 i l2 Hsplit Hr Hi Hq Hbefore Hall];
      unfold higherSilhouette, notLowerSilhouette in *.
    + intros x. apply lt_irrefl.
    + intros x y z H1 H2. apply lt_trans with (get sil y); assumption.
    + intros x y z H1 H2. apply lt_le_trans with (get sil y); assumption.
    + intros x y. apply lt_not_le.
    + rewrite Hr. intros j Hj. apply Hall. apply in_seq. lia.
    + rewrite Hr. intros j Hj. apply Hall. apply in_seq. lia.
  - rewrite argmaxSilhouette_pick.
    destruct (pick_spec (higherSilhouette sil) (notLowerSilhouette sil) (fun i => i))
      with (l := seq 0 (length sil)) (init := O)
      as [Hr Hall | l1 i l2 Hsplit Hr Hi Hq Hbefore Hall];
      unfold higherSilhouette, notLowerSilhouette in *.
    + intros x. apply lt_irrefl.
    + intros x y z H1 H2. apply lt_trans with (get sil y); assumption.
    + intros x y z H1 H2. apply lt_le_trans with (get sil y); assumption.
    + intros x y. apply lt_not_le.
    + rewrite Hr. intros j Hj. lia.
    + rewrite Hr. intros j Hj. apply Hbefore.
      destruct (seq_split _ _ _ _ _ Hsplit) as [_ Hl1]. apply Hl1. lia.
Qed.

(** X10. [suggestElbow] returns an element of [ks], whatever the inertias
    are and also when the two arrays differ in length; it returns
    [undefined] only for an empty [ks]. *)
Theorem suggestElbow_returns_a_candidate (ks : list Z) (inertias : list num) :
  match suggestElbow ks inertias with
  | Some k => In k ks
  | None => ks = []
  end.
Proof.
  destruct ks as [|k0 ks'].
  - unfold suggestElbow. simpl. rewrite orb_true_r. reflexivity.
  - destruct (suggestElbow_defined (k0 :: ks') inertias) as [k Hk]; [discriminate|].
    rewrite Hk. destruct (suggestElbow_in_ks _ _ _ Hk) as [n Hn].
    apply (nth_error_In _ _ Hn).
Qed.

End SilhouetteChoice.

(** ** [recommendForMember] *)

Lemma CATEGORY_NAMES_distinct (i j : nat) :
  i < 10 -> j < 10 -> nth_error CATEGORY_NAMES i = nth_error CATEGORY_NAMES j -> i = j.
Proof.
  intros Hi Hj H.
  do 10 (destruct i as [|i];
         [do 10 (destruct j as [|j]; [first [reflexivity | discriminate H]|]); lia|]).
  lia.
Qed.

Section RecommendLists.

Context {A : Arith}.

Lemma filter_map_comm {T U : Type} (p : U -> bool) (g : T -> U) (l : list T) :
  filter p (map g l) = map g (filter (fun x => p (g x)) l).
Proof.
  induction l as [|x l IH]; simpl; [reflexivity|].
  destruct (p (g x)); simpl; rewrite IH; reflexivity.
Qed.

Lemma NoDup_filter' {T : Type} (p : T -> bool) (l : list T) : NoDup l -> NoDup (filter p l).
Proof.
  induction 1 as [|x l Hx Hl IH]; simpl; [constructor|].
  destruct (p x); [|exact IH]. constructor; [|exact IH].
  intros Hin. apply filter_In in Hin. apply Hx, Hin.
Qed.

Lemma NoDup_map_in {T U : Type} (g : T -> U) (l : list T) :
  (forall x y, In x l -> In y l -> g x = g y -> x = y) -> NoDup l -> NoDup (map g l).
Proof.
  intros Hinj H. induction H as [|x l Hx Hl IH]; simpl; [constructor|].
  constructor.
  - intros Hin. apply in_map_iff in Hin. destruct Hin as (y & Hy & Hyl).
    apply Hx. rewrite (Hinj x y); [exact Hyl | left; reflexivity | right; exact Hyl | auto].
  - apply IH. intros a b Ha Hb. apply Hinj; right; assumption.
Qed.

Lemma NoDup_firstn {T : Type} (k : nat) (l : list T) : NoDup l -> NoDup (firstn k l).
Proof.
  intros H. rewrite <- (firstn_skipn k l) in H. apply NoDup_app_remove_r in H. exact H.
Qed.

Lemma In_firstn {T : Type} (k : nat) (l : list T) (x : T) : In x (firstn k l) -> In x l.
Proof.
  intros H. rewrite <- (firstn_skipn k l). apply in_or_app. left. exact H.
Qed.

Lemma slice0_map {T U : Type} (g : T -> U) (k : Z) (l : list T) :
  slice0 k (map g l) = map g (slice0 k l).
Proof.
  unfold slice0. rewrite length_map. destruct (k <? 0)%Z; apply firstn_map.
Qed.

Lemma slice0_sub {T : Type} (k : Z) (l : list T) :
  NoDup l -> NoDup (slice0 k l) /\ forall x, In x (slice0 k l) -> In x l.
Proof.
  intros H. unfold slice0. destruct (k <? 0)%Z; split;
    try (apply NoDup_firstn, H); intros x; apply In_firstn.
Qed.

(** The ranking as a rearrangement of the column indices. *)
Lemma rankCategories_indices (scores : Row) :
  exists js, Permutation (seq 0 (length scores)) js
    /\ rankCategories scores
       = map (fun i => mkRanked (nth_error CATEGORY_NAMES i) (get scores i)) js.
Proof.
  pose proof (rankCategories_perm scores) as Hp. unfold categoryScores in Hp.
  apply Permutation_map_inv in Hp.
  destruct Hp as (js & Hjs & Hperm). exists js. split; [exact Hperm | exact Hjs].
Qed.

Lemma recommendForMember_in_range (row0 : Row) (rows : Matrix) (memberIndex topK : Z)
      (minThreshold : num) :
  length row0 = 10 ->
  (0 <= memberIndex < Z.of_nat (length (row0 :: rows)))%Z ->
  recommendForMember (row0 :: rows) memberIndex topK minThreshold
  = let ranked := rankCategories (nth (Z.to_nat memberIndex) (row0 :: rows) []) in
    let filtered := filter (fun r => le minThreshold (s r)) ranked in
    Ok (map (fun r => (cat r, s r))
            (slice0 topK (match filtered with [] => ranked | _ => filtered end))).
Proof.
  intros H0 Hidx. unfold recommendForMember. rewrite H0. simpl negb. cbv iota.
  destruct (Z.ltb_spec memberIndex 0) as [Hneg|_]; [lia|].
  destruct (Z.geb_spec memberIndex (Z.of_nat (length (row0 :: rows)))) as [Hge|_]; [lia|].
  reflexivity.
Qed.

(** X16. On a matrix whose first row has 10 columns, [recommendForMember]
    throws for a [memberIndex] outside the matrix, and otherwise returns the
    category names and scores of pairwise different columns of the member's
    row; when that row has at most 10 columns the returned category names
    are pairwise different too. *)
Theorem recommendForMember_lists_distinct_categories
        (row0 : Row) (rows : Matrix) (memberIndex topK : Z) (minThreshold : num) :
  let mat := row0 :: rows in
  length row0 = 10 ->
  ((memberIndex < 0 \/ Z.of_nat (length mat) <= memberIndex)%Z ->
   recommendForMember mat memberIndex topK minThreshold
   = Throw (Error "memberIndex out of range"))
  /\ ((0 <= memberIndex < Z.of_nat (length mat))%Z ->
      let scores := nth (Z.to_nat memberIndex) mat [] in
      exists js : list nat,
        recommendForMember mat memberIndex topK minThreshold
        = Ok (map (fun i => (nth_error CATEGORY_NAMES i, get scores i)) js)
        /\ NoDup js
        /\ Forall (fun i => i < length scores) js
        /\ (length scores <= 10 -> NoDup (map (nth_error CATEGORY_NAMES) js))).
Proof.
  intros mat H0. split.
  - intros Hout. unfold mat, recommendForMember. rewrite H0. simpl negb. cbv iota.
    destruct (Z.ltb_spec memberIndex 0) as [Hneg|Hpos]; [reflexivity|].
    destruct (Z.geb_spec memberIndex (Z.of_nat (length (row0 :: rows)))) as [Hge|Hlt];
      [reflexivity|]. unfold mat in Hout. lia.
  - intros Hidx scores. unfold mat. rewrite recommendForMember_in_range by assumption.
    fold mat. fold scores. cbv zeta.
    destruct (rankCategories_indices scores) as (js & Hperm & ->).
    set (f := fun i => mkRanked (nth_error CATEGORY_NAMES i) (get scores i)).
    assert (Hnd : NoDup js) by (apply (Permutation_NoDup Hperm), seq_NoDup).
    assert (Hlt : forall i, In i js -> i < length scores).
    { intros i Hi. apply (Permutation_in _ (Permutation_sym Hperm)) in Hi.
      apply in_seq in Hi. lia. }
    rewrite filter_map_comm.
    set (fjs := filter (fun x => le minThreshold (s (f x))) js).
    assert (Hchoice : exists ks, NoDup ks /\ (forall i, In i ks -> In i js)
              /\ slice0 topK (match map f fjs with [] => map f js | _ :: _ => map f fjs end)
                 = map f ks).
    { destruct fjs as [|j0 fjs'] eqn:E.
      - exists (slice0 topK js). destruct (slice0_sub topK js Hnd) as [H1 H2].
        repeat split; auto. simpl. apply slice0_map.
      - assert (Hnd' : NoDup (j0 :: fjs')) by (rewrite <- E; apply NoDup_filter', Hnd).
        exists (slice0 topK (j0 :: fjs')). destruct (slice0_sub topK _ Hnd') as [H1 H2].
        repeat split; auto.
        + intros i Hi. apply H2 in Hi. rewrite <- E in Hi. apply filter_In in Hi. apply Hi.
        + change (f j0 :: map f fjs') with (map f (j0 :: fjs')). apply slice0_map. }
    destruct Hchoice as (ks & Hks & Hsub & ->).
    exists ks. rewrite map_map. repeat split; auto.
    + apply Forall_forall. intros i Hi. apply Hlt, Hsub, Hi.
    + intros H10. apply NoDup_map_in; [|exact Hks].
      intros i j Hi Hj. apply CATEGORY_NAMES_distinct.
      * apply Hsub, Hlt in Hi. lia.
      * apply Hsub, Hlt in Hj. lia.
Qed.

End RecommendLists.

Section RecommendThreshold.

Context {A : Arith}.

Lemma filter_length_perm {T : Type} (p : T -> bool) (l l' : list T) :
  Permutation l l' -> length (filter p l) = length (filter p l').
Proof.
  induction 1 as [|x l l' _ IH|x y l|l l' l'' _ IH1 _ IH2]; simpl.
  - reflexivity.
  - destruct (p x); simpl; rewrite IH; reflexivity.
  - destruct (p x), (p y); reflexivity.
  - rewrite IH1. exact IH2.
Qed.

Lemma map_get_seq (scores : Row) : map (get scores) (seq 0 (length scores)) = scores.
Proof.
  apply (nth_ext _ _ NaN NaN).
  - rewrite length_map, length_seq. reflexivity.
  - intros n Hn. rewrite length_map, length_seq in Hn.
    rewrite (nth_indep _ NaN (get scores 0)) by (rewrite length_map, length_seq; exact Hn).
    rewrite map_nth, seq_nth by exact Hn. reflexivity.
Qed.

Lemma passing_count (scores : Row) (minThreshold : num) :
  length (filter (fun r => le minThreshold (s r)) (rankCategories scores))
  = length (filter (fun x => le minThreshold x) scores).
Proof.
  rewrite (filter_length_perm _ _ _ (rankCategories_perm scores)).
  unfold categoryScores. rewrite filter_map_comm, length_map. cbn [s].
  replace (filter (fun x => le minThreshold x) scores)
    with (filter (fun x => le minThreshold x) (map (get scores) (seq 0 (length scores))))
    by (rewrite map_get_seq; reflexivity).
  rewrite filter_map_comm, length_map. reflexivity.
Qed.

(** X17. When some score of the member passes the test
    [s >= minThreshold] (and [topK >= 0]), [recommendForMember] returns the
    first [topK] entries of the ranking restricted to the passing scores:
    every returned score passes the test, and the result has
    [min(topK, p)] entries, [p] the number of passing scores. *)
Theorem recommendForMember_keeps_to_threshold
        (row0 : Row) (rows : Matrix) (memberIndex topK : Z) (minThreshold : num) :
  let mat := row0 :: rows in
  length row0 = 10 ->
  (0 <= memberIndex < Z.of_nat (length mat))%Z ->
  (0 <= topK)%Z ->
  let scores := nth (Z.to_nat memberIndex) mat [] in
  (exists x, In x scores /\ le minThreshold x = true) ->
  let passing := filter (fun r => le minThreshold (s r)) (rankCategories scores) in
  let res := map (fun r => (cat r, s r)) (firstn (Z.to_nat topK) passing) in
  recommendForMember mat memberIndex topK minThreshold = Ok res
  /\ (forall p, In p res -> le minThreshold (snd p) = true)
  /\ length res
     = Nat.min (Z.to_nat topK) (length (filter (fun x => le minThreshold x) scores)).
Proof.
  intros mat H0 Hidx Htop scores (x & Hx & Hpass) passing res. repeat split.
  - unfold mat. rewrite recommendForMember_in_range by assumption.
    fold mat. fold scores. cbv zeta. fold passing.
    assert (Hne : passing <> []).
    { assert (Hin : exists r, In r (rankCategories scores) /\ s r = x).
      { apply (In_nth _ _ NaN) in Hx. destruct Hx as (i & Hi & Hnth).
        exists (mkRanked (nth_error CATEGORY_NAMES i) (get scores i)). split; [|exact Hnth].
        apply (Permutation_in _ (Permutation_sym (rankCategories_perm scores))).
        unfold categoryScores. apply in_map_iff. exists i. split; [reflexivity|].
        apply in_seq. lia. }
      destruct Hin as (r & Hr & Hs). intros Hnil.
      assert (Hrp : In r passing) by (apply filter_In; rewrite Hs; auto).
      rewrite Hnil in Hrp. destruct Hrp. }
    destruct passing as [|r0 passing'] eqn:E; [contradiction|].
    unfold slice0. destruct (Z.ltb_spec topK 0); [lia | reflexivity].
  - intros p Hp. unfold res in Hp. apply in_map_iff in Hp.
    destruct Hp as (r & <- & Hr). apply In_firstn in Hr. apply filter_In in Hr. apply Hr.
  - unfold res. rewrite length_map, length_firstn. unfold passing.
    rewrite passing_count. reflexivity.
Qed.

End RecommendThreshold.

(** ** Rows that the shape checks do not look at *)

Section ShapeChecks.

Context {A : Arith}.

(** C7. The guards look at the first row only: a matrix whose first row has
    10 columns passes the shape check of [loadCsv] and the guards of
    [recommendForMember], whatever the lengths of its other rows, and
    [recommendForMember] returns a ranking for every member in range;
    [kmeans], which has no guard, returns a clustering of it for every
    [K] from 1 to the number of rows. *)
Theorem shape_checks_pass_ragged_rows
        (row0 : Row) (rows : Matrix) (memberIndex topK : Z) (minThreshold : num)
        (K maxIter : nat) (seed : Z) (nInit : nat) :
  let mat := row0 :: rows in
  length row0 = 10 ->
  (0 <= memberIndex < Z.of_nat (length mat))%Z ->
  1 <= K <= length mat ->
  loadCsvCheck mat = Ok tt
  /\ (exists res, recommendForMember mat memberIndex topK minThreshold = Ok res)
  /\ (exists res, kmeans mat K maxIter seed nInit = Ok res).
Proof.
  intros mat H0 Hidx HK. split; [|split].
  - unfold mat, loadCsvCheck. rewrite H0. reflexivity.
  - unfold mat. rewrite recommendForMember_in_range by assumption. eexists. reflexivity.
  - destruct (kmeans_ok mat K maxIter seed nInit HK) as (r & Hr & _). exists r. exact Hr.
Qed.

End ShapeChecks.

Lemma recommendForMember_keeps_to_threshold_witness :
  recommendForMember Examples.member 0 3 0.5%float
  = Ok [(Some "Clothing"%string, 0.875%float);
        (Some "LuxuryGoods"%string, 0.75%float);
        (Some "Groceries"%string, 0.625%float)].
Proof.
  destruct (recommendForMember_keeps_to_threshold (A:=F64)
              (hd [] Examples.member) (tl Examples.member) 0 3 0.5%float) as [H _].
  - reflexivity.
  - simpl. lia.
  - lia.
  - exists 0.5%float. split; [simpl; auto | reflexivity].
  - exact H.
Defined.

(** ** The order that [sort] establishes *)

Section InsertionSort.

Context {A : Arith}.
Variables (T : Type) (cmp : T -> T -> num) (after : T -> T -> bool) (P : T -> Prop)
          (earlier : T -> T -> Prop).
Hypothesis cmp_after : forall x y, lt zero (cmp x y) = after x y.
Hypothesis after_asym : forall x y, after x y = true -> after y x = false.
Hypothesis after_neg : forall x y z, P y ->
    after x y = false -> after y z = false -> after x z = false.

Lemma insertBy_sorted (x : T) (r : list T) :
  Forall P r ->
  (forall y, In y r -> earlier x y) ->
  StronglySorted (inOrder T after earlier) r ->
  StronglySorted (inOrder T after earlier) (insertBy cmp x r).
Proof.
  intros HP Hpos Hr. induction Hr as [|y r Hr IH Hy]; simpl.
  - constructor; constructor.
  - inversion HP as [|? ? HPy HPr]; subst.
    rewrite cmp_after. destruct (after x y) eqn:E.
    + constructor.
      * apply IH; [exact HPr | intros z Hz; apply Hpos; right; exact Hz].
      * apply Forall_forall. intros z Hz.
        apply (Permutation_in _ (insertBy_perm cmp x r)) in Hz. destruct Hz as [<-|Hz].
        -- split; [apply after_asym, E | intros H; congruence].
        -- rewrite Forall_forall in Hy. apply Hy, Hz.
    + constructor.
      * constructor; assumption.
      * apply Forall_forall. intros z Hz. split.
        -- destruct Hz as [<-|Hz]; [exact E|].
           rewrite Forall_forall in Hy. destruct (Hy z Hz) as [Hyz _].
           apply after_neg with y; assumption.
        -- intros _. apply Hpos, Hz.
Qed.

Lemma sortBy_sorted (l : list T) :
  Forall P l ->
  StronglySorted earlier l ->
  StronglySorted (inOrder T after earlier) (sortBy cmp l).
Proof.
  intros HP Hl. induction Hl as [|x l Hl IH Hx]; simpl.
  - constructor.
  - inversion HP as [|? ? HPx HPl]; subst.
    apply insertBy_sorted.
    + apply Forall_forall. intros y Hy.
      apply (Permutation_in _ (sortBy_perm cmp l)) in Hy.
      rewrite Forall_forall in HPl. apply HPl, Hy.
    + intros y Hy. apply (Permutation_in _ (sortBy_perm cmp l)) in Hy.
      rewrite Forall_forall in Hx. apply Hx, Hy.
    + apply IH, HPl.
Qed.

End InsertionSort.

Lemma seq_sorted (a n : nat) : StronglySorted (fun i j => i < j) (seq a n).
Proof.
  revert a. induction n as [|n IH]; intros a; simpl; constructor.
  - apply IH.
  - apply Forall_forall. intros j Hj. apply in_seq in Hj. lia.
Qed.

Lemma StronglySorted_map {T U : Type} (R : U -> U -> Prop) (f : T -> U) (l : list T) :
  StronglySorted (fun a b => R (f a) (f b)) l -> StronglySorted R (map f l).
Proof.
  induction 1 as [|x l Hl IH Hx]; simpl; constructor; [exact IH|].
  apply Forall_forall. intros y Hy. apply in_map_iff in Hy. destruct Hy as (z & <- & Hz).
  rewrite Forall_forall in Hx. apply Hx, Hz.
Qed.

Lemma StronglySorted_filter {T : Type} (R : T -> T -> Prop) (p : T -> bool) (l : list T) :
  StronglySorted R l -> StronglySorted R (filter p l).
Proof.
  induction 1 as [|x l Hl IH Hx]; simpl; [constructor|].
  destruct (p x); [|exact IH]. constructor; [exact IH|].
  apply Forall_forall. intros y Hy. apply filter_In in Hy.
  rewrite Forall_forall in Hx. apply Hx, Hy.
Qed.

Lemma StronglySorted_firstn {T : Type} (R : T -> T -> Prop) (k : nat) (l : list T) :
  StronglySorted R l -> StronglySorted R (firstn k l).
Proof.
  intros H. revert k. induction H as [|x l Hl IH Hx]; intros [|k]; simpl; try constructor.
  - apply IH.
  - apply Forall_forall. intros y Hy. apply In_firstn in Hy.
    rewrite Forall_forall in Hx. apply Hx, Hy.
Qed.

Lemma StronglySorted_nth {T : Type} (R : T -> T -> Prop) (l : list T) (d : T) (p q : nat) :
  StronglySorted R l -> p < q < length l -> R (nth p l d) (nth q l d).
Proof.
  intros H. revert p q. induction H as [|x l Hl IH Hx]; intros p q Hpq; simpl in Hpq; [lia|].
  destruct q as [|q]; [lia|]. destruct p as [|p]; simpl.
  - rewrite Forall_forall in Hx. apply Hx. apply nth_In. lia.
  - apply IH. lia.
Qed.

Lemma sortBy_map {A : Arith} {T U : Type} (cmp : U -> U -> num) (f : T -> U) (l : list T) :
  sortBy cmp (map f l) = map f (sortBy (fun a b => cmp (f a) (f b)) l).
Proof.
  induction l as [|x l IH]; simpl; [reflexivity|]. rewrite IH.
  generalize (sortBy (fun a b => cmp (f a) (f b)) l). intros r.
  induction r as [|y r IHr]; simpl; [reflexivity|].
  destruct (lt zero (cmp (f x) (f y))); simpl; [rewrite IHr|]; reflexivity.
Qed.

(** ** The sign of a binary64 difference *)

Module Float64Sub.

Lemma digits2_bounds (m : positive) :
  (2 ^ (Z.pos (digits2_pos m) - 1) <= Z.pos m < 2 ^ Z.pos (digits2_pos m))%Z.
Proof.
  induction m as [m IH|m IH|]; cbn [digits2_pos].
  - rewrite Pos2Z.inj_succ.
    replace (Z.succ (Z.pos (digits2_pos m)) - 1)%Z with (Z.succ (Z.pos (digits2_pos m) - 1))%Z
      by lia.
    rewrite !Z.pow_succ_r by lia. lia.
  - rewrite Pos2Z.inj_succ.
    replace (Z.succ (Z.pos (digits2_pos m)) - 1)%Z with (Z.succ (Z.pos (digits2_pos m) - 1))%Z
      by lia.
    rewrite !Z.pow_succ_r by lia. lia.
  - simpl. lia.
Qed.

(** A valid finite binary64 has an exponent of at least -1074 and a
    mantissa below 2^53, of 53 bits unless the exponent is -1074. *)
Lemma bounded_facts (m : positive) (e : Z) :
  SpecFloat.bounded prec emax m e = true ->
  (-1074 <= e)%Z /\ (Z.pos m < 2 ^ 53)%Z /\ ((-1074 < e)%Z -> (2 ^ 52 <= Z.pos m)%Z).
Proof.
  unfold SpecFloat.bounded, canonical_mantissa, fexp, emin, prec, emax. intros H.
  apply andb_true_iff in H. destruct H as [H _]. apply Z.eqb_eq in H.
  pose proof (digits2_bounds m) as Hd.
  set (d := Z.pos (digits2_pos m)) in *.
  assert (Hd1 : (1 <= d)%Z) by (unfold d; lia).
  split; [lia|]. split.
  - assert (Hle : (d <= 53)%Z) by lia.
    apply Z.lt_le_trans with (2 ^ d)%Z; [lia|]. apply Z.pow_le_mono_r; lia.
  - intros He. assert (Hd53 : d = 53%Z) by lia. rewrite Hd53 in Hd. simpl in Hd. lia.
Qed.

Lemma iter_xO (d m : positive) : Z.pos (Pos.iter xO m d) = (Z.pos m * 2 ^ Z.pos d)%Z.
Proof.
  induction d as [|d IH] using Pos.peano_ind.
  - simpl. lia.
  - rewrite Pos.iter_succ, Pos2Z.inj_xO, IH, Pos2Z.inj_succ, Z.pow_succ_r by lia. ring.
Qed.

Lemma shl_align_value (mx : positive) (ex ez : Z) :
  (ez <= ex)%Z -> Z.pos (fst (shl_align mx ex ez)) = (Z.pos mx * 2 ^ (ex - ez))%Z.
Proof.
  intros H. unfold shl_align. destruct (ez - ex)%Z as [|p|d] eqn:E; cbn [fst].
  - replace (ex - ez)%Z with 0%Z by lia. simpl. lia.
  - lia.
  - rewrite iter_xO. replace (ex - ez)%Z with (Z.pos d) by lia. reflexivity.
Qed.

Lemma SFcompare_value (sx : bool) (mx : positive) (ex : Z) (sy : bool) (my : positive) (ey : Z) :
  SpecFloat.bounded prec emax mx ex = true -> SpecFloat.bounded prec emax my ey = true ->
  let ez := Z.min ex ey in
  SFcompare (S754_finite sx mx ex) (S754_finite sy my ey)
  = Some (scaledTo ez sx mx ex ?= scaledTo ez sy my ey)%Z.
Proof.
  intros Hx Hy ez.
  destruct (bounded_facts mx ex Hx) as (Hex & Hmx & Hnx).
  destruct (bounded_facts my ey Hy) as (Hey & Hmy & Hny).
  assert (Hlt : forall (a b : positive) (ea eb : Z),
             (Z.pos a < 2 ^ 53)%Z -> (2 ^ 52 <= Z.pos b)%Z -> (ea < eb)%Z ->
             (Z.pos a * 2 ^ (ea - Z.min ea eb) < Z.pos b * 2 ^ (eb - Z.min ea eb))%Z).
  { intros a b ea eb Ha Hb Hab. rewrite Z.min_l by lia. rewrite Z.sub_diag.
    assert (HP : (2 ^ 1 <= 2 ^ (eb - ea))%Z) by (apply Z.pow_le_mono_r; lia).
    set (P := (2 ^ (eb - ea))%Z) in *. simpl in HP. change (2 ^ 0)%Z with 1%Z.
    change (2 ^ 53)%Z with 9007199254740992%Z in Ha.
    change (2 ^ 52)%Z with 4503599627370496%Z in Hb. nia. }
  unfold scaledTo, ez. cbn [SFcompare]. f_equal.
  destruct (Z.compare_spec ex ey) as [E|E|E].
  - subst ey. rewrite Z.min_id, Z.sub_diag. change (2 ^ 0)%Z with 1%Z. rewrite !Z.mul_1_r.
    change (Pos.compare_cont Eq mx my) with (mx ?= my)%positive.
    destruct sx, sy; reflexivity.
  - pose proof (Hlt mx my ex ey Hmx (Hny ltac:(lia)) E) as H.
    destruct sx, sy; cbn [cond_Zopp]; symmetry.
    + apply Z.compare_gt_iff. lia.
    + apply Z.compare_lt_iff. lia.
    + apply Z.compare_gt_iff. lia.
    + apply Z.compare_lt_iff. lia.
  - pose proof (Hlt my mx ey ex Hmy (Hnx ltac:(lia)) E) as H.
    rewrite (Z.min_comm ey ex) in H.
    destruct sx, sy; cbn [cond_Zopp]; symmetry.
    + apply Z.compare_lt_iff. lia.
    + apply Z.compare_lt_iff. lia.
    + apply Z.compare_gt_iff. lia.
    + apply Z.compare_gt_iff. lia.
Qed.

Lemma shr_1_m (mrs : shr_record) :
  (0 <= shr_m mrs)%Z -> shr_m (shr_1 mrs) = (shr_m mrs / 2)%Z /\ (0 <= shr_m (shr_1 mrs))%Z.
Proof.
  destruct mrs as [m r s]. cbn [shr_m]. intros H.
  destruct m as [|[p|p|]|p]; cbn [shr_1 shr_m]; try lia.
  - split; [reflexivity | lia].
  - split; [|lia]. apply Z.div_unique with 1%Z; lia.
  - split; [|lia]. apply Z.div_unique with 0%Z; lia.
  - split; [reflexivity | lia].
Qed.

Lemma iter_pos_shr (q : positive) (mrs : shr_record) :
  (0 <= shr_m mrs)%Z ->
  shr_m (SpecFloat.iter_pos shr_1 q mrs) = (shr_m mrs / 2 ^ Z.pos q)%Z
  /\ (0 <= shr_m (SpecFloat.iter_pos shr_1 q mrs))%Z.
Proof.
  revert mrs. induction q as [q IH|q IH|]; intros mrs H; cbn [SpecFloat.iter_pos].
  - destruct (shr_1_m mrs H) as [E1 H1].
    destruct (IH _ H1) as [E2 H2]. destruct (IH _ H2) as [E3 H3].
    split; [|exact H3]. rewrite E3, E2, E1.
    assert (HP : (0 < 2 ^ Z.pos q)%Z) by (apply Z.pow_pos_nonneg; lia).
    rewrite (Z.div_div _ 2), Z.div_div by lia. f_equal.
    rewrite (Pos2Z.inj_xI q). replace (2 * Z.pos q + 1)%Z with (Z.succ (Z.pos q + Z.pos q)) by lia.
    rewrite Z.pow_succ_r, Z.pow_add_r by lia. ring.
  - destruct (IH _ H) as [E2 H2]. destruct (IH _ H2) as [E3 H3].
    split; [|exact H3]. rewrite E3, E2.
    assert (HP : (0 < 2 ^ Z.pos q)%Z) by (apply Z.pow_pos_nonneg; lia).
    rewrite Z.div_div by lia. f_equal.
    rewrite (Pos2Z.inj_xO q). replace (2 * Z.pos q)%Z with (Z.pos q + Z.pos q)%Z by lia.
    rewrite Z.pow_add_r by lia. ring.
  - destruct (shr_1_m mrs H) as [E1 H1]. split; [|exact H1]. rewrite E1. reflexivity.
Qed.

Lemma shr_record_of_loc_m (m : Z) (l : location) : shr_m (shr_record_of_loc m l) = m.
Proof. destruct l as [|[]]; reflexivity. Qed.

(** Rounding a positive mantissa at an exponent of at least -1074 leaves a
    positive mantissa. *)
Lemma shr_fexp_pos (mz : positive) (e : Z) (l : location) :
  (-1074 <= e)%Z ->
  (1 <= shr_m (fst (shr_fexp prec emax (Z.pos mz) e l)))%Z
  /\ (-1074 <= snd (shr_fexp prec emax (Z.pos mz) e l))%Z.
Proof.
  intros He. unfold shr_fexp, shr, fexp, emin, prec, emax. cbn [Zdigits2].
  pose proof (digits2_bounds mz) as Hd.
  set (d := Z.pos (digits2_pos mz)) in *.
  assert (Hd1 : (1 <= d)%Z) by (unfold d; lia).
  destruct (Z.max (d + e - 53) (3 - 1024 - 53) - e)%Z as [|q|q] eqn:E; cbn [fst snd].
  - rewrite shr_record_of_loc_m. lia.
  - destruct (iter_pos_shr q (shr_record_of_loc (Z.pos mz) l)) as [Em _].
    { rewrite shr_record_of_loc_m. lia. }
    rewrite Em, shr_record_of_loc_m. split; [|lia].
    apply Z.div_le_lower_bound; [lia|]. rewrite Z.mul_1_r.
    apply Z.le_trans with (2 ^ (d - 1))%Z; [|lia]. apply Z.pow_le_mono_r; lia.
  - rewrite shr_record_of_loc_m. lia.
Qed.

Lemma round_nearest_even_ge (m : Z) (l : location) : (m <= round_nearest_even m l)%Z.
Proof. destruct l as [|[]]; cbn [round_nearest_even]; try lia. destruct (Z.even m); lia. Qed.

Lemma binary_round_aux_pos (mz : positive) (e : Z) (l : location) :
  (-1074 <= e)%Z ->
  SFltb (S754_zero false) (binary_round_aux prec emax false (Z.pos mz) e l) = true.
Proof.
  intros He. unfold binary_round_aux.
  destruct (shr_fexp_pos mz e l He) as [H1 He1].
  destruct (shr_fexp prec emax (Z.pos mz) e l) as [mrs' e']. cbn [fst snd] in H1, He1.
  pose proof (round_nearest_even_ge (shr_m mrs') (loc_of_shr_record mrs')) as Hr.
  destruct (round_nearest_even (shr_m mrs') (loc_of_shr_record mrs')) as [|q2|q2]; try lia.
  destruct (shr_fexp_pos q2 e' loc_Exact He1) as [H2 _].
  destruct (shr_fexp prec emax (Z.pos q2) e' loc_Exact) as [mrs'' e'']. cbn [fst] in H2.
  destruct (shr_m mrs'') as [|m|m]; try lia.
  destruct (Z.leb e'' (emax - prec)); reflexivity.
Qed.

Lemma binary_round_pos (p : positive) (e : Z) :
  (-1074 <= e)%Z -> SFltb (S754_zero false) (binary_round prec emax false p e) = true.
Proof.
  intros He. unfold binary_round.
  assert (Hz : (-1074 <= snd (shl_align p e (fexp prec emax (Z.pos (digits2_pos p) + e))))%Z).
  { unfold shl_align, fexp, emin, prec, emax.
    destruct (Z.max (Z.pos (digits2_pos p) + e - 53) (3 - 1024 - 53) - e)%Z; cbn [snd]; lia. }
  destruct (shl_align p e (fexp prec emax (Z.pos (digits2_pos p) + e))) as [mz ez].
  cbn [snd] in Hz. apply binary_round_aux_pos, Hz.
Qed.

Lemma binary_round_neg (p : positive) (e : Z) :
  SFltb (S754_zero false) (binary_round prec emax true p e) = false.
Proof.
  unfold binary_round, binary_round_aux.
  destruct (shl_align p e _) as [mz ez].
  destruct (shr_fexp prec emax (Z.pos mz) ez loc_Exact) as [mrs' e'].
  destruct (shr_fexp prec emax _ e' loc_Exact) as [mrs'' e''].
  destruct (shr_m mrs'') as [|m|m]; try reflexivity.
  destruct (Z.leb e'' (emax - prec)); reflexivity.
Qed.

(** [0 < y - x] exactly when [x < y]: a difference of two binary64 values
    is zero only if they are equal, thanks to the subnormal numbers. *)
Lemma SFsub_pos (x y : spec_float) :
  valid_binary x = true -> valid_binary y = true ->
  SFltb (S754_zero false) (SFsub prec emax y x) = SFltb x y.
Proof.
  intros Hx Hy.
  destruct x as [sx|sx| |sx mx ex], y as [sy|sy| |sy my ey];
    try (repeat match goal with s : bool |- _ => destruct s end; reflexivity).
  unfold valid_binary in Hx, Hy. cbn [SpecFloat.valid_binary] in Hx, Hy.
  unfold SFltb at 2. rewrite (SFcompare_value sx mx ex sy my ey Hx Hy). cbv zeta.
  destruct (bounded_facts mx ex Hx) as (Hex & _).
  destruct (bounded_facts my ey Hy) as (Hey & _).
  cbn [SFsub]. cbv zeta.
  rewrite !shl_align_value by lia. rewrite (Z.min_comm ey ex).
  fold (scaledTo (Z.min ex ey) sy my ey). fold (scaledTo (Z.min ex ey) sx mx ex).
  set (vx := scaledTo (Z.min ex ey) sx mx ex). set (vy := scaledTo (Z.min ex ey) sy my ey).
  destruct (vy - vx)%Z as [|p|p] eqn:E; cbn [binary_normalize].
  - replace vy with vx by lia. rewrite Z.compare_refl. reflexivity.
  - rewrite binary_round_pos by lia.
    assert (H : (vx ?= vy)%Z = Lt) by (apply Z.compare_lt_iff; lia). rewrite H. reflexivity.
  - rewrite binary_round_neg.
    assert (H : (vx ?= vy)%Z = Gt) by (apply Z.compare_gt_iff; lia). rewrite H. reflexivity.
Qed.

End Float64Sub.

#[export] Instance F64_sort : SortLaws F64.
Proof.
  constructor; simpl.
  - intros x y. rewrite !ltb_spec, sub_spec.
    change (Prim2SF PrimFloat.zero) with (S754_zero false).
    apply Float64Sub.SFsub_pos; apply Prim2SF_valid.
  - intros x y z Hy Hxz.
    apply Float64Order.leb_key in Hy. destruct Hy as (b & b' & Hb & Hb' & _).
    apply Float64Order.ltb_key in Hxz. destruct Hxz as (a & c & Ha & Hc & Hac).
    destruct a as [[a1 a2] a3], b as [[b1 b2] b3], c as [[c1 c2] c3].
    assert (Hor : Float64Key.lexlt (a1, a2, a3) (b1, b2, b3)
                  \/ Float64Key.lexlt (b1, b2, b3) (c1, c2, c3)).
    { unfold Float64Key.lexlt in *. lia. }
    destruct Hor as [H|H]; [left | right]; apply Float64Order.ltb_key; do 2 eexists; eauto.
Qed.

(** ** Bounds on binary64 results

    Rounding to nearest is monotone: a result whose exact value is at most
    a bound that the format holds is itself at most that bound.  The bounds
    are integers times a power of 2, so that all of it is integer
    arithmetic. *)

Module Float64Bound.

Import Float64Sub.
Local Open Scope Z_scope.

Lemma Zdigits2_bounds (m : Z) :
  0 < m -> 2 ^ (Zdigits2 m - 1) <= m < 2 ^ Zdigits2 m.
Proof.
  intros H. destruct m as [|p|p]; try lia. apply (digits2_bounds p).
Qed.

Lemma Zdigits2_nonneg (m : Z) : 0 <= m -> 0 <= Zdigits2 m.
Proof. intros H. destruct m as [|p|p]; simpl; lia. Qed.

(** The number of bits grows with the number. *)
Lemma Zdigits2_le_shift (m M k : Z) :
  0 <= m -> 0 < M -> 0 <= k -> m <= M * 2 ^ k -> Zdigits2 m <= Zdigits2 M + k.
Proof.
  intros Hm HM Hk Hle.
  destruct (Z.eq_dec m 0) as [->|Hne].
  { pose proof (Zdigits2_nonneg M). simpl. lia. }
  pose proof (Zdigits2_bounds m ltac:(lia)) as [Hlo _].
  pose proof (Zdigits2_bounds M HM) as [_ Hhi].
  pose proof (Zdigits2_nonneg M ltac:(lia)) as HdM.
  assert (Hp : 0 < 2 ^ k) by (apply Z.pow_pos_nonneg; lia).
  assert (Hlt : 2 ^ (Zdigits2 m - 1) < 2 ^ (Zdigits2 M + k)).
  { rewrite Z.pow_add_r by lia. nia. }
  apply Z.pow_lt_mono_r_iff in Hlt; lia.
Qed.

(** One step of the right shift: the mantissa is halved, rounded down, and
    what is dropped is remembered. *)
Lemma shr_1_inv (x : shr_record) :
  0 <= shr_m x ->
  0 <= shr_m (shr_1 x)
  /\ shr_m (shr_1 x) * 2 <= shr_m x
  /\ shr_m (shr_1 x) * 2 + inexact (shr_1 x) <= shr_m x + inexact x.
Proof.
  destruct x as [m r s]. unfold inexact. cbn [shr_m shr_r shr_s]. intros H.
  destruct m as [|[p|p|]|p]; cbn [shr_1 shr_m shr_r shr_s]; try lia;
    destruct r, s; cbn [orb Z.b2z]; lia.
Qed.

Lemma shr_compose (mx my mz ix iy iz N K : Z) :
  0 <= iy <= 1 -> 0 <= iz <= 1 -> 1 <= N -> 1 <= K ->
  0 <= my -> my * N <= mx -> my * N + iy <= mx + ix ->
  0 <= mz -> mz * K <= my -> mz * K + iz <= my + iy ->
  mz * (K * N) <= mx /\ mz * (K * N) + iz <= mx + ix.
Proof. intros. split; nia. Qed.

Lemma inexact_range (x : shr_record) : 0 <= inexact x <= 1.
Proof. unfold inexact. destruct (shr_r x || shr_s x); simpl; lia. Qed.

Lemma iter_shr_inv (q : positive) (x : shr_record) :
  0 <= shr_m x ->
  let y := SpecFloat.iter_pos shr_1 q x in
  0 <= shr_m y
  /\ shr_m y * 2 ^ Z.pos q <= shr_m x
  /\ shr_m y * 2 ^ Z.pos q + inexact y <= shr_m x + inexact x.
Proof.
  revert x. induction q as [q IH|q IH|]; intros x H; cbn [SpecFloat.iter_pos]; cbv zeta.
  - destruct (shr_1_inv x H) as (H1 & A1 & B1).
    destruct (IH _ H1) as (H2 & A2 & B2). cbv zeta in *.
    destruct (IH _ H2) as (H3 & A3 & B3). cbv zeta in *.
    set (x1 := shr_1 x) in *. set (x2 := SpecFloat.iter_pos shr_1 q x1) in *.
    set (x3 := SpecFloat.iter_pos shr_1 q x2) in *.
    assert (HP : 1 <= 2 ^ Z.pos q) by (apply (Z.pow_le_mono_r 2 0); lia).
    pose proof (inexact_range x1). pose proof (inexact_range x2). pose proof (inexact_range x3).
    destruct (shr_compose (shr_m x1) (shr_m x2) (shr_m x3) (inexact x1) (inexact x2) (inexact x3)
                (2 ^ Z.pos q) (2 ^ Z.pos q)) as [C1 C2]; try assumption.
    destruct (shr_compose (shr_m x) (shr_m x1) (shr_m x3) (inexact x) (inexact x1) (inexact x3)
                2 (2 ^ Z.pos q * 2 ^ Z.pos q)) as [D1 D2]; try assumption; try lia.
    rewrite (Pos2Z.inj_xI q).
    replace (2 * Z.pos q + 1) with (Z.pos q + Z.pos q + 1) by lia.
    rewrite !Z.pow_add_r by lia. change (2 ^ 1) with 2. split; [exact H3|]. split; lia.
  - destruct (IH _ H) as (H2 & A2 & B2). cbv zeta in *.
    destruct (IH _ H2) as (H3 & A3 & B3). cbv zeta in *.
    set (x2 := SpecFloat.iter_pos shr_1 q x) in *.
    set (x3 := SpecFloat.iter_pos shr_1 q x2) in *.
    assert (HP : 1 <= 2 ^ Z.pos q) by (apply (Z.pow_le_mono_r 2 0); lia).
    pose proof (inexact_range x2). pose proof (inexact_range x3).
    destruct (shr_compose (shr_m x) (shr_m x2) (shr_m x3) (inexact x) (inexact x2) (inexact x3)
                (2 ^ Z.pos q) (2 ^ Z.pos q)) as [C1 C2]; try assumption.
    rewrite (Pos2Z.inj_xO q).
    replace (2 * Z.pos q) with (Z.pos q + Z.pos q) by lia.
    rewrite !Z.pow_add_r by lia. split; [exact H3|]. split; lia.
  - destruct (shr_1_inv x H) as (H1 & A1 & B1). change (2 ^ 1) with 2. auto.
Qed.

Lemma inexact_of_loc (m : Z) (l : location) :
  inexact (shr_record_of_loc m l) = inexactLoc l.
Proof. destruct l as [|[]]; reflexivity. Qed.

Lemma inexactLoc_of_record (x : shr_record) :
  inexactLoc (loc_of_shr_record x) = inexact x.
Proof. destruct x as [m [] []]; reflexivity. Qed.

(** The shift to the exponent of the format keeps a mantissa, with what
    was dropped counted as one unit, under a bound that the format holds. *)
Lemma shr_fexp_le (m e : Z) (l : location) (M eB : Z) :
  0 <= m -> repBound M eB -> e <= eB ->
  m + inexactLoc l <= M * 2 ^ (eB - e) ->
  let mrs := fst (shr_fexp prec emax m e l) in
  let e' := snd (shr_fexp prec emax m e l) in
  0 <= shr_m mrs /\ e <= e' <= eB
  /\ shr_m mrs + inexact mrs <= M * 2 ^ (eB - e').
Proof.
  intros Hm (HM & Hrep & Htop) He Hle.
  assert (Hi : 0 <= inexactLoc l <= 1) by (destruct l; simpl; lia).
  unfold shr_fexp, shr, fexp, emin, prec, emax.
  assert (Hd : Zdigits2 m <= Zdigits2 M + (eB - e))
    by (apply Zdigits2_le_shift; lia).
  destruct (Z.max (Zdigits2 m + e - 53) (3 - 1024 - 53) - e) as [|q|q] eqn:E; cbn [fst snd].
  - rewrite shr_record_of_loc_m, inexact_of_loc. lia.
  - destruct (iter_shr_inv q (shr_record_of_loc m l)) as (H0 & A & B).
    { rewrite shr_record_of_loc_m. exact Hm. }
    cbv zeta in *. rewrite shr_record_of_loc_m, inexact_of_loc in *.
    set (y := SpecFloat.iter_pos shr_1 q (shr_record_of_loc m l)) in *.
    pose proof (inexact_range y) as Hy.
    assert (He' : e + Z.pos q <= eB) by lia.
    split; [exact H0|]. split; [lia|].
    assert (HP : 0 < 2 ^ Z.pos q) by (apply Z.pow_pos_nonneg; lia).
    assert (Hsplit : M * 2 ^ (eB - e) = M * 2 ^ (eB - (e + Z.pos q)) * 2 ^ Z.pos q).
    { rewrite <- Z.mul_assoc, <- Z.pow_add_r by lia. do 2 f_equal. lia. }
    rewrite Hsplit in Hle.
    set (X := M * 2 ^ (eB - (e + Z.pos q))) in *. nia.
  - rewrite shr_record_of_loc_m, inexact_of_loc. lia.
Qed.

Lemma round_nearest_even_le (m : Z) (l : location) :
  m <= round_nearest_even m l <= m + inexactLoc l.
Proof. destruct l as [|[]]; cbn [round_nearest_even inexactLoc]; try lia. destruct (Z.even m); lia. Qed.

(** Rounding does not carry a number over a bound that the format holds. *)
Lemma binary_round_aux_le (s : bool) (m e : Z) (l : location) (M eB : Z) :
  0 <= m -> repBound M eB -> e <= eB ->
  m + inexactLoc l <= M * 2 ^ (eB - e) ->
  magLe (binary_round_aux prec emax s m e l) M eB.
Proof.
  intros Hm Hrep He Hle. unfold binary_round_aux.
  destruct (shr_fexp_le m e l M eB Hm Hrep He Hle) as (H1 & He1 & B1). cbv zeta in *.
  destruct (shr_fexp prec emax m e l) as [mrs' e']. cbn [fst snd] in *.
  pose proof (round_nearest_even_le (shr_m mrs') (loc_of_shr_record mrs')) as Hr.
  rewrite inexactLoc_of_record in Hr.
  set (m2 := round_nearest_even (shr_m mrs') (loc_of_shr_record mrs')) in *.
  destruct (shr_fexp_le m2 e' loc_Exact M eB) as (H3 & He3 & B3);
    [lia | exact Hrep | lia | simpl; lia |]. cbv zeta in *.
  destruct (shr_fexp prec emax m2 e' loc_Exact) as [mrs'' e'']. cbn [fst snd] in *.
  pose proof (inexact_range mrs'') as Hi.
  destruct Hrep as (_ & _ & Htop).
  destruct (shr_m mrs'') as [|p|p] eqn:Em; [exact I | | lia].
  unfold emax, prec.
  destruct (Z.leb_spec e'' (1024 - 53)) as [_|Hover]; [|lia].
  cbn [magLe]. rewrite Z.min_l by lia. rewrite Z.sub_diag. change (2 ^ 0) with 1. lia.
Qed.

Lemma pow2_split (M a b : Z) : 0 <= a -> 0 <= b -> M * 2 ^ (a + b) = M * 2 ^ a * 2 ^ b.
Proof. intros Ha Hb. rewrite Z.pow_add_r by lia. ring. Qed.

Lemma shl_align_spec (p : positive) (e t : Z) :
  snd (shl_align p e t) <= e
  /\ Z.pos (fst (shl_align p e t)) = Z.pos p * 2 ^ (e - snd (shl_align p e t)).
Proof.
  unfold shl_align. destruct (t - e) as [|q|d] eqn:E; cbn [fst snd].
  - rewrite Z.sub_diag. simpl. lia.
  - rewrite Z.sub_diag. simpl. lia.
  - rewrite iter_xO. split; [lia|]. replace (e - t) with (Z.pos d) by lia. reflexivity.
Qed.

Lemma binary_round_le (s : bool) (p : positive) (e M eB : Z) :
  repBound M eB -> e <= eB -> Z.pos p <= M * 2 ^ (eB - e) ->
  magLe (binary_round prec emax s p e) M eB.
Proof.
  intros Hrep He Hle. unfold binary_round.
  destruct (shl_align_spec p e (fexp prec emax (Z.pos (digits2_pos p) + e))) as [He' Hm].
  destruct (shl_align p e (fexp prec emax (Z.pos (digits2_pos p) + e))) as [mz ez].
  cbn [fst snd] in *.
  apply binary_round_aux_le; [lia | exact Hrep | lia |].
  cbn [inexactLoc]. rewrite Z.add_0_r, Hm.
  replace (eB - ez) with ((eB - e) + (e - ez)) by lia.
  rewrite pow2_split by lia.
  apply Z.mul_le_mono_nonneg_r; [apply Z.pow_nonneg; lia | exact Hle].
Qed.

Lemma binary_normalize_le (z e M eB : Z) (szero : bool) :
  repBound M eB -> e <= eB -> Z.abs z <= M * 2 ^ (eB - e) ->
  magLe (binary_normalize prec emax z e szero) M eB.
Proof.
  intros Hrep He Hle. destruct z as [|p|p]; cbn [binary_normalize].
  - exact I.
  - apply binary_round_le; [exact Hrep | exact He | exact Hle].
  - apply binary_round_le; [exact Hrep | exact He | exact Hle].
Qed.

Lemma Zdigits2_shift_le (m M k : Z) :
  0 < m -> 0 <= k -> m * 2 ^ k <= M -> Zdigits2 m + k <= Zdigits2 M.
Proof.
  intros Hm Hk Hle.
  assert (Hp : 0 < 2 ^ k) by (apply Z.pow_pos_nonneg; lia).
  assert (HM : 0 < M) by nia.
  pose proof (Zdigits2_bounds m Hm) as [Hlo _].
  pose proof (Zdigits2_bounds M HM) as [_ Hhi].
  pose proof (Zdigits2_nonneg M ltac:(lia)) as HdM.
  assert (Hd1 : 1 <= Zdigits2 m) by (destruct m; simpl; lia).
  assert (Hlt : 2 ^ (Zdigits2 m - 1 + k) < 2 ^ Zdigits2 M).
  { rewrite Z.pow_add_r by lia. nia. }
  apply Z.pow_lt_mono_r_iff in Hlt; lia.
Qed.

(** A binary64 number under a bound that the format holds has an exponent
    not above the exponent of the bound. *)
Lemma magLe_exponent (s : bool) (m : positive) (ex M eB : Z) :
  SpecFloat.bounded prec emax m ex = true -> repBound M eB ->
  magLe (S754_finite s m ex) M eB -> ex <= eB.
Proof.
  intros Hb (HM & Hrep & _) Hle. cbn [magLe] in Hle.
  destruct (Z.le_gt_cases ex eB) as [H|H]; [exact H|].
  rewrite Z.min_r in Hle by lia. rewrite Z.sub_diag in Hle. change (2 ^ 0) with 1 in Hle.
  pose proof (Zdigits2_shift_le (Z.pos m) M (ex - eB) ltac:(lia) ltac:(lia) ltac:(lia)) as Hd.
  unfold SpecFloat.bounded, canonical_mantissa, fexp, emin, prec, emax in Hb.
  apply andb_true_iff in Hb. destruct Hb as [Hc _]. apply Z.eqb_eq in Hc.
  cbn [Zdigits2] in Hd. lia.
Qed.

Lemma magLe_scaled (s : bool) (m : positive) (ex M eB z : Z) :
  SpecFloat.bounded prec emax m ex = true -> repBound M eB ->
  magLe (S754_finite s m ex) M eB -> z <= ex ->
  Z.pos m * 2 ^ (ex - z) <= M * 2 ^ (eB - z).
Proof.
  intros Hb Hrep Hle Hz.
  pose proof (magLe_exponent s m ex M eB Hb Hrep Hle) as He.
  cbn [magLe] in Hle. rewrite Z.min_l in Hle by lia. rewrite Z.sub_diag in Hle.
  change (2 ^ 0) with 1 in Hle. rewrite Z.mul_1_r in Hle.
  replace (eB - z) with ((eB - ex) + (ex - z)) by lia. rewrite pow2_split by lia.
  apply Z.mul_le_mono_nonneg_r; [apply Z.pow_nonneg; lia | exact Hle].
Qed.

Lemma magLe_mono (x : spec_float) (M M' e : Z) : M <= M' -> magLe x M e -> magLe x M' e.
Proof.
  intros HM. destruct x as [s|s| |s m ex]; cbn [magLe]; auto. intros H.
  assert (Hp : 0 <= 2 ^ (e - Z.min ex e)) by (apply Z.pow_nonneg; lia). nia.
Qed.

Lemma repBound_le (M M' e : Z) : 0 < M -> M <= M' -> repBound M' e -> repBound M e.
Proof.
  intros HM Hle (HM' & Hrep & Htop). split; [exact HM|]. split; [|exact Htop].
  pose proof (Zdigits2_le_shift M M' 0 ltac:(lia) HM' ltac:(lia) ltac:(simpl; lia)). lia.
Qed.

Lemma magLe_at (s : bool) (m : positive) (ex M e z : Z) :
  z <= ex -> z <= e ->
  magLe (S754_finite s m ex) M e <-> Z.pos m * 2 ^ (ex - z) <= M * 2 ^ (e - z).
Proof.
  intros Hx He. cbn [magLe]. set (w := Z.min ex e).
  assert (Hw : z <= w) by (unfold w; lia).
  assert (Hwx : w <= ex) by (unfold w; lia).
  assert (Hwe : w <= e) by (unfold w; lia).
  replace (ex - z) with ((ex - w) + (w - z)) by lia.
  replace (e - z) with ((e - w) + (w - z)) by lia.
  rewrite !pow2_split by lia.
  apply Z.mul_le_mono_pos_r. apply Z.pow_pos_nonneg; lia.
Qed.

Lemma magLe_pos (s : bool) (m : positive) (ex M e : Z) :
  magLe (S754_finite s m ex) M e -> 0 < M.
Proof.
  cbn [magLe]. intros H.
  assert (H1 : 0 < 2 ^ (ex - Z.min ex e)) by (apply Z.pow_pos_nonneg; lia).
  assert (H2 : 0 < 2 ^ (e - Z.min ex e)) by (apply Z.pow_pos_nonneg; lia).
  nia.
Qed.

Lemma magLe_refl (s : bool) (m : positive) (e : Z) : magLe (S754_finite s m e) (Z.pos m) e.
Proof. cbn [magLe]. lia. Qed.

(** A valid finite number is a bound that the format holds. *)
Lemma bounded_repBound (m : positive) (e : Z) :
  SpecFloat.bounded prec emax m e = true -> repBound (Z.pos m) e.
Proof.
  unfold SpecFloat.bounded, canonical_mantissa, fexp, emin, prec, emax. intros H.
  apply andb_true_iff in H. destruct H as [H1 H2].
  apply Z.eqb_eq in H1. apply Z.leb_le in H2.
  unfold repBound. cbn [Zdigits2]. lia.
Qed.

(** The sum of two numbers under bounds is under the sum of the bounds, if
    the format holds that sum. *)
Lemma SFadd_le (x y : spec_float) (M1 M2 eB : Z) :
  valid_binary x = true -> valid_binary y = true ->
  0 <= M1 -> 0 <= M2 -> repBound (M1 + M2) eB ->
  magLe x M1 eB -> magLe y M2 eB ->
  magLe (SFadd prec emax x y) (M1 + M2) eB.
Proof.
  intros Hx Hy H1 H2 Hrep Lx Ly.
  destruct x as [sx|sx| |sx mx ex], y as [sy|sy| |sy my ey]; cbn [magLe] in Lx, Ly;
    try contradiction.
  - destruct sx, sy; exact I.
  - cbn [SFadd]. apply magLe_mono with M2; [lia | exact Ly].
  - cbn [SFadd]. apply magLe_mono with M1; [lia | exact Lx].
  - pose proof (magLe_pos sx mx ex M1 eB Lx) as P1. pose proof (magLe_pos sy my ey M2 eB Ly) as P2.
    unfold valid_binary in Hx, Hy. cbn [SpecFloat.valid_binary] in Hx, Hy.
    assert (R1 : repBound M1 eB) by (apply repBound_le with (M1 + M2); [lia | lia | exact Hrep]).
    assert (R2 : repBound M2 eB) by (apply repBound_le with (M1 + M2); [lia | lia | exact Hrep]).
    pose proof (magLe_exponent sx mx ex M1 eB Hx R1 Lx) as Ex.
    pose proof (magLe_exponent sy my ey M2 eB Hy R2 Ly) as Ey.
    pose proof (magLe_scaled sx mx ex M1 eB (Z.min ex ey) Hx R1 Lx ltac:(lia)) as Sx.
    pose proof (magLe_scaled sy my ey M2 eB (Z.min ex ey) Hy R2 Ly ltac:(lia)) as Sy.
    cbn [SFadd]. cbv zeta. rewrite !shl_align_value by lia.
    apply binary_normalize_le; [exact Hrep | lia |].
    destruct sx, sy; cbn [cond_Zopp]; lia.
Qed.

(** The difference of two non-negative numbers under a bound is under the
    same bound. *)
Lemma SFsub_le (x y : spec_float) (M eB : Z) :
  valid_binary x = true -> valid_binary y = true ->
  repBound M eB ->
  finiteNonneg x -> finiteNonneg y ->
  magLe x M eB -> magLe y M eB ->
  magLe (SFsub prec emax y x) M eB.
Proof.
  intros Hx Hy Hrep Px Py Lx Ly.
  destruct x as [sx|sx| |sx mx ex], y as [sy|sy| |sy my ey]; cbn [magLe] in Lx, Ly;
    try contradiction.
  - destruct sx, sy; exact I.
  - cbn [SFsub]. exact Ly.
  - cbn [SFsub]. exact Lx.
  - destruct sx; [contradiction|]. destruct sy; [contradiction|].
    unfold valid_binary in Hx, Hy. cbn [SpecFloat.valid_binary] in Hx, Hy.
    pose proof (magLe_exponent false mx ex M eB Hx Hrep Lx) as Ex.
    pose proof (magLe_exponent false my ey M eB Hy Hrep Ly) as Ey.
    pose proof (magLe_scaled false mx ex M eB (Z.min ey ex) Hx Hrep Lx ltac:(lia)) as Sx.
    pose proof (magLe_scaled false my ey M eB (Z.min ey ex) Hy Hrep Ly ltac:(lia)) as Sy.
    cbn [SFsub]. cbv zeta. rewrite !shl_align_value by lia.
    apply binary_normalize_le; [exact Hrep | lia |].
    cbn [cond_Zopp].
    assert (0 <= Z.pos mx * 2 ^ (ex - Z.min ey ex)) by (apply Z.mul_nonneg_nonneg; [lia | apply Z.pow_nonneg; lia]).
    assert (0 <= Z.pos my * 2 ^ (ey - Z.min ey ex)) by (apply Z.mul_nonneg_nonneg; [lia | apply Z.pow_nonneg; lia]).
    lia.
Qed.

(** A quotient of a number by one of at least its magnitude is at most 1
    in magnitude. *)
Lemma SFdiv_le (x : spec_float) (sy : bool) (my : positive) (ey : Z) :
  magLe x (Z.pos my) ey ->
  magLe (SFdiv prec emax x (S754_finite sy my ey)) 1 0.
Proof.
  intros Lx. destruct x as [sx|sx| |sx mx ex]; cbn [magLe] in Lx; try contradiction.
  - exact I.
  - cbn [SFdiv]. unfold SFdiv_core_binary. cbv zeta. cbn [Zdigits2].
    set (d1 := Z.pos (digits2_pos mx)). set (d2 := Z.pos (digits2_pos my)).
    set (e' := Z.min (fexp prec emax (d1 + ex - (d2 + ey))) (ex - ey)).
    pose proof (digits2_bounds mx) as B1. pose proof (digits2_bounds my) as B2.
    fold d1 in B1. fold d2 in B2.
    assert (Hd1 : 1 <= d1) by (unfold d1; lia).
    assert (Hd2 : 1 <= d2) by (unfold d2; lia).
    set (z := Z.min ex ey) in *.
    assert (Hzx : z <= ex) by (unfold z; lia).
    assert (Hzy : z <= ey) by (unfold z; lia).
    assert (Hdig : d1 + ex <= d2 + ey).
    { assert (Hlt : 2 ^ (d1 - 1 + (ex - z)) < 2 ^ (d2 + (ey - z))).
      { rewrite !Z.pow_add_r by lia.
        assert (0 < 2 ^ (ex - z)) by (apply Z.pow_pos_nonneg; lia).
        assert (0 < 2 ^ (ey - z)) by (apply Z.pow_pos_nonneg; lia).
        nia. }
      apply Z.pow_lt_mono_r_iff in Hlt; lia. }
    assert (He' : e' <= -53 /\ e' <= ex - ey).
    { unfold e', fexp, emin, prec, emax. lia. }
    destruct He' as [He53 Hes].
    set (m' := match ex - ey - e' with
               | 0 => Z.pos mx
               | Z.pos _ => Z.shiftl (Z.pos mx) (ex - ey - e')
               | Z.neg _ => 0
               end).
    assert (Hm' : m' = Z.pos mx * 2 ^ (ex - ey - e')).
    { unfold m'. destruct (ex - ey - e') as [|p|p] eqn:E.
      - simpl. lia.
      - rewrite Z.shiftl_mul_pow2 by lia. reflexivity.
      - lia. }
    assert (Hle : m' <= Z.pos my * 2 ^ (- e')).
    { rewrite Hm'.
      replace (ex - ey - e') with ((ex - z) + (z - ey - e')) by lia.
      replace (- e') with ((ey - z) + (z - ey - e')) by lia.
      assert (Hk : 0 <= z - ey - e').
      { unfold z. destruct (Z.min_spec ex ey) as [[_ ->]|[_ ->]]; lia. }
      rewrite !pow2_split by lia.
      apply Z.mul_le_mono_nonneg_r; [apply Z.pow_nonneg; lia | exact Lx]. }
    pose proof (Z_div_mod m' (Z.pos my) ltac:(lia)) as Hdiv.
    destruct (Z.div_eucl m' (Z.pos my)) as [q r]. destruct Hdiv as [Hq Hr].
    assert (Hm0 : 0 <= m') by (rewrite Hm'; apply Z.mul_nonneg_nonneg; [lia | apply Z.pow_nonneg; lia]).
    assert (Hq0 : 0 <= q) by nia.
    assert (HK : 0 < 2 ^ (- e')) by (apply Z.pow_pos_nonneg; lia).
    apply binary_round_aux_le.
    + exact Hq0.
    + unfold repBound. simpl. lia.
    + lia.
    + rewrite Z.sub_0_l, Z.mul_1_l.
      assert (Hloc : inexactLoc (new_location (Z.pos my) r) = if (r =? 0) then 0 else 1).
      { unfold new_location, new_location_even, new_location_odd.
        destruct (Z.even (Z.pos my)); destruct (r =? 0); reflexivity. }
      rewrite Hloc. destruct (Z.eqb_spec r 0) as [->|Hr0]; nia.
Qed.

Lemma binary_round_aux_sign (s : bool) (m e : Z) (l : location) :
  match binary_round_aux prec emax s m e l with
  | S754_zero s' | S754_infinity s' | S754_finite s' _ _ => s' = s
  | S754_nan => True
  end.
Proof.
  unfold binary_round_aux.
  destruct (shr_fexp prec emax m e l) as [mrs' e'].
  destruct (shr_fexp prec emax _ e' loc_Exact) as [mrs'' e''].
  destruct (shr_m mrs'') as [|p|p]; [reflexivity | | exact I].
  destruct (Z.leb e'' (emax - prec)); reflexivity.
Qed.

(** A square root that is below [Infinity] is a zero or a positive finite
    number. *)
Lemma SFsqrt_nonneg (x : spec_float) :
  SFltb (SFsqrt prec emax x) (S754_infinity false) = true ->
  finiteNonneg (SFsqrt prec emax x).
Proof.
  destruct x as [s|[]| |[] m e]; cbn [SFsqrt]; intros H; try discriminate H.
  - exact I.
  - destruct (SFsqrt_core_binary prec emax (Z.pos m) e) as [[mz ez] lz].
    pose proof (binary_round_aux_sign false mz ez lz) as Hs.
    destruct (binary_round_aux prec emax false mz ez lz) as [s'|s'| |s' m' e'];
      try subst s'; try discriminate H; exact I.
Qed.

Lemma SFcompare_magLe (x : spec_float) (my : positive) (ey : Z) :
  valid_binary x = true -> SpecFloat.bounded prec emax my ey = true ->
  finiteNonneg x ->
  SFcompare x (S754_finite false my ey) <> Some Gt ->
  magLe x (Z.pos my) ey.
Proof.
  intros Hx Hy Px Hc. destruct x as [s|s| |[] mx ex]; try contradiction; [exact I|].
  unfold valid_binary in Hx. cbn [SpecFloat.valid_binary] in Hx.
  rewrite (SFcompare_value false mx ex false my ey Hx Hy) in Hc. cbv zeta in Hc.
  unfold scaledTo in Hc. cbn [cond_Zopp] in Hc. cbn [magLe].
  destruct (Z.compare_spec (Z.pos mx * 2 ^ (ex - Z.min ex ey))
                           (Z.pos my * 2 ^ (ey - Z.min ex ey))) as [E|E|E];
    [lia | lia | congruence].
Qed.

Lemma is_nan_finiteNonneg (a : float) : finiteNonneg (Prim2SF a) -> PrimFloat.is_nan a = false.
Proof.
  intros H. unfold PrimFloat.is_nan. rewrite eqb_spec.
  destruct (Prim2SF a) as [s|s| |[] m e]; try contradiction; [reflexivity|].
  unfold SFeqb. cbn [SFcompare]. rewrite Z.compare_refl, Pos.compare_cont_refl. reflexivity.
Qed.

(** [Math.max] of a non-negative number and a positive one is a positive
    number that bounds both. *)
Lemma max_bound (a b : float) (mb : positive) (eb : Z) :
  finiteNonneg (Prim2SF a) -> Prim2SF b = S754_finite false mb eb ->
  exists mm em,
    Prim2SF (Float64.max a b) = S754_finite false mm em
    /\ magLe (Prim2SF a) (Z.pos mm) em
    /\ magLe (Prim2SF b) (Z.pos mm) em.
Proof.
  intros Pa Hb.
  pose proof (Prim2SF_valid a) as Va. pose proof (Prim2SF_valid b) as Vb.
  assert (Pb : finiteNonneg (Prim2SF b)) by (rewrite Hb; exact I).
  unfold Float64.max.
  rewrite (is_nan_finiteNonneg a Pa), (is_nan_finiteNonneg b Pb). cbn [orb].
  rewrite !ltb_spec.
  rewrite Hb in *.
  unfold valid_binary in Vb. cbn [SpecFloat.valid_binary] in Vb.
  destruct (Prim2SF a) as [s|s| |[] ma ea] eqn:Ha; try contradiction.
  - cbn [SFltb SFcompare]. exists mb, eb. split; [exact Hb|]. split; [exact I | apply magLe_refl].
  - unfold valid_binary in Va. cbn [SpecFloat.valid_binary] in Va.
    unfold SFltb.
    rewrite (SFcompare_value false ma ea false mb eb Va Vb).
    rewrite (SFcompare_value false mb eb false ma ea Vb Va). cbv zeta.
    unfold scaledTo. cbn [cond_Zopp]. rewrite (Z.min_comm eb ea).
    set (va := Z.pos ma * 2 ^ (ea - Z.min ea eb)).
    set (vb := Z.pos mb * 2 ^ (eb - Z.min ea eb)).
    assert (Lab : va <= vb -> magLe (S754_finite false ma ea) (Z.pos mb) eb).
    { intros H. cbn [magLe]. exact H. }
    assert (Lba : vb <= va -> magLe (S754_finite false mb eb) (Z.pos ma) ea).
    { intros H. cbn [magLe]. rewrite (Z.min_comm eb ea). exact H. }
    destruct (Z.compare_spec va vb) as [E|E|E].
    + destruct (Z.compare_spec vb va) as [E'|E'|E']; try lia.
      destruct (PrimFloat.get_sign a).
      * rewrite Hb. exists mb, eb. split; [reflexivity|]. split; [apply Lab; lia | apply magLe_refl].
      * rewrite Ha. exists ma, ea. split; [reflexivity|]. split; [apply magLe_refl | apply Lba; lia].
    + rewrite Hb. exists mb, eb. split; [reflexivity|]. split; [apply Lab; lia | apply magLe_refl].
    + destruct (Z.compare_spec vb va) as [E'|E'|E']; try lia.
      rewrite Ha. exists ma, ea. split; [reflexivity|]. split; [apply magLe_refl | apply Lba; lia].
Qed.

(** [b || 1] for a non-negative [b] is positive, and what bounds it also
    bounds [b]. *)
Lemma floor_bound (b : float) :
  finiteNonneg (Prim2SF b) ->
  let b' := if Float64.truthy b then b else PrimFloat.one in
  exists mb eb,
    Prim2SF b' = S754_finite false mb eb
    /\ forall M e, magLe (Prim2SF b') M e -> magLe (Prim2SF b) M e.
Proof.
  intros Pb. cbv zeta. unfold Float64.truthy, PrimFloat.is_zero.
  rewrite (is_nan_finiteNonneg b Pb), eqb_spec.
  change (Prim2SF PrimFloat.zero) with (S754_zero false).
  destruct (Prim2SF b) as [s|s| |[] m e] eqn:Hb; try contradiction.
  - cbn. exists 4503599627370496%positive, (-52). split; [reflexivity|]. intros; exact I.
  - cbn. rewrite Hb. exists m, e. split; [reflexivity|]. auto.
Qed.

(** The score of a row with two finite distances is at most 1 in
    magnitude. *)
Lemma score_le (a b : float) :
  finiteNonneg (Prim2SF a) -> finiteNonneg (Prim2SF b) ->
  magLe (Prim2SF (score (A:=F64) a b)) 1 0.
Proof.
  intros Pa Pb. unfold score. cbn [div sub Math_max truthy one F64].
  destruct (floor_bound b Pb) as (mb & eb & Hb' & Hle). cbv zeta in Hb', Hle.
  set (b' := if Float64.truthy b then b else PrimFloat.one) in *.
  destruct (max_bound a b' mb eb Pa Hb') as (mm & em & Hmax & La & Lb).
  change (magLe (Prim2SF (PrimFloat.div (PrimFloat.sub b a) (Float64.max a b'))) 1 0).
  rewrite div_spec, sub_spec, Hmax. unfold SF64div, SF64sub.
  apply SFdiv_le.
  pose proof (Prim2SF_valid (Float64.max a b')) as Vm. rewrite Hmax in Vm.
  unfold valid_binary in Vm. cbn [SpecFloat.valid_binary] in Vm.
  apply SFsub_le; try apply Prim2SF_valid; try assumption.
  - apply bounded_repBound. exact Vm.
  - apply Hle. exact Lb.
Qed.

Lemma repBound_small (M : Z) : 0 < M < 2 ^ 53 -> repBound M 0.
Proof.
  intros [H0 H1]. unfold repBound. split; [exact H0|]. split; [|lia].
  pose proof (Zdigits2_bounds M H0) as [Hlo _].
  assert (Hlt : 2 ^ (Zdigits2 M - 1) < 2 ^ 53) by lia.
  pose proof (Zdigits2_nonneg M ltac:(lia)).
  apply Z.pow_lt_mono_r_iff in Hlt; lia.
Qed.

(** A sum of [n] numbers of magnitude at most 1 has magnitude at most
    [n], as long as [n] is below 2^53. *)
Lemma sum_le (l : list float) (s : float) (k : Z) :
  0 <= k -> k + Z.of_nat (length l) < 2 ^ 53 ->
  magLe (Prim2SF s) k 0 ->
  Forall (fun x => magLe (Prim2SF x) 1 0) l ->
  magLe (Prim2SF (fold_left PrimFloat.add l s)) (k + Z.of_nat (length l)) 0.
Proof.
  revert s k. induction l as [|x l IH]; intros s k Hk Hlen Hs Hl.
  - simpl. rewrite Z.add_0_r. exact Hs.
  - inversion Hl as [|x' l' Hx Hl' E]; subst. cbn [fold_left length].
    cbn [length] in Hlen.
    replace (k + Z.of_nat (S (length l))) with ((k + 1) + Z.of_nat (length l)) by lia.
    apply IH; [lia | lia | | exact Hl'].
    rewrite add_spec. unfold SF64add.
    apply SFadd_le; try apply Prim2SF_valid; try assumption; try lia.
    apply repBound_small. lia.
Qed.

Lemma digits2_unique (p : positive) (n : Z) :
  2 ^ (n - 1) <= Z.pos p < 2 ^ n -> Z.pos (digits2_pos p) = n.
Proof.
  intros [Hlo Hhi]. pose proof (digits2_bounds p) as [Dlo Dhi].
  set (d := Z.pos (digits2_pos p)) in *.
  assert (Hd : 1 <= d) by (unfold d; lia).
  assert (Hn : 1 <= n).
  { destruct (Z.le_gt_cases 1 n) as [H|H]; [exact H|].
    assert (2 ^ n <= 2 ^ 0) by (destruct (Z.le_gt_cases 0 n); [apply Z.pow_le_mono_r; lia | rewrite Z.pow_neg_r by lia; simpl; lia]).
    simpl in *. lia. }
  assert (H1 : 2 ^ (d - 1) < 2 ^ n) by lia.
  assert (H2 : 2 ^ (n - 1) < 2 ^ d) by lia.
  apply Z.pow_lt_mono_r_iff in H1; [|lia|lia].
  apply Z.pow_lt_mono_r_iff in H2; [|lia|lia]. lia.
Qed.

Lemma shl_align_snd (mx : positive) (ex ez : Z) : ez <= ex -> snd (shl_align mx ex ez) = ez.
Proof.
  intros H. unfold shl_align. destruct (ez - ex) as [|p|d] eqn:E; cbn [snd]; lia.
Qed.

(** An integer below 2^53 is a binary64 number. *)
Lemma binary_round_exact (p : positive) :
  Z.pos p < 2 ^ 53 ->
  exists m e, binary_round prec emax false p 0 = S754_finite false m e
              /\ e <= 0 /\ Z.pos m = Z.pos p * 2 ^ (- e).
Proof.
  intros Hp. unfold binary_round.
  pose proof (digits2_bounds p) as [Dlo Dhi].
  set (d := Z.pos (digits2_pos p)) in *.
  assert (Hd : 1 <= d) by (unfold d; lia).
  assert (Hd53 : d <= 53).
  { assert (H : 2 ^ (d - 1) < 2 ^ 53) by lia. apply Z.pow_lt_mono_r_iff in H; lia. }
  assert (Hf : fexp prec emax (d + 0) = d - 53) by (unfold fexp, emin, prec, emax; lia).
  rewrite Hf.
  pose proof (shl_align_value p 0 (d - 53) ltac:(lia)) as Hm.
  pose proof (shl_align_snd p 0 (d - 53) ltac:(lia)) as He.
  destruct (shl_align p 0 (d - 53)) as [mz ez]. cbn [fst snd] in Hm, He. subst ez.
  replace (0 - (d - 53)) with (53 - d) in Hm by lia.
  assert (Hdz : Z.pos (digits2_pos mz) = 53).
  { apply digits2_unique. rewrite Hm.
    assert (HP : 0 < 2 ^ (53 - d)) by (apply Z.pow_pos_nonneg; lia).
    replace (2 ^ (53 - 1)) with (2 ^ (d - 1) * 2 ^ (53 - d))
      by (rewrite <- Z.pow_add_r by lia; f_equal; lia).
    replace (2 ^ 53) with (2 ^ d * 2 ^ (53 - d))
      by (rewrite <- Z.pow_add_r by lia; f_equal; lia).
    split; nia. }
  exists mz, (d - 53). split; [|split; [lia | rewrite Hm; f_equal; f_equal; lia]].
  unfold binary_round_aux, shr_fexp. cbn [Zdigits2]. rewrite Hdz.
  assert (Hf2 : fexp prec emax (53 + (d - 53)) - (d - 53) = 0)
    by (unfold fexp, emin, prec, emax; lia).
  rewrite Hf2. cbn [shr shr_record_of_loc shr_m loc_of_shr_record round_nearest_even Zdigits2].
  rewrite Hdz, Hf2. cbn [shr shr_record_of_loc shr_m].
  destruct (Z.leb_spec (d - 53) (emax - prec)) as [_|H]; [reflexivity|].
  unfold emax, prec in H. lia.
Qed.

Lemma ofZ_exact (N : Z) :
  1 <= N < 2 ^ 53 ->
  exists m e, Prim2SF (Float64.ofZ N) = S754_finite false m e
              /\ e <= 0 /\ Z.pos m = N * 2 ^ (- e).
Proof.
  intros [H1 H2]. unfold Float64.ofZ.
  destruct (Z.ltb_spec N 0) as [H|_]; [lia|].
  rewrite of_uint63_spec, Uint63.of_Z_spec.
  rewrite Z.mod_small by (change Uint63.wB with (2 ^ 63); split; [lia|];
                          apply Z.lt_trans with (2 ^ 53); [exact H2 | reflexivity]).
  destruct N as [|p|p]; try lia. cbn [binary_normalize].
  apply binary_round_exact. exact H2.
Qed.

Lemma magLe_integer (x : spec_float) (N : Z) (m : positive) (e : Z) :
  e <= 0 -> Z.pos m = N * 2 ^ (- e) -> magLe x N 0 -> magLe x (Z.pos m) e.
Proof.
  intros He Hm H. destruct x as [s|s| |s ms es]; try contradiction; [exact I|].
  set (z := Z.min es e).
  apply (magLe_at s ms es (Z.pos m) e z); [unfold z; lia | unfold z; lia |].
  apply (magLe_at s ms es N 0 z) in H; [|unfold z; lia | unfold z; lia].
  rewrite Hm.
  replace (0 - z) with ((- e) + (e - z)) in H by lia.
  rewrite pow2_split in H by (unfold z; lia). exact H.
Qed.

(** A number of magnitude at most 1 lies between -1 and 1. *)
Lemma magLe_one (v : float) :
  magLe (Prim2SF v) 1 0 ->
  PrimFloat.leb (Float64.ofZ (-1)) v = true /\ PrimFloat.leb v PrimFloat.one = true.
Proof.
  intros H. rewrite !leb_spec.
  change (Prim2SF (Float64.ofZ (-1))) with (S754_finite true 4503599627370496 (-52)).
  change (Prim2SF PrimFloat.one) with (S754_finite false 4503599627370496 (-52)).
  pose proof (Prim2SF_valid v) as Vv.
  destruct (Prim2SF v) as [s|s| |s m e]; try contradiction.
  - split; reflexivity.
  - unfold valid_binary in Vv. cbn [SpecFloat.valid_binary] in Vv.
    assert (V1 : SpecFloat.bounded prec emax 4503599627370496 (-52) = true) by reflexivity.
    unfold SFleb.
    rewrite (SFcompare_value true 4503599627370496 (-52) s m e V1 Vv).
    rewrite (SFcompare_value s m e false 4503599627370496 (-52) Vv V1). cbv zeta.
    unfold scaledTo. rewrite (Z.min_comm (-52) e).
    set (z := Z.min e (-52)).
    assert (Hz1 : z <= e) by (unfold z; lia).
    assert (Hz2 : z <= -52) by (unfold z; lia).
    apply (magLe_at s m e 1 0 z) in H; [|lia|lia].
    assert (E : 1 * 2 ^ (0 - z) = 4503599627370496 * 2 ^ (-52 - z)).
    { change 4503599627370496 with (2 ^ 52). rewrite <- Z.pow_add_r by lia.
      rewrite Z.mul_1_l. f_equal. lia. }
    rewrite E in H.
    set (X := Z.pos m * 2 ^ (e - z)) in *.
    set (Y := 4503599627370496 * 2 ^ (-52 - z)) in *.
    assert (HX : 0 <= X) by (unfold X; apply Z.mul_nonneg_nonneg; [lia | apply Z.pow_nonneg; lia]).
    split.
    + destruct s; cbn [cond_Zopp];
        destruct (Z.compare_spec (- Y) (- X)) as [|C|C];
        destruct (Z.compare_spec (- Y) X) as [|C'|C']; try reflexivity; lia.
    + destruct s; cbn [cond_Zopp];
        destruct (Z.compare_spec (- X) Y) as [|C|C];
        destruct (Z.compare_spec X Y) as [|C'|C']; try reflexivity; lia.
Qed.

End Float64Bound.

Module Float64Silhouette.

Import Float64Bound.

Lemma euclid_finiteNonneg (D : nat) (a b : Row (A:=F64)) :
  lt (euclid D a b) Infinity = true -> finiteNonneg (Prim2SF (euclid D a b)).
Proof.
  unfold euclid. cbn [lt Math_sqrt Infinity F64]. rewrite ltb_spec, sqrt_spec.
  change (Prim2SF infinity) with (S754_infinity false). apply SFsqrt_nonneg.
Qed.

(** The least distance to another centroid is one of the distances, when
    there is another centroid and the distances are below [Infinity]. *)
Lemma otherDistance_finiteNonneg (D : nat) (cs : list (Row (A:=F64)))
      (row : Row (A:=F64)) (o : nat) :
  2 <= length cs ->
  (forall c, c < length cs -> lt (euclid D row (nth c cs [])) Infinity = true) ->
  finiteNonneg (Prim2SF (otherDistance D cs row o)).
Proof.
  intros Hcs Hfin.
  destruct (otherDistance_least (L:=F64_order) D cs row o) as [Hall [Hinf|(c & Hc & Hne & Hb)]].
  - assert (Hex : exists c, c < length cs /\ c <> o).
    { destruct (Nat.eq_dec o 0) as [->|Ho]; [exists 1 | exists 0]; lia. }
    destruct Hex as (c & Hc & Hne). specialize (Hall c Hc Hne).
    rewrite Hinf in Hall. rewrite (Hfin c Hc) in Hall. discriminate Hall.
  - rewrite Hb. apply euclid_finiteNonneg. apply Hfin. exact Hc.
Qed.

End Float64Silhouette.

(** ** The silhouette bound *)

(** C8 (amended). In binary64: for a non-empty matrix, one in-range label
    per row and at least two centroids, if every distance between a row and
    a centroid, as [silhouetteApprox] computes it over the columns of the
    first row, is a number below [Infinity] (no NaN cell, no row or centroid
    shorter than the first row, no overflow), then the value that
    [silhouetteApprox] returns lies in the closed interval [-1, 1].  (An
    array has fewer than 2^32 elements.) *)
Theorem silhouetteApprox_finite_distances_bounded
        (row0 : Row (A:=F64)) (rows : Matrix (A:=F64)) (ls : list nat)
        (cs : list (Row (A:=F64))) :
  let mat := row0 :: rows in
  let D := length row0 in
  length ls = length mat ->
  Forall (fun l => l < length cs) ls ->
  2 <= length cs ->
  (Z.of_nat (length mat) < 2 ^ 32)%Z ->
  (forall i c, i < length mat -> c < length cs ->
     lt (euclid D (nth i mat []) (nth c cs [])) Infinity = true) ->
  exists v,
    silhouetteApprox mat ls cs = Ok v
    /\ le (ofZ (-1)) v = true /\ le v one = true.
Proof.
  intros mat D Hlen Hls Hcs HN Hfin. subst mat.
  rewrite (silhouetteApprox_eq row0 rows ls cs Hlen Hls).
  set (mat := row0 :: rows) in *.
  eexists. split; [reflexivity|].
  apply Float64Bound.magLe_one.
  cbn [div add zero ofZ F64].
  set (scores := map (scoreOfRow mat ls cs) (seq 0 (length mat))).
  assert (Hscores : Forall (fun x => magLe (Prim2SF x) 1 0) scores).
  { unfold scores. apply Forall_forall. intros x Hx. apply in_map_iff in Hx.
    destruct Hx as (i & <- & Hi). apply in_seq in Hi.
    unfold scoreOfRow. simpl hd. fold D.
    assert (Hown : nth i ls O < length cs).
    { rewrite Forall_forall in Hls. apply Hls. apply nth_In. lia. }
    apply Float64Bound.score_le.
    - apply Float64Silhouette.euclid_finiteNonneg. apply Hfin; [lia | exact Hown].
    - apply Float64Silhouette.otherDistance_finiteNonneg; [exact Hcs|].
      intros c Hc. apply Hfin; [lia | exact Hc]. }
  assert (Hpow : (2 ^ 32 < 2 ^ 53)%Z) by reflexivity.
  pose proof (Float64Bound.sum_le scores PrimFloat.zero 0 ltac:(lia)) as Hsum.
  assert (Hl : @length float scores = length mat) by (unfold scores; rewrite length_map, length_seq; reflexivity).
  rewrite Hl in Hsum. specialize (Hsum ltac:(lia) I Hscores).
  rewrite Z.add_0_l in Hsum.
  destruct (Float64Bound.ofZ_exact (Z.of_nat (length mat))) as (m & e & HofZ & He & Hm).
  { assert (H1 : 1 <= length mat) by (unfold mat; simpl; lia). lia. }
  rewrite div_spec, HofZ. unfold SF64div.
  apply Float64Bound.SFdiv_le.
  apply (Float64Bound.magLe_integer _ (Z.of_nat (length mat)) m e He Hm). exact Hsum.
Qed.

(** ** Sorted rankings *)

Section SortedFacts.

Context {A : Arith} {L : OrderLaws A} {S : SortLaws A}.

Lemma lt_asym (x y : num) : lt x y = true -> lt y x = false.
Proof.
  intros H. destruct (lt y x) eqn:E; [|reflexivity].
  rewrite <- (lt_irrefl x). symmetry. apply lt_trans with y; assumption.
Qed.

Lemma lt_neg (x y z : num) :
  le y y = true -> lt x y = false -> lt y z = false -> lt x z = false.
Proof.
  intros Hy Hxy Hyz. destruct (lt x z) eqn:E; [|reflexivity].
  destruct (lt_cotrans x y z Hy E); congruence.
Qed.

Lemma sortBy_descending (c : Row) (l : list nat) :
  Forall (fun i => le (get c i) (get c i) = true) l ->
  StronglySorted (fun i j => i < j) l ->
  StronglySorted (descending c) (sortBy (fun i j => sub (get c j) (get c i)) l).
Proof.
  intros HP Hl.
  apply (sortBy_sorted nat (fun i j => sub (get c j) (get c i))
           (fun i j => lt (get c i) (get c j))
           (fun i => le (get c i) (get c i) = true) (fun i j => i < j)).
  - intros x y. apply sub_pos.
  - intros x y. apply lt_asym.
  - intros x y z. apply lt_neg.
  - exact HP.
  - exact Hl.
Qed.

Lemma numbers_at (c : Row) :
  Forall (fun x => le x x = true) c ->
  Forall (fun i => le (get c i) (get c i) = true) (seq 0 (length c)).
Proof.
  intros H. apply Forall_forall. intros i Hi. apply in_seq in Hi.
  rewrite Forall_forall in H. apply H. unfold get. apply nth_In. lia.
Qed.

Lemma byValue_sorted (c : Row) :
  Forall (fun x => le x x = true) c ->
  exists js, byValue c = map (fun j => (j, get c j)) js
             /\ Permutation js (seq 0 (length c))
             /\ StronglySorted (descending c) js.
Proof.
  intros Hc. unfold byValue.
  rewrite (sortBy_map (fun a b : nat * num => sub (snd b) (snd a)) (fun j => (j, get c j))).
  cbn [snd].
  exists (sortBy (fun i j => sub (get c j) (get c i)) (seq 0 (length c))).
  split; [reflexivity|]. split; [apply sortBy_perm|].
  apply sortBy_descending; [apply numbers_at, Hc | apply seq_sorted].
Qed.

Lemma sorted_head_first_maximum (c : Row) (j : nat) (js : list nat) :
  Permutation (j :: js) (seq 0 (length c)) ->
  StronglySorted (descending c) (j :: js) ->
  (forall i, i < length c -> lt (get c j) (get c i) = false)
  /\ (forall i, i < j -> lt (get c i) (get c j) = true).
Proof.
  intros Hp Hs. inversion Hs as [|? ? _ Hall]; subst. rewrite Forall_forall in Hall.
  assert (Hin : forall i, i < length c -> i = j \/ In i js).
  { intros i Hi. assert (H : In i (j :: js)).
    { apply (Permutation_in _ (Permutation_sym Hp)). apply in_seq. lia. }
    destruct H as [->|H]; auto. }
  assert (Hj : j < length c).
  { assert (H : In j (seq 0 (length c))) by (apply (Permutation_in _ Hp); left; reflexivity).
    apply in_seq in H. lia. }
  split.
  - intros i Hi. destruct (Hin i Hi) as [->|Hi']; [apply lt_irrefl|].
    apply (Hall i Hi').
  - intros i Hi. destruct (Hin i) as [->|Hi']; [lia | lia |].
    destruct (Hall i Hi') as [_ Htie].
    destruct (lt (get c i) (get c j)) eqn:E; [reflexivity|].
    specialize (Htie eq_refl). lia.
Qed.

(** X15. For centroids of 1 to 10 columns without NaN, the name that
    [nameSegments] gives a centroid is the dictionary name of the category of
    the first column that holds the largest value of the centroid. *)
Theorem nameSegments_names_the_largest_value (centroids : list Row) :
  Forall (fun c => 1 <= length c <= 10 /\ Forall (fun x => le x x = true) c) centroids ->
  exists names,
    nameSegments centroids = Ok names
    /\ Forall2 (fun c name =>
                  exists j cat,
                    j < length c
                    /\ nth_error CATEGORY_NAMES j = Some cat
                    /\ lookup cat SEGMENT_NAME_DICT = Some name
                    /\ (forall i, i < length c -> lt (get c j) (get c i) = false)
                    /\ (forall i, i < j -> lt (get c i) (get c j) = true))
               centroids names.
Proof.
  intros H.
  destruct (nameSegments_ok centroids) as (names & Hn & Hall).
  { eapply Forall_impl; [|exact H]. intros c [Hc _]. exact Hc. }
  exists names. split; [exact Hn|].
  clear Hn. induction Hall as [|c name cs names' Hc Hrest IH].
  - constructor.
  - inversion H as [|? ? [_ Hnum] Hcs]; subst. constructor; [|apply IH, Hcs].
    destruct Hc as (j & cat & Hj & Hhd & Hcat & Hname).
    exists j, cat. repeat split; auto.
    + destruct (byValue_sorted c Hnum) as (js & Hjs & Hp & Hs).
      rewrite Hjs in Hhd. destruct js as [|j0 js']; [discriminate|].
      simpl in Hhd. injection Hhd as <- _.
      apply (sorted_head_first_maximum c j0 js' Hp Hs).
    + destruct (byValue_sorted c Hnum) as (js & Hjs & Hp & Hs).
      rewrite Hjs in Hhd. destruct js as [|j0 js']; [discriminate|].
      simpl in Hhd. injection Hhd as <- _.
      apply (sorted_head_first_maximum c j0 js' Hp Hs).
Qed.

(** *** The ranking *)

Lemma sort_sortBy (l : list Ranked) : sort l = sortBy comparator l.
Proof.
  induction l as [|x l IH]; simpl; [reflexivity|]. rewrite IH.
  generalize (sortBy comparator l). intros r.
  induction r as [|y r IHr]; simpl; [reflexivity|].
  destruct (lt zero (comparator x y)); [rewrite IHr|]; reflexivity.
Qed.

Lemma rankCategories_sorted (scores : Row) :
  Forall (fun x => le x x = true) scores ->
  exists js, rankCategories scores
             = map (fun i => mkRanked (nth_error CATEGORY_NAMES i) (get scores i)) js
             /\ Permutation js (seq 0 (length scores))
             /\ StronglySorted (descending scores) js.
Proof.
  intros Hc. unfold rankCategories. rewrite sort_sortBy.
  rewrite (sortBy_map comparator
             (fun i => mkRanked (nth_error CATEGORY_NAMES i) (get scores i))).
  unfold comparator. cbn [s].
  exists (sortBy (fun i j => sub (get scores j) (get scores i)) (seq 0 (length scores))).
  split; [reflexivity|]. split; [apply sortBy_perm|].
  apply sortBy_descending; [apply numbers_at, Hc | apply seq_sorted].
Qed.

(** X18. For a member whose scores are free of NaN, the entries that
    [recommendForMember] returns are in descending order of score, equal
    scores in the order of their columns. *)
Theorem recommendForMember_ranks_by_descending_score
        (row0 : Row) (rows : Matrix) (memberIndex topK : Z) (minThreshold : num) :
  let mat := row0 :: rows in
  length row0 = 10 ->
  (0 <= memberIndex < Z.of_nat (length mat))%Z ->
  let scores := nth (Z.to_nat memberIndex) mat [] in
  Forall (fun x => le x x = true) scores ->
  exists js : list nat,
    recommendForMember mat memberIndex topK minThreshold
    = Ok (map (fun i => (nth_error CATEGORY_NAMES i, get scores i)) js)
    /\ forall p q, p < q < length js ->
         let i := nth p js O in
         let j := nth q js O in
         lt (get scores i) (get scores j) = false
         /\ (lt (get scores j) (get scores i) = false -> i < j).
Proof.
  intros mat H0 Hidx scores Hnum.
  unfold mat. rewrite recommendForMember_in_range by assumption.
  fold mat. fold scores. cbv zeta.
  destruct (rankCategories_sorted scores Hnum) as (js & -> & _ & Hs).
  set (f := fun i => mkRanked (nth_error CATEGORY_NAMES i) (get scores i)).
  rewrite filter_map_comm.
  set (fjs := filter (fun x => le minThreshold (s (f x))) js).
  assert (Hfjs : StronglySorted (descending scores) fjs) by (apply StronglySorted_filter, Hs).
  assert (Hchoice : exists ks, StronglySorted (descending scores) ks
            /\ slice0 topK (match map f fjs with [] => map f js | _ :: _ => map f fjs end)
               = map f ks).
  { assert (Hslice : forall l, StronglySorted (descending scores) l ->
                       StronglySorted (descending scores) (slice0 topK l)).
    { intros l Hl. unfold slice0. destruct (topK <? 0)%Z; apply StronglySorted_firstn, Hl. }
    destruct fjs as [|j0 fjs'] eqn:E.
    - exists (slice0 topK js). split; [apply Hslice, Hs | simpl; apply slice0_map].
    - exists (slice0 topK (j0 :: fjs')). split; [apply Hslice, Hfjs|].
      change (f j0 :: map f fjs') with (map f (j0 :: fjs')). apply slice0_map. }
  destruct Hchoice as (ks & Hks & ->).
  exists ks. rewrite map_map. split; [reflexivity|].
  intros p q Hpq. apply (StronglySorted_nth (descending scores) ks O p q Hks Hpq).
Qed.

End SortedFacts.

(** ** [summaryStats] *)

Section Corr.

Context {A : Arith}.

Lemma squareShape_row (m i : nat) (xs : list (list num)) :
  squareShape m xs -> i < m -> length (nth i xs []) = m.
Proof.
  intros [Hlen Hrows] Hi. rewrite Forall_forall in Hrows. apply Hrows, nth_In. lia.
Qed.

Lemma set2_shape (m i j : nat) (v : num) (xs : list (list num)) :
  i < m -> squareShape m xs -> squareShape m (Stats.set2 i j v xs).
Proof.
  intros Hi Hs. pose proof (squareShape_row m i xs Hs Hi) as Hrow.
  destruct Hs as [Hlen Hrows]. unfold Stats.set2. split.
  - rewrite set_nth_length. exact Hlen.
  - apply Forall_set_nth; [|exact Hrows]. rewrite set_nth_length. exact Hrow.
Qed.

Lemma get2_set2 (m i j a b : nat) (v : num) (xs : list (list num)) :
  squareShape m xs -> i < m -> j < m ->
  get2 (Stats.set2 i j v xs) a b
  = if Nat.eqb a i && Nat.eqb b j then v else get2 xs a b.
Proof.
  intros Hs Hi Hj. pose proof (squareShape_row m i xs Hs Hi) as Hrow.
  destruct Hs as [Hlen Hrows]. unfold get2, Stats.set2.
  destruct (Nat.eqb_spec a i) as [->|Hne]; cbn [andb].
  - rewrite nth_set_nth_same by lia. unfold get.
    destruct (Nat.eqb_spec b j) as [->|Hne'].
    + apply nth_set_nth_same. lia.
    + apply nth_set_nth_other. auto.
  - rewrite nth_set_nth_other by auto. reflexivity.
Qed.

Variable r : nat -> nat -> num.

Lemma corrStep_fold (m : nat) (l : list (nat * nat))
      (acc : list (list num) * list (option string * option string * num)) :
  Forall (fun ij => fst ij < snd ij /\ snd ij < m) l ->
  squareShape m (fst acc) ->
  let acc' := fold_left (corrStep r) l acc in
  squareShape m (fst acc')
  /\ snd acc' = snd acc ++ map (fun ij => (nth_error CATEGORY_NAMES (fst ij),
                                            nth_error CATEGORY_NAMES (snd ij),
                                            r (fst ij) (snd ij))) l
  /\ forall a b,
       get2 (fst acc') a b
       = if listed l a b then r a b
         else if listed l b a then r b a
         else get2 (fst acc) a b.
Proof.
  revert acc. induction l as [|[i j] l IH]; intros [cm tc] Hl Hs; cbn [fold_left].
  - cbv zeta. cbn [fst snd map listed existsb]. rewrite app_nil_r. auto.
  - inversion Hl as [|? ? [Hij Hj] Hl']; subst. cbn [fst snd] in *.
    assert (Hs1 : squareShape m (Stats.set2 i j (r i j) cm)) by (apply set2_shape; [lia | exact Hs]).
    assert (Hs2 : squareShape m (Stats.set2 j i (r i j) (Stats.set2 i j (r i j) cm)))
      by (apply set2_shape; [lia | exact Hs1]).
    destruct (IH (corrStep r (cm, tc) (i, j)) Hl' Hs2) as (H1 & H2 & H3).
    cbv zeta in *. split; [exact H1|]. split.
    + rewrite H2. cbn [corrStep snd map fst]. rewrite <- app_assoc. reflexivity.
    + intros a b. rewrite H3. cbn [listed existsb fst snd].
      fold (listed l a b). fold (listed l b a).
      assert (Hlisted : forall x y, listed l x y = true -> x < y).
      { intros x y Hxy. unfold listed in Hxy. apply existsb_exists in Hxy.
        destruct Hxy as ([i' j'] & Hin & Heq). cbn [fst snd] in Heq.
        apply andb_true_iff in Heq. destruct Heq as [E1 E2].
        apply Nat.eqb_eq in E1, E2. subst.
        rewrite Forall_forall in Hl'. destruct (Hl' _ Hin) as [Hlt _]. exact Hlt. }
      destruct (listed l a b) eqn:Eab.
      * rewrite orb_true_r. reflexivity.
      * rewrite orb_false_r. destruct (listed l b a) eqn:Eba.
        -- rewrite orb_true_r. apply Hlisted in Eba.
           destruct (Nat.eqb_spec i a), (Nat.eqb_spec j b); cbn [andb]; try reflexivity. lia.
        -- rewrite orb_false_r. cbn [corrStep fst].
           rewrite (get2_set2 m j i a b) by (auto; lia).
           rewrite (get2_set2 m i j a b) by (auto; lia).
           rewrite (Nat.eqb_sym a i), (Nat.eqb_sym b j), (Nat.eqb_sym a j), (Nat.eqb_sym b i).
           destruct (Nat.eqb_spec i a), (Nat.eqb_spec j b), (Nat.eqb_spec j a), (Nat.eqb_spec i b);
             cbn [andb]; subst; try reflexivity; lia.
Qed.

Lemma pairs_spec (m i j : nat) : In (i, j) (Stats.pairs m) <-> i < j < m.
Proof.
  unfold Stats.pairs. rewrite in_flat_map. split.
  - intros (x & Hx & Hin). apply in_map_iff in Hin. destruct Hin as (y & Heq & Hy).
    injection Heq as <- <-. apply in_seq in Hx, Hy. lia.
  - intros H. exists i. split; [apply in_seq; lia|].
    apply in_map_iff. exists j. split; [reflexivity | apply in_seq; lia].
Qed.

Lemma listed_pairs (m a b : nat) : listed (Stats.pairs m) a b = true <-> a < b < m.
Proof.
  unfold listed. rewrite existsb_exists. split.
  - intros ([i j] & Hin & Heq). cbn [fst snd] in Heq.
    apply andb_true_iff in Heq. destruct Heq as [E1 E2]. apply Nat.eqb_eq in E1, E2. subst.
    apply pairs_spec, Hin.
  - intros H. exists (a, b). split; [apply pairs_spec, H|]. cbn [fst snd].
    rewrite !Nat.eqb_refl. reflexivity.
Qed.

Lemma diagonal_fold (m : nat) (l : list nat) (cm : list (list num)) :
  (forall d, In d l -> d < m) ->
  squareShape m cm ->
  let cm' := fold_left (fun cm d => Stats.set2 d d one cm) l cm in
  squareShape m cm'
  /\ forall a b, get2 cm' a b = if Nat.eqb a b && existsb (Nat.eqb a) l then one else get2 cm a b.
Proof.
  revert cm. induction l as [|d l IH]; intros cm Hl Hs; cbn [fold_left].
  - cbv zeta. split; [exact Hs|]. intros a b. cbn [existsb]. rewrite andb_false_r. reflexivity.
  - assert (Hd : d < m) by (apply Hl; left; reflexivity).
    destruct (IH (Stats.set2 d d one cm)) as [H1 H2].
    { intros x Hx. apply Hl. right. exact Hx. }
    { apply set2_shape; assumption. }
    cbv zeta in *. split; [exact H1|]. intros a b. rewrite H2.
    rewrite (get2_set2 m d d a b) by auto. cbn [existsb].
    destruct (Nat.eqb_spec a b) as [->|Hne]; cbn [andb].
    + destruct (existsb (Nat.eqb b) l); [destruct (b =? d); reflexivity|].
      rewrite orb_false_r. rewrite andb_diag. reflexivity.
    + destruct (Nat.eqb_spec a d), (Nat.eqb_spec b d); cbn [andb]; try reflexivity. lia.
Qed.

End Corr.

Section SummaryUnfold.

Context {A : Arith} {M : MathOps A}.

Lemma summaryStats_unfold (row0 : Row) (rows : Matrix) :
  let mat := row0 :: rows in
  let n := length mat in
  let m := length row0 in
  let cols := map (Stats.column mat) (seq 0 m) in
  let mean := map (Stats.meanOf n) cols in
  let std := map (fun ic : nat * list (option num) =>
                    Stats.stdOf n (get mean (fst ic)) (snd ic)) (combine (seq 0 m) cols) in
  let r := fun i j => Stats.corr n (nth i cols []) (nth j cols []) (get mean i) (get mean j) in
  let loops := fold_left (corrStep r) (Stats.pairs m) (repeat (repeat zero m) m, []) in
  Stats.summaryStats mat
  = Ok (Stats.mkSummaryStats
          (map (fun i => Stats.mkSummaryRow
                           (nth_error CATEGORY_NAMES i) (nth_error mean i) (nth_error std i)
                           (Stats.element (map (fun c => Stats.p c (div (ofZ 5) (ofZ 10))) cols) i)
                           (Stats.element (map (fun c => Stats.p c (div (ofZ 9) (ofZ 10))) cols) i))
               (map fst (byValue mean)))
          (firstn 5 (sortBy (fun x y => sub (snd y) (snd x)) (snd loops)))
          (fold_left (fun cm d => Stats.set2 d d one cm) (seq 0 m) (fst loops))
          mean std).
Proof.
  intros mat n m cols mean std r loops. subst mat n m cols mean std r loops.
  unfold Stats.summaryStats, corrStep. cbv zeta.
  destruct (fold_left _ (Stats.pairs _) _) as [cm tc]. reflexivity.
Qed.

End SummaryUnfold.

Section SummaryFields.

Context {A : Arith} {M : MathOps A}.

Lemma nth_map_seq {T : Type} (f : nat -> T) (m i : nat) (d : T) :
  i < m -> nth i (map f (seq 0 m)) d = f i.
Proof.
  intros Hi. rewrite (nth_indep _ d (f O)) by (rewrite length_map, length_seq; exact Hi).
  rewrite map_nth, seq_nth by exact Hi. reflexivity.
Qed.

Lemma zeros_shape (m : nat) : squareShape m (repeat (repeat zero m) m).
Proof.
  split; [apply repeat_length|]. apply Forall_forall. intros row Hrow.
  apply repeat_spec in Hrow. subst row. apply repeat_length.
Qed.

Lemma existsb_seq (a m : nat) : a < m -> existsb (Nat.eqb a) (seq 0 m) = true.
Proof.
  intros Ha. apply existsb_exists. exists a. split; [apply in_seq; lia | apply Nat.eqb_refl].
Qed.

(** What [summaryStats] returns, field by field. *)
Lemma summaryStats_fields (row0 : Row) (rows : Matrix) :
  let mat := row0 :: rows in
  let m := length row0 in
  exists r,
    Stats.summaryStats mat = Ok r
    /\ squareShape m (Stats.corrMatrix r)
    /\ (forall i, i < m -> get2 (Stats.corrMatrix r) i i = one)
    /\ (forall i j, i < j < m ->
          get2 (Stats.corrMatrix r) i j = corrOf mat i j
          /\ get2 (Stats.corrMatrix r) j i = corrOf mat i j)
    /\ Stats.means r = map (fun j => Stats.meanOf (length mat) (Stats.column mat j)) (seq 0 m)
    /\ Stats.topCorr r
       = firstn 5 (sortBy (fun x y => sub (snd y) (snd x))
                          (map (fun ij => (nth_error CATEGORY_NAMES (fst ij),
                                           nth_error CATEGORY_NAMES (snd ij),
                                           corrOf mat (fst ij) (snd ij)))
                               (Stats.pairs m)))
    /\ map (fun x => (Stats.category x, Stats.mean x)) (Stats.summary r)
       = map (fun i => (nth_error CATEGORY_NAMES i, nth_error (Stats.means r) i))
             (map fst (byValue (Stats.means r))).
Proof.
  intros mat m.
  pose proof (summaryStats_unfold row0 rows) as Hr. cbv zeta in Hr. fold mat m in Hr.
  set (n := length mat) in *.
  set (cols := map (Stats.column mat) (seq 0 m)) in *.
  set (mean := map (Stats.meanOf n) cols) in *.
  set (rr := fun i j => Stats.corr n (nth i cols []) (nth j cols []) (get mean i) (get mean j)) in *.
  assert (Hrr : forall i j, i < m -> j < m -> rr i j = corrOf mat i j).
  { intros i j Hi Hj. unfold rr, corrOf, mean, cols, get. fold n.
    rewrite map_map, !nth_map_seq by assumption. reflexivity. }
  destruct (corrStep_fold rr m (Stats.pairs m) (repeat (repeat zero m) m, []))
    as (Hs & Htc & Hcm).
  { apply Forall_forall. intros [i j] Hin. apply pairs_spec in Hin. simpl. lia. }
  { apply zeros_shape. }
  cbv zeta in *. cbn [fst snd] in *.
  destruct (diagonal_fold m (seq 0 m)
              (fst (fold_left (corrStep rr) (Stats.pairs m) (repeat (repeat zero m) m, []))))
    as (Hs' & Hd).
  { intros d Hd. apply in_seq in Hd. lia. }
  { exact Hs. }
  cbv zeta in *.
  eexists. split; [exact Hr|].
  cbn [Stats.corrMatrix Stats.means Stats.topCorr Stats.summary].
  split; [exact Hs'|]. split; [|split; [|split; [|split]]].
  - intros i Hi. rewrite Hd, Nat.eqb_refl, existsb_seq by exact Hi. reflexivity.
  - intros i j Hij.
    assert (E1 : listed (Stats.pairs m) i j = true) by (apply listed_pairs; lia).
    assert (E2 : listed (Stats.pairs m) j i = false).
    { destruct (listed (Stats.pairs m) j i) eqn:E; [|reflexivity].
      apply listed_pairs in E. lia. }
    split.
    + rewrite Hd. destruct (Nat.eqb_spec i j); [lia|]. cbn [andb].
      rewrite Hcm, E1. apply Hrr; lia.
    + rewrite Hd. destruct (Nat.eqb_spec j i); [lia|]. cbn [andb].
      rewrite Hcm, E2, E1. apply Hrr; lia.
  - unfold mean, cols. rewrite map_map. reflexivity.
  - rewrite Htc. cbn [app]. f_equal. f_equal. apply map_ext_in.
    intros [i j] Hin. apply pairs_spec in Hin. cbn [fst snd]. rewrite Hrr by lia. reflexivity.
  - rewrite map_map. reflexivity.
Qed.

(** X19. On a non-empty matrix [summaryStats] returns, and its
    [corrMatrix] is [m] by [m], [m] the length of the first row, has 1 on
    its diagonal and is symmetric. *)
Theorem summaryStats_corrMatrix_is_symmetric (row0 : Row) (rows : Matrix) :
  let mat := row0 :: rows in
  let m := length row0 in
  exists r,
    Stats.summaryStats mat = Ok r
    /\ length (Stats.corrMatrix r) = m
    /\ Forall (fun row => length row = m) (Stats.corrMatrix r)
    /\ (forall i, i < m -> get2 (Stats.corrMatrix r) i i = one)
    /\ (forall i j, i < m -> j < m ->
          get2 (Stats.corrMatrix r) i j = get2 (Stats.corrMatrix r) j i).
Proof.
  intros mat m.
  destruct (summaryStats_fields row0 rows) as (r & Hr & [Hlen Hrows] & Hdiag & Hoff & _).
  exists r. repeat split; auto.
  intros i j Hi Hj.
  destruct (Nat.lt_trichotomy i j) as [Hlt | [-> | Hgt]].
  - destruct (Hoff i j) as [-> ->]; [lia | reflexivity].
  - reflexivity.
  - destruct (Hoff j i) as [-> ->]; [lia | reflexivity].
Qed.

End SummaryFields.

Section SummaryOrder.

Context {A : Arith} {L : OrderLaws A} {S : SortLaws A} {M : MathOps A}.

(** X20. [summaryStats] returns one mean per column of the first row, and
    when none of them is NaN its [summary] lists every column once, with its
    category name and mean, in descending order of the mean, equal means in
    column order. *)
Theorem summaryStats_lists_categories_by_descending_mean (row0 : Row) (rows : Matrix) :
  let mat := row0 :: rows in
  let m := length row0 in
  exists r,
    Stats.summaryStats mat = Ok r
    /\ length (Stats.means r) = m
    /\ (Forall (fun x => le x x = true) (Stats.means r) ->
        exists js,
          Permutation js (seq 0 m)
          /\ map (fun x => (Stats.category x, Stats.mean x)) (Stats.summary r)
             = map (fun i => (nth_error CATEGORY_NAMES i, nth_error (Stats.means r) i)) js
          /\ forall p q, p < q < m ->
               let i := nth p js O in
               let j := nth q js O in
               lt (get (Stats.means r) i) (get (Stats.means r) j) = false
               /\ (lt (get (Stats.means r) j) (get (Stats.means r) i) = false -> i < j)).
Proof.
  intros mat m.
  destruct (summaryStats_fields row0 rows) as (r & Hr & _ & _ & _ & Hmeans & _ & Hsum).
  fold mat m in Hr, Hmeans, Hsum.
  assert (Hlen : length (Stats.means r) = m).
  { rewrite Hmeans, length_map, length_seq. reflexivity. }
  exists r. split; [exact Hr|]. split; [exact Hlen|].
  intros Hnum.
  destruct (byValue_sorted (Stats.means r) Hnum) as (js & Hjs & Hperm & Hsorted).
  rewrite Hlen in Hperm.
  exists js. split; [exact Hperm|]. split.
  - rewrite Hsum, Hjs, !map_map. reflexivity.
  - intros p q Hpq.
    apply (StronglySorted_nth (descending (Stats.means r)) js O p q Hsorted).
    rewrite (Permutation_length Hperm), length_seq. exact Hpq.
Qed.

End SummaryOrder.

(** ** The guards at a ragged matrix *)

(** C7 at a matrix whose second row has one column: it is not rejected.
    The check of [loadCsv] passes, [recommendForMember] ranks the short row,
    and [kmeans] returns centroids that hold NaN. *)
Lemma ragged_matrix_accepted :
  ~ Forall (fun row : Row => length row = 10) ragged
  /\ (loadCsvCheck ragged = Ok tt
      /\ (exists res, recommendForMember ragged 1 3 0%float = Ok res)
      /\ (exists res, kmeans ragged 2 30 KMEANS_SEED 10 = Ok res))
  /\ recommendForMember ragged 1 3 0%float = Ok [(Some "Transportation"%string, 1%float)]
  /\ kmeans ragged 2 30 KMEANS_SEED 10
     = Ok (mkKMeans (A:=F64) [0; 0]
             [[1%float; nan; nan; nan; nan; nan; nan; nan; nan; nan]; [1%float]] nan).
Proof.
  split; [|split; [|split]].
  - intros H. inversion H as [|? ? _ H']. inversion H' as [|? ? Hlen _]. discriminate Hlen.
  - apply (shape_checks_pass_ragged_rows (A:=F64) (hd [] ragged) (tl ragged) 1 3 0%float
             2 30 KMEANS_SEED 10).
    + reflexivity.
    + simpl. lia.
    + simpl. lia.
  - vm_compute. reflexivity.
  - vm_compute. reflexivity.
Defined.

(** ** The further functions at concrete inputs *)

Lemma parseCSV_reads_back_rendered_cells_witness :
  parseCSV (A:=F64) cellLength (codes "0.5,1" ++ [CR; LF] ++ codes "0.25,2" ++ [LF])
  = map (map cellLength) cells22.
Proof.
  apply (parseCSV_reads_back_rendered_cells (A:=F64) cellLength [CR; LF] [] [LF] cells22).
  - right. reflexivity.
  - reflexivity.
  - reflexivity.
  - discriminate.
  - unfold cells22, token. repeat constructor; try discriminate.
Defined.

Lemma silhouette_method_takes_first_maximum_witness :
  let sel := selectK (A:=F64) silhouette 0.0625%float ks9 inertia9 silhouette9 in
  exists bi k,
    bi < length ks9
    /\ nth_error ks9 bi = Some k
    /\ bestBySil sel = Some k
    /\ finalK sel = Some k
    /\ (forall i, i < length silhouette9 ->
          lt (get (A:=F64) silhouette9 bi) (get (A:=F64) silhouette9 i) = false)
    /\ (forall i, i < bi ->
          le (get (A:=F64) silhouette9 bi) (get (A:=F64) silhouette9 i) = false).
Proof.
  apply (silhouette_method_takes_first_maximum (A:=F64) 0.0625%float ks9 inertia9 silhouette9).
  - discriminate.
  - reflexivity.
Defined.

Lemma autoCluster_stuck_below_ten_rows_witness :
  App.autoCluster (A:=F64) compromise 0.0625%float st0 m3 KMEANS_SEED
  = (App.setComputing true st0, Some TypeError)
  /\ forall selectionMethod' silMinGap' input' seed',
       App.autoCluster selectionMethod' silMinGap' (App.setComputing true st0) input' seed'
       = (App.setComputing true st0, None).
Proof.
  apply (autoCluster_stuck_below_ten_rows (A:=F64) compromise 0.0625%float st0 m3 KMEANS_SEED).
  - reflexivity.
  - simpl. lia.
  - repeat (constructor; [discriminate|]). constructor.
Defined.

Lemma autoCluster_segments_ten_rows_or_more_witness :
  exists inertias sil sK bK k ls cs names,
    App.autoCluster (A:=F64) silhouette 0.0625%float st0 m10 KMEANS_SEED
    = (App.mkState false
         (Some (App.mkElbow [2; 3; 4; 5; 6; 7; 8; 9; 10]%Z inertias sil
                            (Some sK) (Some bK) (Some k)))
         (Some ls) (Some cs) (Some names) 0,
       None)
    /\ length inertias = 9 /\ length sil = 9
    /\ (2 <= sK <= 10)%Z /\ (2 <= bK <= 10)%Z /\ (2 <= k <= 10)%Z
    /\ (k = sK \/ k = bK)
    /\ length ls = length m10
    /\ Forall (fun l => l < Z.to_nat k) ls
    /\ length cs = Z.to_nat k
    /\ length names = Z.to_nat k.
Proof.
  apply (autoCluster_segments_ten_rows_or_more (A:=F64) silhouette 0.0625%float st0 m10
           KMEANS_SEED).
  - reflexivity.
  - simpl. lia.
  - repeat (constructor; [simpl; lia|]). constructor.
Defined.

Lemma nameSegments_names_the_largest_value_witness :
  exists names,
    nameSegments tiedCentroid = Ok names
    /\ Forall2 (fun c name =>
                  exists j cat,
                    j < length c
                    /\ nth_error CATEGORY_NAMES j = Some cat
                    /\ lookup cat SEGMENT_NAME_DICT = Some name
                    /\ (forall i, i < length c -> lt (Arith:=F64) (get c j) (get c i) = false)
                    /\ (forall i, i < j -> lt (Arith:=F64) (get c i) (get c j) = true))
               tiedCentroid names.
Proof.
  apply (nameSegments_names_the_largest_value (A:=F64) tiedCentroid).
  constructor; [|constructor]. split; [simpl; lia|].
  repeat (constructor; [reflexivity|]). constructor.
Defined.

Lemma recommendForMember_lists_distinct_categories_witness :
  exists js : list nat,
    recommendForMember (A:=F64) member 0 3 0.5%float
    = Ok (map (fun i => (nth_error CATEGORY_NAMES i, get (nth 0 member []) i)) js)
    /\ NoDup js
    /\ Forall (fun i => i < length (nth 0 member [])) js
    /\ (length (nth 0 member []) <= 10 -> NoDup (map (nth_error CATEGORY_NAMES) js)).
Proof.
  destruct (recommendForMember_lists_distinct_categories (A:=F64)
              (hd [] member) (tl member) 0 3 0.5%float eq_refl) as [_ H].
  apply H. simpl. lia.
Defined.

Lemma recommendForMember_ranks_by_descending_score_witness :
  exists js : list nat,
    recommendForMember (A:=F64) member 0 3 0.5%float
    = Ok (map (fun i => (nth_error CATEGORY_NAMES i, get (nth 0 member []) i)) js)
    /\ forall p q, p < q < length js ->
         let i := nth p js O in
         let j := nth q js O in
         lt (Arith:=F64) (get (nth 0 member []) i) (get (nth 0 member []) j) = false
         /\ (lt (Arith:=F64) (get (nth 0 member []) j) (get (nth 0 member []) i) = false -> i < j).
Proof.
  apply (recommendForMember_ranks_by_descending_score (A:=F64)
           (hd [] member) (tl member) 0 3 0.5%float).
  - reflexivity.
  - simpl. lia.
  - repeat (constructor; [reflexivity|]). constructor.
Defined.

Lemma summaryStats_lists_categories_by_descending_mean_witness :
  exists r,
    Stats.summaryStats floatPair = Ok r
    /\ length (Stats.means r) = 2
    /\ (Forall (fun x => le (Arith:=F64) x x = true) (Stats.means r) ->
        exists js,
          Permutation js (seq 0 2)
          /\ map (fun x => (Stats.category x, Stats.mean x)) (Stats.summary r)
             = map (fun i => (nth_error CATEGORY_NAMES i, nth_error (Stats.means r) i)) js
          /\ forall p q, p < q < 2 ->
               let i := nth p js O in
               let j := nth q js O in
               lt (Arith:=F64) (get (Stats.means r) i) (get (Stats.means r) j) = false
               /\ (lt (Arith:=F64) (get (Stats.means r) j) (get (Stats.means r) i) = false
                   -> i < j)).
Proof.
  apply (summaryStats_lists_categories_by_descending_mean (A:=F64)
           [1%float; 3%float] [[2%float; 1%float]]).
Defined.

(** The silhouette bound at two one-column rows and two centroids. *)
Lemma silhouetteApprox_finite_distances_bounded_witness :
  exists v,
    silhouetteApprox (A:=F64) twoRows [O; 1] twoCentroids = Ok v
    /\ le (ofZ (-1)) v = true /\ le v one = true.
Proof.
  apply (silhouetteApprox_finite_distances_bounded [1%float] [[3%float]] [O; 1] twoCentroids).
  - reflexivity.
  - repeat constructor.
  - simpl. lia.
  - reflexivity.
  - intros i c Hi Hc.
    destruct i as [|[|i]]; [| |simpl in Hi; lia];
      (destruct c as [|[|c]]; [reflexivity | reflexivity | simpl in Hc; lia]).
Defined.
